(** * 2D feature tracking: frame pipeline and benchmarking orchestrator

    A shallow embedding of [matching2D.cpp] and [main.cpp]: the matcher
    policy (norm selection, Lowe's ratio test), the ROI filter, the ring
    buffer of frames, the per-combination pipeline, the command line and
    the sweep over detector/descriptor pairs.

    The vision library (OpenCV) is not part of the program.  Its entry
    points are the fields of the class [VisionLibrary]; every definition
    and theorem below is parametric in an instance of it.  A small
    executable instance, [Toy.vision], is used to run the model on
    concrete inputs. *)

From Stdlib Require Import ZArith Ascii String DecimalString Floats.SpecFloat.
From stdpp Require Import base list strings.

Open Scope Z_scope.

(** ** Single-precision floats

    C++ [float] is IEEE 754 binary32: 24 bits of precision, infinities
    at exponent 128.  [spec_float] with these parameters gives the
    arithmetic bit for bit. *)

Definition float : Type := spec_float.

Definition FLT_prec : Z := 24.
Definition FLT_emax : Z := 128.

Definition fmul : float → float → float := SFmul FLT_prec FLT_emax.
Definition fadd : float → float → float := SFadd FLT_prec FLT_emax.
Definition fdiv : float → float → float := SFdiv FLT_prec FLT_emax.
Definition flt : float → float → bool := SFltb.
Definition fle : float → float → bool := SFleb.

(** Conversion of an integer to [float], round to nearest even. *)
Definition float_of_Z (n : Z) : float :=
  binary_normalize FLT_prec FLT_emax n 0 false.

Definition FLT_MAX : float := SFmax_float FLT_prec FLT_emax.
Definition fzero : float := S754_zero false.

(** [std::min(a, b)] is [(b < a) ? b : a]; [std::max(a, b)] is
    [(a < b) ? b : a]. *)
Definition fmin (a b : float) : float := if flt b a then b else a.
Definition fmax (a b : float) : float := if flt a b then b else a.

(** ** Outcomes of a call

    A call returns, throws an exception derived from [std::exception],
    or has undefined behaviour (an index outside a vector, [pop_front]
    on an empty deque). *)

Inductive exn : Type :=
  | invalid_argument (msg : string)
  | runtime_error (msg : string)
  | cv_Exception (msg : string).

Definition what (e : exn) : string :=
  match e with
  | invalid_argument msg | runtime_error msg | cv_Exception msg => msg
  end.

Inductive outcome (A : Type) : Type :=
  | Ok (a : A)
  | Throw (e : exn)
  | Undefined.

Arguments Ok {A} a.
Arguments Throw {A} e.
Arguments Undefined {A}.

#[global] Instance outcome_ret : MRet outcome := @Ok.
#[global] Instance outcome_bind : MBind outcome := λ A B f m,
  match m with
  | Ok a => f a
  | Throw e => Throw e
  | Undefined => Undefined
  end.

Definition is_Throw {A} (r : outcome A) : Prop := ∃ e, r = Throw e.

(** [v[i]] on a [std::vector]: undefined outside [0 .. size-1]. *)
Definition at_ {A} (v : list A) (i : Z) : outcome A :=
  if i <? 0 then Undefined
  else match v !! Z.to_nat i with
       | Some x => Ok x
       | None => Undefined
       end.

(** ** Values of the vision library *)

Module cv.

Record Point2f : Type := { x : float; y : float }.

Record KeyPoint : Type := {
  pt : Point2f;
  size : float;
  angle : float;
  response : float;
  octave : Z;
  class_id : Z
}.

Record DMatch : Type := {
  queryIdx : Z;
  trainIdx : Z;
  imgIdx : Z;
  distance : float
}.

Record Rect : Type := {
  rx : Z;
  ry : Z;
  width : Z;
  height : Z
}.

Inductive NormType : Type := NORM_L2 | NORM_HAMMING.

(** The matchers [matchDescriptors] constructs. *)
Inductive DescriptorMatcher : Type :=
  | BFMatcher (normType : NormType) (crossCheck : bool)
  | FlannLsh (table_number key_size multi_probe_level : Z)
  | FLANNBASED.

(** The detectors and extractors [detKeypoints] and [descKeypoints]
    construct; each carries the fixed parameter set written at its
    construction site. *)
Inductive FeatureDetector : Type :=
  | goodFeaturesToTrack | cornerHarris | FastFeatureDetector
  | BRISK_detector | ORB_detector | AKAZE_detector | SIFT_detector.

Inductive DescriptorExtractor : Type :=
  | BRISK | ORB | AKAZE | SIFT | BriefDescriptorExtractor | FREAK.

End cv.

(** ** The vision library as an interface *)

Class VisionLibrary : Type := {
  (** [cv::Mat]: images and descriptor matrices *)
  Mat : Type;
  Mat_new : Mat;
  Mat_is_empty : Mat → bool;
  Mat_rows : Mat → nat;
  (** the build has [opencv2/xfeatures2d.hpp] *)
  HAS_XFEATURES2D : bool;
  (** [cv::imread]: an empty matrix when the file cannot be read *)
  imread : string → Mat;
  (** [cv::cvtColor(img, gray, cv::COLOR_BGR2GRAY)] *)
  cvtColor_BGR2GRAY : Mat → outcome Mat;
  (** [cv::Rect::contains] *)
  Rect_contains : cv.Rect → cv.Point2f → bool;
  (** running a detector on an image; the vector passed in is the one the
      caller already holds *)
  detect : cv.FeatureDetector → Mat → list cv.KeyPoint → outcome (list cv.KeyPoint);
  (** [extractor->compute(img, keypoints, descriptors)]: may drop
      keypoints, returns the kept ones with their descriptors *)
  compute : cv.DescriptorExtractor → Mat → list cv.KeyPoint →
            outcome (list cv.KeyPoint * Mat);
  (** [matcher->match(query, train, matches)] *)
  DescriptorMatcher_match : cv.DescriptorMatcher → Mat → Mat → outcome (list cv.DMatch);
  (** [matcher->knnMatch(query, train, knn_matches, k)] *)
  DescriptorMatcher_knnMatch :
    cv.DescriptorMatcher → Mat → Mat → Z → outcome (list (list cv.DMatch));
  (** [cv::drawMatches] and [cv::imwrite] *)
  drawMatches : Mat → list cv.KeyPoint → Mat → list cv.KeyPoint →
                list cv.DMatch → outcome Mat;
  imwrite : string → Mat → outcome bool
}.

(** ** matching2D.cpp *)

(** [isBinaryDescriptor]: SIFT is floating point, everything else is
    binary. *)
Definition isBinaryDescriptor (descriptorType : string) : bool :=
  negb (String.eqb descriptorType "SIFT").

(** The norm [matchDescriptors] derives from the descriptor kind. *)
Definition normTypeOf (descriptorType : string) : cv.NormType :=
  if isBinaryDescriptor descriptorType then cv.NORM_HAMMING else cv.NORM_L2.

(** [const float ratio_thresh = 0.8f]: the binary32 number nearest to
    8/10, 13421773 * 2^-24. *)
Definition ratio_thresh : float := S754_finite false 13421773 (-24).

(** The test of the loop over [knn_matches]:
    [m[0].distance < ratio_thresh * m[1].distance]. *)
Definition ratio_ok (m0 m1 : cv.DMatch) : bool :=
  flt (cv.distance m0) (fmul ratio_thresh (cv.distance m1)).

(** The loop over [knn_matches], pushing accepted matches at the back of
    [matches]. *)
Fixpoint ratioTest (knn_matches : list (list cv.DMatch)) (matches : list cv.DMatch)
  : outcome (list cv.DMatch) :=
  match knn_matches with
  | [] => Ok matches
  | m :: rest =>
      m0 ← at_ m 0;
      m1 ← at_ m 1;
      if ratio_ok m0 m1 then ratioTest rest (matches ++ [m0])
      else ratioTest rest matches
  end.

Section Matching.
Context `{V : VisionLibrary}.

(** The matcher chosen from [matcherType] and the norm. *)
Definition createMatcher (descriptorType matcherType : string)
  : outcome cv.DescriptorMatcher :=
  let binary := isBinaryDescriptor descriptorType in
  let normType := if binary then cv.NORM_HAMMING else cv.NORM_L2 in
  if String.eqb matcherType "MAT_BF" then
    Ok (cv.BFMatcher normType false)
  else if String.eqb matcherType "MAT_FLANN" then
    if binary then Ok (cv.FlannLsh 12 20 2) else Ok cv.FLANNBASED
  else
    Throw (invalid_argument
             ("matchDescriptors: unknown matcherType '" +:+ matcherType +:+ "'")).

(** [matchDescriptors]; [matches] is the vector passed by reference,
    the result is its content on return. *)
Definition matchDescriptors (kPtsSource kPtsRef : list cv.KeyPoint)
    (descSource descRef : Mat) (matches : list cv.DMatch)
    (descriptorType matcherType selectorType : string)
  : outcome (list cv.DMatch) :=
  matcher ← createMatcher descriptorType matcherType;
  if String.eqb selectorType "SEL_NN" then
    DescriptorMatcher_match matcher descSource descRef
  else if String.eqb selectorType "SEL_KNN" then
    knn_matches ← DescriptorMatcher_knnMatch matcher descSource descRef 2;
    ratioTest knn_matches matches
  else
    Throw (invalid_argument
             ("matchDescriptors: unknown selectorType '" +:+ selectorType +:+ "'")).

End Matching.

(** [descKeypoints]: the extractor is chosen by name; SIFT, BRIEF and
    FREAK need the contrib module. *)
Section Extraction.
Context `{V : VisionLibrary}.

Definition createExtractor (descriptorType : string) : outcome cv.DescriptorExtractor :=
  if String.eqb descriptorType "BRISK" then Ok cv.BRISK
  else if String.eqb descriptorType "ORB" then Ok cv.ORB
  else if String.eqb descriptorType "AKAZE" then Ok cv.AKAZE
  else if String.eqb descriptorType "SIFT" then
    if HAS_XFEATURES2D then Ok cv.SIFT
    else Throw (runtime_error "descKeypoints: SIFT requires opencv-contrib (xfeatures2d).")
  else if String.eqb descriptorType "BRIEF" then
    if HAS_XFEATURES2D then Ok cv.BriefDescriptorExtractor
    else Throw (runtime_error "descKeypoints: BRIEF requires opencv-contrib (xfeatures2d).")
  else if String.eqb descriptorType "FREAK" then
    if HAS_XFEATURES2D then Ok cv.FREAK
    else Throw (runtime_error "descKeypoints: FREAK requires opencv-contrib (xfeatures2d).")
  else
    Throw (invalid_argument
             ("descKeypoints: unknown descriptorType '" +:+ descriptorType +:+ "'")).

(** [keypoints] and [descriptors] are passed by reference; the result
    is their content on return. *)
Definition descKeypoints (keypoints : list cv.KeyPoint) (img : Mat)
    (descriptors : Mat) (descriptorType : string)
  : outcome (list cv.KeyPoint * Mat) :=
  extractor ← createExtractor descriptorType;
  compute extractor img keypoints.

(** [detKeypoints], called with [bVis = false] only, so the display
    branch is left out.  The Shi-Tomasi and Harris branches (corner
    response, threshold, overlap suppression) are taken whole as the
    detectors [goodFeaturesToTrack] and [cornerHarris]. *)
Definition createDetector (detectorType : string) : outcome cv.FeatureDetector :=
  if String.eqb detectorType "FAST" then Ok cv.FastFeatureDetector
  else if String.eqb detectorType "BRISK" then Ok cv.BRISK_detector
  else if String.eqb detectorType "ORB" then Ok cv.ORB_detector
  else if String.eqb detectorType "AKAZE" then Ok cv.AKAZE_detector
  else if String.eqb detectorType "SIFT" then
    if HAS_XFEATURES2D then Ok cv.SIFT_detector
    else Throw (runtime_error "detKeypoints: SIFT requires opencv-contrib (xfeatures2d).")
  else
    Throw (invalid_argument
             ("detKeypoints: unknown detectorType '" +:+ detectorType +:+ "'")).

Definition detKeypoints (keypoints : list cv.KeyPoint) (img : Mat)
    (detectorType : string) : outcome (list cv.KeyPoint) :=
  if String.eqb detectorType "SHITOMASI" then
    detect cv.goodFeaturesToTrack img keypoints
  else if String.eqb detectorType "HARRIS" then
    detect cv.cornerHarris img keypoints
  else
    detector ← createDetector detectorType;
    detect detector img keypoints.

End Extraction.

(** *** The Shi-Tomasi and Harris branches of [detKeypoints]

    What the two branches do with what the library hands them: the
    corners of [goodFeaturesToTrack], and the response matrix
    [harrisNorm] that [cornerHarris] and [normalize] leave. *)

(** [(int)f] for a [float]: truncation toward zero, undefined when the
    truncated value is not an [int]. *)
Definition int_of_float (f : float) : outcome Z :=
  match f with
  | S754_zero _ => Ok 0
  | S754_finite s m e =>
      let magnitude := if 0 <=? e then Z.pos m * 2 ^ e else Z.pos m / 2 ^ (- e) in
      let z := if s then - magnitude else magnitude in
      if (- 2 ^ 31 <=? z) && (z <? 2 ^ 31) then Ok z else Undefined
  | S754_infinity _ | S754_nan => Undefined
  end.

(** [cv::KeyPoint()] *)
Definition KeyPoint_default : cv.KeyPoint :=
  {| cv.pt := {| cv.x := fzero; cv.y := fzero |};
     cv.size := fzero; cv.angle := float_of_Z (-1); cv.response := fzero;
     cv.octave := 0; cv.class_id := -1 |}.

Module ShiTomasi.

Definition blockSize : Z := 4.

(** The body of the loop over [corners]: a default keypoint with its
    point and size set. *)
Definition cornerKeyPoint (c : cv.Point2f) : cv.KeyPoint :=
  {| cv.pt := c;
     cv.size := float_of_Z blockSize;
     cv.angle := cv.angle KeyPoint_default;
     cv.response := cv.response KeyPoint_default;
     cv.octave := cv.octave KeyPoint_default;
     cv.class_id := cv.class_id KeyPoint_default |}.

Definition cornersToKeypoints (corners : list cv.Point2f) (kps : list cv.KeyPoint)
  : list cv.KeyPoint :=
  fold_left (λ kps c, kps ++ [cornerKeyPoint c]) corners kps.

End ShiTomasi.

Module Harris.

Definition apertureSize : Z := 3.
Definition minResponse : Z := 100.
Definition maxOverlap : float := fzero.

(** [cv::KeyPoint kp(cv::Point2f((float)i, (float)j),
    (float)(2 * apertureSize), -1, response)] *)
Definition corner (i j r : Z) : cv.KeyPoint :=
  {| cv.pt := {| cv.x := float_of_Z i; cv.y := float_of_Z j |};
     cv.size := float_of_Z (2 * apertureSize);
     cv.angle := float_of_Z (-1);
     cv.response := float_of_Z r;
     cv.octave := 0; cv.class_id := -1 |}.

Section Suppression.
(** [cv::KeyPoint::overlap] *)
Variable overlap : cv.KeyPoint → cv.KeyPoint → float.

(** The loop over the existing keypoints, left at the first one that
    [kp] overlaps; the result is the vector and [bOverlap]. *)
Fixpoint overlapLoop (kp : cv.KeyPoint) (kps : list cv.KeyPoint)
  : list cv.KeyPoint * bool :=
  match kps with
  | [] => ([], false)
  | existing :: rest =>
      if flt maxOverlap (overlap kp existing) then
        ((if flt (cv.response existing) (cv.response kp) then kp else existing) :: rest,
         true)
      else
        let '(rest', bOverlap) := overlapLoop kp rest in
        (existing :: rest', bOverlap)
  end.

(** The body of the inner loop for the pixel of column [i], row [j]. *)
Definition pixel (i j : Z) (value : float) (kps : list cv.KeyPoint)
  : outcome (list cv.KeyPoint) :=
  r ← int_of_float value;
  if r <=? minResponse then Ok kps
  else
    let kp := corner i j r in
    let '(kps', bOverlap) := overlapLoop kp kps in
    if bOverlap then Ok kps' else Ok (kps' ++ [kp]).

(** The loop over the columns, from column [i]. *)
Fixpoint columnLoop (j i : Z) (row : list float) (kps : list cv.KeyPoint)
  : outcome (list cv.KeyPoint) :=
  match row with
  | [] => Ok kps
  | value :: row' =>
      kps' ← pixel i j value kps;
      columnLoop j (i + 1) row' kps'
  end.

(** The loop over the rows, from row [j]. *)
Fixpoint rowLoop (j : Z) (harrisNorm : list (list float)) (kps : list cv.KeyPoint)
  : outcome (list cv.KeyPoint) :=
  match harrisNorm with
  | [] => Ok kps
  | row :: rows =>
      kps' ← columnLoop j 0 row kps;
      rowLoop (j + 1) rows kps'
  end.

(** The two loops over [harrisNorm], rows as lists of their columns. *)
Definition suppressed (harrisNorm : list (list float)) (kps : list cv.KeyPoint)
  : outcome (list cv.KeyPoint) :=
  rowLoop 0 harrisNorm kps.

End Suppression.
End Harris.

(** ** main.cpp *)

(** [static const cv::Rect kVehicleROI(535, 180, 180, 150)] *)
Definition kVehicleROI : cv.Rect :=
  {| cv.rx := 535; cv.ry := 180; cv.width := 180; cv.height := 150 |}.

(** [toupper] in the C locale, and [toUpperCase]. *)
Definition toupper (c : ascii) : ascii :=
  let n := N_of_ascii c in
  if ((97 <=? n) && (n <=? 122))%N then ascii_of_N (n - 32) else c.

Fixpoint toUpperCase (s : string) : string :=
  match s with
  | EmptyString => EmptyString
  | String c s' => String (toupper c) (toUpperCase s')
  end.

(** [(size_t)] and [(int)] casts. *)
Definition to_size_t (z : Z) : Z := z mod 2 ^ 64.
Definition to_int (z : Z) : Z := (z + 2 ^ 31) mod 2 ^ 32 - 2 ^ 31.

(** [std::remove_if] followed by [erase]: the elements for which the
    predicate is false, in their order. *)
Definition remove_if {A} (p : A → bool) (v : list A) : list A :=
  filter (λ a, negb (p a)) v.

(** [std::deque] operations used by the ring buffer. *)
Definition pop_front {A} (d : list A) : outcome (list A) :=
  match d with
  | [] => Undefined
  | _ :: d' => Ok d'
  end.

Definition push_back {A} (d : list A) (a : A) : list A := d ++ [a].

Definition back {A} (d : list A) : outcome A :=
  match last d with
  | Some a => Ok a
  | None => Undefined
  end.

(** Assignment through the reference [d.back()]. *)
Definition modify_back {A} (f : A → A) (d : list A) : outcome (list A) :=
  match last d with
  | Some a => Ok (removelast d ++ [f a])
  | None => Undefined
  end.

(** Step 2 of the loop body: drop the oldest frame of a full buffer, then
    append. *)
Definition bufferPush {A} (dataBufferSize : Z) (dataBuffer : list A) (frame : A)
  : outcome (list A) :=
  dataBuffer ← (if to_int (Z.of_nat (length dataBuffer)) =? dataBufferSize
                then pop_front dataBuffer else Ok dataBuffer);
  Ok (push_back dataBuffer frame).

(** Lines of the two logs.  A row keeps the values streamed into it. *)
Inductive KeypointLine : Type :=
  | KeypointHeader
  | KeypointRow (imgIndex : Z) (detectorType : string) (numKeypoints : nat)
                (minSize maxSize meanSize : float).

Inductive MatchLine : Type :=
  | MatchHeader
  | MatchRow (imgIndex : Z) (detectorType descriptorType : string) (numMatches : nat).

(** An integer streamed in decimal. *)
Definition decimal (n : Z) : string := NilZero.string_of_int (Z.to_int n).

(** [setfill('0') << setw(w) << n] *)
Definition zeroPadded (w : Z) (n : Z) : string :=
  let s := decimal n in
  String.concat "" (replicate (Z.to_nat w - String.length s)%nat "0") +:+ s.

(** Minimum, maximum and sum of the sizes, as the loop of
    [logKeypointStats] accumulates them. *)
Definition sizeStats (keypoints : list cv.KeyPoint) : float * float * float :=
  fold_left (λ '(minSz, maxSz, meanSz) kp,
               (fmin minSz (cv.size kp), fmax maxSz (cv.size kp), fadd meanSz (cv.size kp)))
            keypoints (FLT_MAX, fzero, fzero).

Definition keypointStatsRow (imgIndex : Z) (detectorType : string)
    (keypoints : list cv.KeyPoint) : KeypointLine :=
  let '(minSz, maxSz, meanSz) := sizeStats keypoints in
  let meanSz := if negb (bool_decide (keypoints = []))
                then fdiv meanSz (float_of_Z (Z.of_nat (length keypoints)))
                else meanSz in
  let minSz := if negb (bool_decide (keypoints = [])) then minSz else fzero in
  KeypointRow imgIndex detectorType (length keypoints) minSz maxSz meanSz.

Section Pipeline.
Context `{V : VisionLibrary}.

(** Modelled from the spec: [struct DataFrame] of [dataStructures.h],
    which is not among the sources; the spec's Frame holds one image,
    its keypoints, its descriptors and the matches against the
    preceding frame, and these are the four fields the pipeline uses. *)
Record DataFrame : Type := {
  cameraImg : Mat;
  keypoints : list cv.KeyPoint;
  descriptors : Mat;
  kptMatches : list cv.DMatch
}.

Definition DataFrame_new : DataFrame :=
  {| cameraImg := Mat_new; keypoints := []; descriptors := Mat_new; kptMatches := [] |}.

Definition set_cameraImg (img : Mat) (f : DataFrame) : DataFrame :=
  {| cameraImg := img; keypoints := keypoints f;
     descriptors := descriptors f; kptMatches := kptMatches f |}.
Definition set_keypoints (kps : list cv.KeyPoint) (f : DataFrame) : DataFrame :=
  {| cameraImg := cameraImg f; keypoints := kps;
     descriptors := descriptors f; kptMatches := kptMatches f |}.
Definition set_descriptors (d : Mat) (f : DataFrame) : DataFrame :=
  {| cameraImg := cameraImg f; keypoints := keypoints f;
     descriptors := d; kptMatches := kptMatches f |}.
Definition set_kptMatches (ms : list cv.DMatch) (f : DataFrame) : DataFrame :=
  {| cameraImg := cameraImg f; keypoints := keypoints f;
     descriptors := descriptors f; kptMatches := ms |}.

(** What the program writes: the two logs, the image files and the
    error stream.  Both log streams are taken to be open; the progress
    lines on the standard output are left out. *)
Record World : Type := {
  keypointLog : list KeypointLine;
  matchLog : list MatchLine;
  imageFiles : list (string * Mat);
  cerr : list string
}.

(** Computations that write to the world and may throw. *)
Definition IO (A : Type) : Type := World → World * outcome A.

#[global] Instance IO_ret : MRet IO := λ A a w, (w, Ok a).
#[global] Instance IO_bind : MBind IO := λ A B f m w,
  match m w with
  | (w', Ok a) => f a w'
  | (w', Throw e) => (w', Throw e)
  | (w', Undefined) => (w', Undefined)
  end.

Definition liftO {A} (r : outcome A) : IO A := λ w, (w, r).

Definition write_keypointLog (l : KeypointLine) : IO unit := λ w,
  ({| keypointLog := keypointLog w ++ [l]; matchLog := matchLog w;
      imageFiles := imageFiles w; cerr := cerr w |}, Ok ()).
Definition write_matchLog (l : MatchLine) : IO unit := λ w,
  ({| keypointLog := keypointLog w; matchLog := matchLog w ++ [l];
      imageFiles := imageFiles w; cerr := cerr w |}, Ok ()).
Definition write_cerr (s : string) : IO unit := λ w,
  ({| keypointLog := keypointLog w; matchLog := matchLog w;
      imageFiles := imageFiles w; cerr := cerr w ++ [s] |}, Ok ()).
Definition write_image (path : string) (img : Mat) : IO unit := λ w,
  match imwrite path img with
  | Ok true =>
      ({| keypointLog := keypointLog w; matchLog := matchLog w;
          imageFiles := imageFiles w ++ [(path, img)]; cerr := cerr w |}, Ok ())
  | Ok false => (w, Ok ())
  | Throw e => (w, Throw e)
  | Undefined => (w, Undefined)
  end.

(** [try { body } catch (const exception &e) { handler }]: every
    exception of the model derives from [std::exception]. *)
Definition try_catch (body : IO unit) (handler : exn → IO unit) : IO unit := λ w,
  match body w with
  | (w', Throw e) => handler e w'
  | r => r
  end.

(** A range-based [for] over a vector. *)
Fixpoint for_each {A} (l : list A) (body : A → IO unit) : IO unit :=
  match l with
  | [] => mret ()
  | a :: l' => _ ← body a; for_each l' body
  end.

(** [loadGrayscaleImage] *)
Definition loadGrayscaleImage (path : string) : outcome Mat :=
  let img := imread path in
  if Mat_is_empty img then
    Throw (runtime_error ("loadGrayscaleImage: could not open '" +:+ path +:+ "'"))
  else cvtColor_BGR2GRAY img.

(** The erase-remove statement of [detectAndFilterKeypoints]. *)
Definition eraseOutsideROI (keypoints : list cv.KeyPoint) : list cv.KeyPoint :=
  remove_if (λ kp, negb (Rect_contains kVehicleROI (cv.pt kp))) keypoints.

(** [detectAndFilterKeypoints]; the result is the content of
    [keypoints] on return. *)
Definition detectAndFilterKeypoints (img : Mat) (detectorType : string)
    (keypoints : list cv.KeyPoint) (bFocusOnVehicle : bool)
  : outcome (list cv.KeyPoint) :=
  detected ← detKeypoints keypoints img detectorType;
  if bFocusOnVehicle then Ok (eraseOutsideROI detected) else Ok detected.

(** [logKeypointStats]: one row to the keypoint log. *)
Definition logKeypointStats (imgIndex : Z) (detectorType : string)
    (keypoints : list cv.KeyPoint) : IO unit :=
  write_keypointLog (keypointStatsRow imgIndex detectorType keypoints).

(** *** runCombination *)
Section Combination.
Variables (detectorType descriptorType matcherType selectorType : string).
Variables (imgBasePath imgPrefix imgFileType : string).
Variables (imgStartIndex imgEndIndex imgFillWidth dataBufferSize : Z).
Variables (bFocusOnVehicle bSaveImages : bool).

Definition imgPath (imgIndex : Z) : string :=
  imgBasePath +:+ imgPrefix
    +:+ zeroPadded imgFillWidth (imgStartIndex + to_int imgIndex) +:+ imgFileType.

Definition matchImagePath (imgIndex : Z) : string :=
  "../images/outputs/match_" +:+ detectorType +:+ "_" +:+ descriptorType
    +:+ "_frames_" +:+ decimal (to_size_t (imgIndex - 1)) +:+ "_"
    +:+ decimal imgIndex +:+ ".png".

(** Steps 1 to 4 of the loop body: load, push into the ring buffer,
    detect and filter, log the keypoint row, extract descriptors. *)
Definition loadDetectDescribe (dataBuffer : list DataFrame) (imgIndex : Z)
  : IO (list DataFrame) :=
  imgGray ← liftO (loadGrayscaleImage (imgPath imgIndex));
  let frame := set_cameraImg imgGray DataFrame_new in
  dataBuffer ← liftO (bufferPush dataBufferSize dataBuffer frame);
  cur ← liftO (back dataBuffer);
  kps ← liftO (detectAndFilterKeypoints (cameraImg cur) detectorType []
                                        bFocusOnVehicle);
  _ ← logKeypointStats imgIndex detectorType kps;
  dataBuffer ← liftO (modify_back (set_keypoints kps) dataBuffer);
  cur ← liftO (back dataBuffer);
  '(kps', descs) ←
    liftO (descKeypoints (keypoints cur) (cameraImg cur) Mat_new descriptorType);
  dataBuffer ← liftO (modify_back (set_keypoints kps') dataBuffer);
  liftO (modify_back (set_descriptors descs) dataBuffer).

(** Steps 5 and 6: when the buffer holds more than one frame, match
    [dataBuffer[size - 2]] against [dataBuffer.back()], log the match
    row and save the drawing if asked. *)
Definition matchLatest (dataBuffer : list DataFrame) (imgIndex : Z)
  : IO (list DataFrame) :=
  if to_int (Z.of_nat (length dataBuffer)) >? 1 then
    prev ← liftO (at_ dataBuffer (to_size_t (Z.of_nat (length dataBuffer) - 2)));
    cur ← liftO (back dataBuffer);
    matches ← liftO (matchDescriptors (keypoints prev) (keypoints cur)
                       (descriptors prev) (descriptors cur) []
                       descriptorType matcherType selectorType);
    dataBuffer ← liftO (modify_back (set_kptMatches matches) dataBuffer);
    _ ← write_matchLog (MatchRow imgIndex detectorType descriptorType (length matches));
    _ ← (if bSaveImages then
           matchImg ← liftO (drawMatches (cameraImg prev) (keypoints prev)
                                         (cameraImg cur) (keypoints cur) matches);
           write_image (matchImagePath imgIndex) matchImg
         else mret ());
    mret dataBuffer
  else mret dataBuffer.

Definition processImage (dataBuffer : list DataFrame) (imgIndex : Z)
  : IO (list DataFrame) :=
  dataBuffer ← loadDetectDescribe dataBuffer imgIndex;
  matchLatest dataBuffer imgIndex.

(** The image loop over a list of indices, ending at the first
    exception. *)
Fixpoint imageLoop (indices : list Z) (dataBuffer : list DataFrame)
  : IO (list DataFrame) :=
  match indices with
  | [] => mret dataBuffer
  | imgIndex :: rest =>
      dataBuffer ← processImage dataBuffer imgIndex;
      imageLoop rest dataBuffer
  end.

(** [imgIndex = 0 .. (size_t)(imgEndIndex - imgStartIndex)].  For
    [imgEndIndex = imgStartIndex - 1] the bound is [SIZE_MAX] and the
    C++ loop has no exit but an exception; the model stops after
    2^64 images. *)
Definition imageIndices : list Z :=
  Z.of_nat <$> seq 0 (S (Z.to_nat (to_size_t (imgEndIndex - imgStartIndex)))).

Definition runCombination : IO unit :=
  _ ← imageLoop imageIndices []; mret ().

End Combination.
End Pipeline.

(** *** main *)

Record Options : Type := {
  singleDetector : string;
  singleDescriptor : string;
  matcherType : string;
  selectorType : string;
  bSaveImages : bool
}.

Definition defaultOptions : Options :=
  {| singleDetector := ""; singleDescriptor := "";
     matcherType := "MAT_BF"; selectorType := "SEL_KNN"; bSaveImages := false |}.

Definition set_singleDetector (v : string) (o : Options) : Options :=
  {| singleDetector := v; singleDescriptor := singleDescriptor o;
     matcherType := matcherType o; selectorType := selectorType o;
     bSaveImages := bSaveImages o |}.
Definition set_singleDescriptor (v : string) (o : Options) : Options :=
  {| singleDetector := singleDetector o; singleDescriptor := v;
     matcherType := matcherType o; selectorType := selectorType o;
     bSaveImages := bSaveImages o |}.
Definition set_matcherType (v : string) (o : Options) : Options :=
  {| singleDetector := singleDetector o; singleDescriptor := singleDescriptor o;
     matcherType := v; selectorType := selectorType o;
     bSaveImages := bSaveImages o |}.
Definition set_selectorType (v : string) (o : Options) : Options :=
  {| singleDetector := singleDetector o; singleDescriptor := singleDescriptor o;
     matcherType := matcherType o; selectorType := v;
     bSaveImages := bSaveImages o |}.
Definition set_bSaveImages (v : bool) (o : Options) : Options :=
  {| singleDetector := singleDetector o; singleDescriptor := singleDescriptor o;
     matcherType := matcherType o; selectorType := selectorType o;
     bSaveImages := v |}.

(** The argument loop of [main] over [argv[1 ..]].  A flag that takes a
    value is recognised only when a next argument exists.  The result is
    the options, or the argument that stopped the loop. *)
Fixpoint parseArgs (args : list string) (o : Options) : string + Options :=
  match args with
  | [] => inr o
  | arg :: rest =>
      match rest with
      | value :: rest' =>
          if String.eqb arg "--detector" then
            parseArgs rest' (set_singleDetector (toUpperCase value) o)
          else if String.eqb arg "--descriptor" then
            parseArgs rest' (set_singleDescriptor (toUpperCase value) o)
          else if String.eqb arg "--matcher" then
            parseArgs rest' (set_matcherType (toUpperCase value) o)
          else if String.eqb arg "--selector" then
            parseArgs rest' (set_selectorType (toUpperCase value) o)
          else if String.eqb arg "--save" then
            parseArgs rest (set_bSaveImages true o)
          else inl arg
      | [] =>
          if String.eqb arg "--save" then parseArgs rest (set_bSaveImages true o)
          else inl arg
      end
  end.

Definition newline : string := String (ascii_of_N 10) "".

Definition usageMessage (arg : string) : string :=
  "Unknown argument: " +:+ arg +:+ newline
    +:+ "Usage: ./2D_feature_tracking [--detector D] [--descriptor D]"
    +:+ " [--matcher M] [--selector S] [--save]" +:+ newline.

Definition allDetectorTypes : list string :=
  ["SHITOMASI"; "HARRIS"; "FAST"; "BRISK"; "ORB"; "AKAZE"; "SIFT"].
Definition allDescriptorTypes : list string :=
  ["BRISK"; "ORB"; "AKAZE"; "SIFT"; "BRIEF"; "FREAK"].

Definition detectorTypesOf (o : Options) : list string :=
  if negb (String.eqb (singleDetector o) "") then [singleDetector o]
  else allDetectorTypes.
Definition descriptorTypesOf (o : Options) : list string :=
  if negb (String.eqb (singleDescriptor o) "") then [singleDescriptor o]
  else allDescriptorTypes.

(** The guard of the inner loop:
    [if (desc == "AKAZE" && det != "AKAZE") continue;] *)
Definition skipPairing (det desc : string) : bool :=
  String.eqb desc "AKAZE" && negb (String.eqb det "AKAZE").

Definition errorReport (det desc : string) (e : exn) : string :=
  "[ERROR] " +:+ det +:+ "+" +:+ desc +:+ ": " +:+ what e +:+ newline.

Section Main.
Context `{V : VisionLibrary}.

(** The image source configuration of [main]. *)
Definition dataPath : string := "../".
Definition imgBasePath : string := dataPath +:+ "images/".
Definition imgPrefix : string := "KITTI/2011_09_26/image_00/data/000000".
Definition imgFileType : string := ".png".
Definition imgStartIndex : Z := 0.
Definition imgEndIndex : Z := 9.
Definition imgFillWidth : Z := 4.
Definition dataBufferSize : Z := 2.
Definition bFocusOnVehicle : bool := true.

(** The [try] block of the main loop with its [catch]. *)
Definition tryCombination (o : Options) (det desc : string) : IO unit :=
  try_catch
    (runCombination det desc (matcherType o) (selectorType o)
                    imgBasePath imgPrefix imgFileType
                    imgStartIndex imgEndIndex imgFillWidth
                    dataBufferSize bFocusOnVehicle (bSaveImages o))
    (λ e, write_cerr (errorReport det desc e)).

(** The two nested loops of [main]. *)
Definition sweep (o : Options) (detectorTypes descriptorTypes : list string)
  : IO unit :=
  for_each detectorTypes (λ det,
    for_each descriptorTypes (λ desc,
      if skipPairing det desc then mret ()
      else tryCombination o det desc)).

Definition World_empty : World :=
  {| keypointLog := []; matchLog := []; imageFiles := []; cerr := [] |}.

(** [main]: what was written, and the exit status. *)
Definition main (argv : list string) : World * outcome Z :=
  match parseArgs argv defaultOptions with
  | inl arg => (_ ← write_cerr (usageMessage arg); mret 1) World_empty
  | inr o =>
      (_ ← write_keypointLog KeypointHeader;
       _ ← write_matchLog MatchHeader;
       _ ← sweep o (detectorTypesOf o) (descriptorTypesOf o);
       mret 0) World_empty
  end.

End Main.

(** ** An executable vision library

    A small instance on which the model runs.  An image is a list of
    rows [x; y; size; d1; d2; ...]: each row is one feature at pixel
    [(x, y)] with descriptor [d1; d2; ...].  A descriptor matrix is the
    list of the descriptors.  Matching is exhaustive, by the sum of
    absolute differences, candidates in increasing distance and, as
    [knnMatch] documents, fewer than [k] of them when the train set is
    smaller than [k].  Files are given by a table; the contrib module is
    absent. *)
Module Toy.

Definition Matrix : Type := list (list Z).

Definition keypointOfRow (i : nat) (row : list Z) : cv.KeyPoint :=
  {| cv.pt := {| cv.x := float_of_Z (nth 0 row 0); cv.y := float_of_Z (nth 1 row 0) |};
     cv.size := float_of_Z (nth 2 row 0);
     cv.angle := float_of_Z (-1); cv.response := fzero;
     cv.octave := 0; cv.class_id := Z.of_nat i |}.

Definition detectRows (d : cv.FeatureDetector) (img : Matrix) (kps : list cv.KeyPoint)
  : outcome (list cv.KeyPoint) :=
  Ok (imap keypointOfRow img).

Definition descriptorOf (img : Matrix) (kp : cv.KeyPoint) : list Z :=
  drop 3 (nth (Z.to_nat (cv.class_id kp)) img []).

Definition describe (e : cv.DescriptorExtractor) (img : Matrix) (kps : list cv.KeyPoint)
  : outcome (list cv.KeyPoint * Matrix) :=
  Ok (kps, descriptorOf img <$> kps).

(** An extractor that returns one descriptor too few. *)
Definition describeShort (e : cv.DescriptorExtractor) (img : Matrix)
    (kps : list cv.KeyPoint) : outcome (list cv.KeyPoint * Matrix) :=
  Ok (kps, descriptorOf img <$> removelast kps).

Fixpoint sad (a b : list Z) : Z :=
  match a, b with
  | u :: a', v :: b' => Z.abs (u - v) + sad a' b'
  | _, _ => 0
  end.

Fixpoint insertByDistance (m : cv.DMatch) (l : list cv.DMatch) : list cv.DMatch :=
  match l with
  | [] => [m]
  | m' :: l' =>
      if flt (cv.distance m) (cv.distance m') then m :: l
      else m' :: insertByDistance m l'
  end.

Definition nearestFirst (l : list cv.DMatch) : list cv.DMatch :=
  foldr insertByDistance [] l.

Definition candidates (qi : nat) (q : list Z) (train : Matrix) : list cv.DMatch :=
  imap (λ ti t, {| cv.queryIdx := Z.of_nat qi; cv.trainIdx := Z.of_nat ti;
                   cv.imgIdx := 0; cv.distance := float_of_Z (sad q t) |}) train.

Definition knn (m : cv.DescriptorMatcher) (query train : Matrix) (k : Z)
  : outcome (list (list cv.DMatch)) :=
  Ok (imap (λ qi q, take (Z.to_nat k) (nearestFirst (candidates qi q train))) query).

Definition nearest (m : cv.DescriptorMatcher) (query train : Matrix)
  : outcome (list cv.DMatch) :=
  Ok (concat (imap (λ qi q, take 1 (nearestFirst (candidates qi q train))) query)).

Definition inside (r : cv.Rect) (p : cv.Point2f) : bool :=
  fle (float_of_Z (cv.rx r)) (cv.x p)
  && flt (cv.x p) (float_of_Z (cv.rx r + cv.width r))
  && fle (float_of_Z (cv.ry r)) (cv.y p)
  && flt (cv.y p) (float_of_Z (cv.ry r + cv.height r)).

Definition readFile (files : list (string * Matrix)) (path : string) : Matrix :=
  match list_find (λ f, f.1 = path) files with
  | Some (_, f) => f.2
  | None => []
  end.

Definition make (files : list (string * Matrix))
    (extract : cv.DescriptorExtractor → Matrix → list cv.KeyPoint →
               outcome (list cv.KeyPoint * Matrix)) : VisionLibrary :=
  {| Mat := Matrix;
     Mat_new := [];
     Mat_is_empty := λ m, bool_decide (m = []);
     Mat_rows := length;
     HAS_XFEATURES2D := false;
     imread := readFile files;
     cvtColor_BGR2GRAY := Ok;
     Rect_contains := inside;
     detect := detectRows;
     compute := extract;
     DescriptorMatcher_match := nearest;
     DescriptorMatcher_knnMatch := knn;
     drawMatches := λ imgA _ imgB _ _, Ok (imgA ++ imgB);
     imwrite := λ _ _, Ok true |}.

Definition vision (files : list (string * Matrix)) : VisionLibrary := make files describe.

(** Ten frames of three features inside the vehicle ROI and one outside. *)
Definition frame (i : Z) : Matrix :=
  [ [540 + i; 200; 4; 1; 0; 0; 1];
    [600 + i; 250; 6; 0; 1; 1; 0];
    [100; 100; 5; 1; 1; 1; 1];
    [700 - i; 320; 8; 0; 0; 1; 1 + i] ].

Definition pathOf (i : Z) : string :=
  imgPath imgBasePath imgPrefix imgFileType imgStartIndex imgFillWidth i.

Definition sequence : list (string * Matrix) :=
  (λ i, (pathOf (Z.of_nat i), frame (Z.of_nat i))) <$> seq 0 10.

(** The same sequence with frame 2 missing. *)
Definition sequenceWithout2 : list (string * Matrix) :=
  filter (λ f, f.1 ≠ pathOf 2) sequence.

(** Two query descriptors and three reference descriptors: the first
    query has neighbours at distances 0 and 2, the second at 2 and 2. *)
Definition queryDescriptors : Matrix := [ [1; 0; 0; 1]; [1; 1; 0; 0] ].
Definition refDescriptors : Matrix := [ [1; 0; 0; 1]; [1; 1; 1; 1]; [0; 0; 1; 0] ].

(** An overlap for the Harris branch: keypoints overlap when they lie
    in the same image row. *)
Definition sameRow (a b : cv.KeyPoint) : float :=
  if SFeqb (cv.y (cv.pt a)) (cv.y (cv.pt b)) then float_of_Z 1 else fzero.

(** A response matrix of two rows of three pixels. *)
Definition responses : list (list float) :=
  map (map float_of_Z) [ [50; 120; 130]; [200; 0; 101] ].

(** A single frame whose only feature lies outside the vehicle ROI. *)
Definition outsideOnly : list (string * Matrix) :=
  [ (pathOf 0, [ [100; 100; 5; 1; 1; 1; 1] ]) ].

End Toy.


(** ** Reference definitions

    The design's wording of what the code computes, to compare the code
    with. *)



(** The frame of an image once described, before any matching. *)
Definition describedFrame `{V : VisionLibrary} (img : Mat) (kps : list cv.KeyPoint)
    (descs : Mat) : DataFrame :=
  {| cameraImg := img; keypoints := kps; descriptors := descs; kptMatches := [] |}.

(** The frames that stay when a frame is pushed: all but the oldest of a
    full buffer, all of a buffer that is not full. *)
Definition retained {A} (dataBufferSize : Z) (dataBuffer : list A) : list A :=
  if to_int (Z.of_nat (length dataBuffer)) =? dataBufferSize
  then tail dataBuffer else dataBuffer.

(** [previous()] and [latest()] of the design's frame buffer. *)
Definition previous {A} (dataBuffer : list A) : option A :=
  last (removelast dataBuffer).
Definition latest {A} (dataBuffer : list A) : option A := last dataBuffer.

(** The index-alignment invariant: one descriptor row per keypoint. *)
Definition aligned `{V : VisionLibrary} (f : DataFrame) : Prop :=
  Mat_rows (descriptors f) = length (keypoints f).

(** The world [w'] keeps everything written in [w]. *)
Definition keeps `{V : VisionLibrary} (w w' : World) : Prop :=
  keypointLog w `prefix_of` keypointLog w'
  ∧ matchLog w `prefix_of` matchLog w'
  ∧ imageFiles w `prefix_of` imageFiles w'
  ∧ cerr w `prefix_of` cerr w'.


(** A computation that only adds to what is written. *)
Definition appendOnly `{V : VisionLibrary} {A} (m : IO A) : Prop :=
  ∀ w, keeps w (m w).1.


(** Step 2 of the loop body repeated over a sequence of frames, from a
    given buffer. *)
Definition pushFrames {A} (dataBufferSize : Z) (dataBuffer : list A) (frames : list A)
  : outcome (list A) :=
  foldl (λ acc frame, d ← acc; bufferPush dataBufferSize d frame) (Ok dataBuffer) frames.


(** The image index a line of the keypoint log was written for. *)
Definition keypointRowIndex (l : KeypointLine) : option Z :=
  match l with
  | KeypointHeader => None
  | KeypointRow imgIndex _ _ _ _ _ => Some imgIndex
  end.


(** The valid pairings in the design's words: the cross product of the
    detector set and the descriptor set, without the pairs of the AKAZE
    descriptor with another detector. *)
Definition validPairings (detectorTypes descriptorTypes : list string)
  : list (string * string) :=
  filter (λ p, skipPairing p.1 p.2 = false) (list_prod detectorTypes descriptorTypes).




(** What an outcome is, as data: whether the call returned, the
    exception it threw, and the value it returned or a default. *)
Definition returned {A} (r : outcome A) : bool :=
  match r with Ok _ => true | _ => false end.
Definition thrown {A} (r : outcome A) : option exn :=
  match r with Throw e => Some e | _ => None end.
Definition valueOr {A} (default : A) (r : outcome A) : A :=
  match r with Ok a => a | _ => default end.


(** Mapping over the options of a parse that succeeded. *)
#[global] Instance parsed_fmap {E} : FMap (sum E) := λ A B f r,
  match r with
  | inl e => inl e
  | inr a => inr (f a)
  end.


(** The order of [SFcompare] as a lexicographic order on integer
    triples: the class (minus infinity, negative, zero, positive, plus
    infinity), then exponent and mantissa, both negated for a negative
    number.  NaN has no key. *)
Definition floatKey (f : float) : option (Z * Z * Z) :=
  match f with
  | S754_zero _ => Some (0, 0, 0)
  | S754_infinity false => Some (2, 0, 0)
  | S754_infinity true => Some (-2, 0, 0)
  | S754_nan => None
  | S754_finite false m e => Some (1, e, Zpos m)
  | S754_finite true m e => Some (-1, - e, Zneg m)
  end.

Definition keyLt (a b : Z * Z * Z) : Prop :=
  let '(a1, a2, a3) := a in
  let '(b1, b2, b3) := b in
  a1 < b1 ∨ (a1 = b1 ∧ (a2 < b2 ∨ (a2 = b2 ∧ a3 < b3))).

Definition keyLe (a b : Z * Z * Z) : Prop :=
  let '(a1, a2, a3) := a in
  let '(b1, b2, b3) := b in
  a1 < b1 ∨ (a1 = b1 ∧ (a2 < b2 ∨ (a2 = b2 ∧ a3 ≤ b3))).


(** The image index a line of the match log was written for, and the
    pairing it names. *)
Definition matchRowIndex (l : MatchLine) : option Z :=
  match l with
  | MatchHeader => None
  | MatchRow imgIndex _ _ _ => Some imgIndex
  end.

Definition matchRowPairing (l : MatchLine) : option (string * string) :=
  match l with
  | MatchHeader => None
  | MatchRow _ detectorType descriptorType _ => Some (detectorType, descriptorType)
  end.

Definition keypointRowDetector (l : KeypointLine) : option string :=
  match l with
  | KeypointHeader => None
  | KeypointRow _ detectorType _ _ _ _ => Some detectorType
  end.


(** A computation that leaves a part of the world as it was. *)
Definition leaves `{V : VisionLibrary} {A B} (part : World → B) (m : IO A) : Prop :=
  ∀ w, part (m w).1 = part w.

(** A computation that adds to the logs only keypoint lines satisfying
    [K] and match lines satisfying [M]. *)
Definition logsOnly `{V : VisionLibrary} {A} (K : KeypointLine → Prop)
    (M : MatchLine → Prop) (m : IO A) : Prop :=
  ∀ w, ∃ keypointRows matchRows,
    keypointLog (m w).1 = keypointLog w ++ keypointRows
    ∧ matchLog (m w).1 = matchLog w ++ matchRows
    ∧ Forall K keypointRows ∧ Forall M matchRows.


(** The keypoint lines and the match lines of a combination for the
    images of a list. *)
Definition keypointRowOf (detectorType : string) (indices : list Z)
    (l : KeypointLine) : Prop :=
  ∃ i, i ∈ indices ∧ keypointRowIndex l = Some i
       ∧ keypointRowDetector l = Some detectorType.
Definition matchRowOf (detectorType descriptorType : string) (indices : list Z)
    (l : MatchLine) : Prop :=
  ∃ i, i ∈ indices ∧ matchRowIndex l = Some i
       ∧ matchRowPairing l = Some (detectorType, descriptorType).


(** A pixel whose truncated response is above the threshold of the
    Harris branch. *)
Definition strongPixel (value : float) : bool :=
  match int_of_float value with
  | Ok r => negb (r <=? Harris.minResponse)
  | _ => false
  end.

(** The corner keypoint of a strong pixel in the rows [harrisNorm], the
    first of which is row [j0], each from column [i0] on. *)
Definition cornerOfRow (j i0 : Z) (row : list float) (kp : cv.KeyPoint) : Prop :=
  ∃ (k : nat) value r,
    row !! k = Some value ∧ int_of_float value = Ok r ∧ Harris.minResponse < r
    ∧ kp = Harris.corner (i0 + Z.of_nat k) j r.

Definition cornerOf (j0 : Z) (harrisNorm : list (list float)) (kp : cv.KeyPoint) : Prop :=
  ∃ (n : nat) row, harrisNorm !! n = Some row ∧ cornerOfRow (j0 + Z.of_nat n) 0 row kp.

(** A keypoint as it was, or replaced by a stronger keypoint from [P]. *)
Definition upgraded (P : cv.KeyPoint → Prop) (old new : cv.KeyPoint) : Prop :=
  new = old ∨ (P new ∧ flt (cv.response old) (cv.response new) = true).

(** [out] is [kps] with some keypoints upgraded in place, followed by
    at most [n] keypoints from [P]. *)
Definition grownBy (P : cv.KeyPoint → Prop) (n : nat) (kps out : list cv.KeyPoint) : Prop :=
  ∃ replaced added,
    out = replaced ++ added
    ∧ Forall2 (upgraded P) kps replaced
    ∧ Forall P added
    ∧ (length added ≤ n)%nat.


(** ** Proof tools *)

(** Uses that a name is none of a list of names to decide the
    comparisons of the goal with them. *)
Ltac names_differ :=
  repeat match goal with
         | H : _ ∉ _ :: _ |- _ => apply not_elem_of_cons in H as [? H]
         | H : ?a ≠ ?b |- context [String.eqb ?a ?b] =>
             rewrite (proj2 (String.eqb_neq a b) H)
         end.


(** Splits the goal along the integer comparisons it contains. *)
Ltac cmp_cases :=
  repeat match goal with
         | |- context [(?a ?= ?b)%Z] => destruct (Z.compare_spec a b)
         | |- context [(?a ?= ?b)%positive] => destruct (Pos.compare_spec a b)
         end.


(** * Properties *)

(** ** The outcome monad *)

Lemma outcome_bind_Ok {A B} (m : outcome A) (f : A → outcome B) (b : B) :
  m ≫= f = Ok b ↔ ∃ a, m = Ok a ∧ f a = Ok b.
Proof.
  destruct m as [a|e|]; simpl; split.
  - intros H. exists a. split; [reflexivity | exact H].
  - intros (a' & Ha & Hf). injection Ha as ->. exact Hf.
  - discriminate.
  - intros (a' & Ha & _). discriminate.
  - discriminate.
  - intros (a' & Ha & _). discriminate.
Qed.

Lemma at_0 {A} (a : A) (v : list A) : at_ (a :: v) 0 = Ok a.
Proof. reflexivity. Qed.

Lemma at_1 {A} (a b : A) (v : list A) : at_ (a :: b :: v) 1 = Ok b.
Proof. reflexivity. Qed.

Lemma at_short {A} (v : list A) : (length v < 2)%nat → at_ v 0 = Undefined ∨ at_ v 1 = Undefined.
Proof.
  destruct v as [|a [|b v]]; simpl; intros Hlen.
  - left. reflexivity.
  - right. reflexivity.
  - lia.
Qed.

(** ** Comparison of floats *)



(** ** The matcher *)


Lemma ratioTest_short_neighbours (knn_matches : list (list cv.DMatch)) :
  Exists (λ m, (length m < 2)%nat) knn_matches →
  ∀ matches, ratioTest knn_matches matches = Undefined.
Proof.
  induction knn_matches as [|m rest IH]; intros Hex matches.
  - inversion Hex.
  - destruct m as [|m0 [|m1 m]]; try reflexivity.
    apply Exists_cons in Hex as [Hm|Hrest]; [simpl in Hm; lia|].
    cbn [ratioTest]. rewrite at_0, at_1. cbn [mbind outcome_bind].
    destruct (ratio_ok m0 m1); apply IH, Hrest.
Qed.



(** C5.  With strategy SEL_KNN, when the 2-nearest-neighbour search
    returns fewer than two neighbours for some element of A (as it does
    when B has one element), [matchDescriptors] reads [m[1]] outside the
    vector: the call has undefined behaviour and raises no error. *)
Theorem ratio_test_too_few_neighbours `{V : VisionLibrary}
    (kPtsSource kPtsRef : list cv.KeyPoint) (descSource descRef : Mat)
    (matches : list cv.DMatch)
    (descriptorType matcherType : string) (matcher : cv.DescriptorMatcher)
    (knn_matches : list (list cv.DMatch)) :
  createMatcher descriptorType matcherType = Ok matcher →
  DescriptorMatcher_knnMatch matcher descSource descRef 2 = Ok knn_matches →
  Exists (λ m, (length m < 2)%nat) knn_matches →
  matchDescriptors kPtsSource kPtsRef descSource descRef matches
                   descriptorType matcherType "SEL_KNN" = Undefined.
Proof.
  intros Hmatcher Hknn Hshort.
  unfold matchDescriptors. rewrite Hmatcher. cbn [mbind outcome_bind].
  change (String.eqb "SEL_KNN" "SEL_NN") with false.
  change (String.eqb "SEL_KNN" "SEL_KNN") with true. cbn match.
  rewrite Hknn. cbn [mbind outcome_bind].
  apply ratioTest_short_neighbours, Hshort.
Qed.


Lemma ratio_test_too_few_neighbours_witness :
  @matchDescriptors (Toy.vision []) [] [] Toy.queryDescriptors [ [1; 0; 0; 1] ] []
                    "ORB" "MAT_BF" "SEL_KNN" = Undefined.
Proof.
  apply (ratio_test_too_few_neighbours (V := Toy.vision []) [] []
           Toy.queryDescriptors [ [1; 0; 0; 1] ] [] "ORB" "MAT_BF"
           (cv.BFMatcher cv.NORM_HAMMING false)
           [ firstn 2 (Toy.nearestFirst (Toy.candidates 0 [1; 0; 0; 1] [ [1; 0; 0; 1] ]));
             firstn 2 (Toy.nearestFirst (Toy.candidates 1 [1; 1; 0; 0] [ [1; 0; 0; 1] ])) ]).
  - reflexivity.
  - reflexivity.
  - apply Exists_cons_hd. vm_compute. lia.
Defined.

(** C4, as the claim states it, fails: a descriptor kind that is none of
    the supported ones selects the Hamming norm, and the matcher runs
    with it. *)
Lemma norm_of_unknown_kind_is_hamming :
  ("SURF" ∉ allDescriptorTypes)
  ∧ isBinaryDescriptor "SURF" = true
  ∧ normTypeOf "SURF" = cv.NORM_HAMMING
  ∧ createMatcher "SURF" "MAT_BF" = Ok (cv.BFMatcher cv.NORM_HAMMING false)
  ∧ ∃ matches,
      @matchDescriptors (Toy.vision []) [] [] Toy.queryDescriptors Toy.refDescriptors []
                        "SURF" "MAT_BF" "SEL_NN" = Ok matches.
Proof.
  split; [|repeat split].
  - unfold allDescriptorTypes. rewrite !elem_of_cons, elem_of_nil.
    intros H. decompose [or] H; discriminate || contradiction.
  - eexists. vm_compute. reflexivity.
Qed.

(** C4, amended.  The norm is a total function of the descriptor name:
    SIFT selects L2 and every other name, supported or not, selects
    Hamming; in particular the five binary kinds select Hamming.  The
    matcher is built with that norm (brute force) or with the index
    that fits it (FLANN), and the descriptor name never makes the
    construction fail. *)
Theorem norm_selection_total (descriptorType : string) :
  (normTypeOf descriptorType
     = if bool_decide (descriptorType = "SIFT") then cv.NORM_L2 else cv.NORM_HAMMING)
  ∧ (createMatcher descriptorType "MAT_BF"
       = Ok (cv.BFMatcher (normTypeOf descriptorType) false))
  ∧ (createMatcher descriptorType "MAT_FLANN"
       = Ok (match normTypeOf descriptorType with
             | cv.NORM_HAMMING => cv.FlannLsh 12 20 2
             | cv.NORM_L2 => cv.FLANNBASED
             end))
  ∧ Forall (λ d, normTypeOf d = cv.NORM_HAMMING) ["BRISK"; "ORB"; "AKAZE"; "BRIEF"; "FREAK"]
  ∧ normTypeOf "SIFT" = cv.NORM_L2.
Proof.
  split; [|split; [|split; [|split]]].
  - unfold normTypeOf, isBinaryDescriptor.
    case_bool_decide as Hd.
    + subst. reflexivity.
    + apply String.eqb_neq in Hd. rewrite Hd. reflexivity.
  - unfold createMatcher, normTypeOf. cbn.
    destruct (isBinaryDescriptor descriptorType); reflexivity.
  - unfold createMatcher, normTypeOf. cbn.
    destruct (isBinaryDescriptor descriptorType); reflexivity.
  - repeat constructor.
  - reflexivity.
Qed.

(** ** The ROI filter *)

Section RoiFilter.
Context `{V : VisionLibrary}.

Lemma eraseOutsideROI_filter (keypoints : list cv.KeyPoint) :
  eraseOutsideROI keypoints
  = filter (λ kp, Rect_contains kVehicleROI (cv.pt kp) = true) keypoints.
Proof.
  unfold eraseOutsideROI, remove_if.
  apply list_filter_iff. intros kp.
  destruct (Rect_contains kVehicleROI (cv.pt kp)); simpl; intuition discriminate.
Qed.

Lemma filter_twice {A} (P : A → Prop) `{∀ a, Decision (P a)} (l : list A) :
  filter P (filter P l) = filter P l.
Proof.
  induction l as [|a l IH]; [reflexivity|].
  rewrite filter_cons. destruct (decide (P a)) as [Ha|Ha].
  - rewrite filter_cons_True by exact Ha. rewrite IH. reflexivity.
  - exact IH.
Qed.

(** C6.  The ROI filter returns a subsequence of its argument (nothing
    new, nothing repeated that was not repeated, order kept), made of
    exactly the keypoints whose location the rectangle contains; it is
    idempotent; and [detectAndFilterKeypoints] applies it to the
    detector's result when the ROI toggle is set and returns the
    detector's result unchanged when it is not. *)
Theorem roi_filter_subset_idempotent (keypoints : list cv.KeyPoint)
    (img : Mat) (detectorType : string) :
  eraseOutsideROI keypoints `sublist_of` keypoints
  ∧ (∀ kp, kp ∈ eraseOutsideROI keypoints
           ↔ kp ∈ keypoints ∧ Rect_contains kVehicleROI (cv.pt kp) = true)
  ∧ (NoDup keypoints → NoDup (eraseOutsideROI keypoints))
  ∧ eraseOutsideROI (eraseOutsideROI keypoints) = eraseOutsideROI keypoints
  ∧ detectAndFilterKeypoints img detectorType keypoints true
    = (detected ← detKeypoints keypoints img detectorType; Ok (eraseOutsideROI detected))
  ∧ detectAndFilterKeypoints img detectorType keypoints false
    = detKeypoints keypoints img detectorType.
Proof.
  split; [|split; [|split; [|split; [|split]]]].
  - rewrite eraseOutsideROI_filter. apply sublist_filter.
  - intros kp. rewrite eraseOutsideROI_filter, list_elem_of_filter. tauto.
  - intros Hnd. rewrite eraseOutsideROI_filter. apply NoDup_filter, Hnd.
  - rewrite !eraseOutsideROI_filter. apply filter_twice.
  - unfold detectAndFilterKeypoints.
    destruct (detKeypoints keypoints img detectorType); reflexivity.
  - unfold detectAndFilterKeypoints.
    destruct (detKeypoints keypoints img detectorType); reflexivity.
Qed.

End RoiFilter.

(** On the executable library: of four features, the one at (100, 100)
    is dropped, and filtering again changes nothing. *)
Example roi_filter_toy :
  let V := Toy.vision [] in
  let detected := imap Toy.keypointOfRow (Toy.frame 0) in
  cv.class_id <$> eraseOutsideROI detected = [0; 1; 3]
  ∧ eraseOutsideROI (eraseOutsideROI detected) = eraseOutsideROI detected.
Proof. split; vm_compute; reflexivity. Qed.

(** ** The ring buffer *)

Lemma to_int_small (z : Z) : -2 ^ 31 ≤ z < 2 ^ 31 → to_int z = z.
Proof.
  intros Hz. unfold to_int.
  rewrite Z.mod_small by lia. lia.
Qed.

Lemma to_size_t_small (z : Z) : 0 ≤ z < 2 ^ 64 → to_size_t z = z.
Proof. intros Hz. unfold to_size_t. apply Z.mod_small. lia. Qed.

Lemma back_snoc {A} (d : list A) (a : A) : back (d ++ [a]) = Ok a.
Proof. unfold back. rewrite last_snoc. reflexivity. Qed.

Lemma modify_back_snoc {A} (f : A → A) (d : list A) (a : A) :
  modify_back f (d ++ [a]) = Ok (d ++ [f a]).
Proof. unfold modify_back. rewrite last_snoc, removelast_last. reflexivity. Qed.

Lemma previous_snoc2 {A} (d : list A) (a b : A) : previous (d ++ [a; b]) = Some a.
Proof.
  unfold previous. change [a; b] with ([a] ++ [b]).
  rewrite app_assoc, removelast_last, last_snoc. reflexivity.
Qed.

Lemma at_previous {A} (d : list A) (a b : A) :
  (Z.of_nat (length (d ++ [a; b])) < 2 ^ 64) →
  at_ (d ++ [a; b]) (to_size_t (Z.of_nat (length (d ++ [a; b])) - 2)) = Ok a.
Proof.
  rewrite length_app. simpl length. intros Hlen.
  rewrite to_size_t_small by lia. unfold at_.
  destruct (Z.ltb_spec (Z.of_nat (length d + 2) - 2) 0) as [?|_]; [lia|].
  replace (Z.to_nat (Z.of_nat (length d + 2) - 2)) with (length d + 0)%nat by lia.
  rewrite lookup_app_r by lia.
  replace (length d + 0 - length d)%nat with 0%nat by lia. reflexivity.
Qed.

(** [bufferPush] fails only by [pop_front] on an empty deque, which takes
    capacity 0. *)
Lemma bufferPush_retained {A} (dataBufferSize : Z) (dataBuffer : list A) (frame : A) :
  dataBufferSize ≠ 0 →
  bufferPush dataBufferSize dataBuffer frame
  = Ok (retained dataBufferSize dataBuffer ++ [frame]).
Proof.
  intros Hcap. unfold bufferPush, retained.
  destruct (to_int (Z.of_nat (length dataBuffer)) =? dataBufferSize) eqn:Hfull.
  - destruct dataBuffer as [|f0 d]; [|reflexivity].
    apply Z.eqb_eq in Hfull. simpl in Hfull. vm_compute in Hfull. congruence.
  - reflexivity.
Qed.

Lemma bufferPush_Ok {A} (dataBufferSize : Z) (dataBuffer dataBuffer' : list A) (frame : A) :
  bufferPush dataBufferSize dataBuffer frame = Ok dataBuffer' →
  dataBuffer' = retained dataBufferSize dataBuffer ++ [frame].
Proof.
  unfold bufferPush, retained.
  destruct (to_int (Z.of_nat (length dataBuffer)) =? dataBufferSize).
  - destruct dataBuffer as [|f0 d]; simpl; [discriminate|]. intros [= <-]. reflexivity.
  - simpl. intros [= <-]. reflexivity.
Qed.

Lemma retained_length {A} (dataBufferSize : Z) (dataBuffer : list A) :
  1 ≤ dataBufferSize < 2 ^ 31 →
  Z.of_nat (length dataBuffer) ≤ dataBufferSize →
  Z.of_nat (length (retained dataBufferSize dataBuffer)) ≤ dataBufferSize - 1.
Proof.
  intros Hcap Hlen. unfold retained.
  rewrite to_int_small by lia.
  destruct (Z.eqb_spec (Z.of_nat (length dataBuffer)) dataBufferSize) as [Hfull|Hnot].
  - destruct dataBuffer as [|f0 d]; simpl in *; lia.
  - lia.
Qed.

(** ** The loop body *)

Section LoopBody.
Context `{V : VisionLibrary}.
Variables (detectorType descriptorType matcherType selectorType : string).
Variables (imgBasePath imgPrefix imgFileType : string).
Variables (imgStartIndex imgEndIndex imgFillWidth dataBufferSize : Z).
Variables (bFocusOnVehicle bSaveImages : bool).

Local Abbreviation thePath := (imgPath imgBasePath imgPrefix imgFileType imgStartIndex imgFillWidth).
Local Abbreviation theLoad :=
  (loadDetectDescribe detectorType descriptorType imgBasePath imgPrefix imgFileType
                      imgStartIndex imgFillWidth dataBufferSize bFocusOnVehicle).
Local Abbreviation theMatch :=
  (matchLatest detectorType descriptorType matcherType selectorType bSaveImages).
Local Abbreviation theBody :=
  (processImage detectorType descriptorType matcherType selectorType
                imgBasePath imgPrefix imgFileType imgStartIndex imgFillWidth
                dataBufferSize bFocusOnVehicle bSaveImages).

Lemma loadDetectDescribe_Ok (dataBuffer dataBuffer' : list DataFrame) (imgIndex : Z)
    (w w' : World) :
  theLoad dataBuffer imgIndex w = (w', Ok dataBuffer') →
  ∃ img kps kps' descs,
    loadGrayscaleImage (thePath imgIndex) = Ok img
    ∧ detectAndFilterKeypoints img detectorType [] bFocusOnVehicle = Ok kps
    ∧ descKeypoints kps img Mat_new descriptorType = Ok (kps', descs)
    ∧ dataBuffer' = retained dataBufferSize dataBuffer ++ [describedFrame img kps' descs]
    ∧ w' = (write_keypointLog (keypointStatsRow imgIndex detectorType kps) w).1.
Proof.
  unfold loadDetectDescribe, logKeypointStats.
  cbv beta iota delta [mbind IO_bind liftO].
  destruct (loadGrayscaleImage _) as [img| |] eqn:Himg; try discriminate.
  destruct (bufferPush _ _ _) as [pushed| |] eqn:Hpush; try discriminate.
  apply bufferPush_Ok in Hpush. subst pushed.
  rewrite back_snoc. cbn [cameraImg set_cameraImg].
  destruct (detectAndFilterKeypoints _ _ _ _) as [kps| |] eqn:Hdet; try discriminate.
  cbn [write_keypointLog].
  rewrite modify_back_snoc, back_snoc.
  cbn [keypoints cameraImg set_keypoints set_cameraImg DataFrame_new].
  destruct (descKeypoints _ _ _ _) as [[kps' descs]| |] eqn:Hdesc; try discriminate.
  rewrite modify_back_snoc, modify_back_snoc.
  intros [= <- <-].
  exists img, kps, kps', descs. repeat split; assumption || reflexivity.
Qed.

(** Whatever the outcome, once the image is loaded and the detector has
    returned, the keypoint row is in the log and nothing else is
    written by steps 1 to 4. *)
Lemma loadDetectDescribe_logs (dataBuffer : list DataFrame) (imgIndex : Z) (w : World)
    (img : Mat) (kps : list cv.KeyPoint) :
  dataBufferSize ≠ 0 →
  loadGrayscaleImage (thePath imgIndex) = Ok img →
  detectAndFilterKeypoints img detectorType [] bFocusOnVehicle = Ok kps →
  (theLoad dataBuffer imgIndex w).1
  = (write_keypointLog (keypointStatsRow imgIndex detectorType kps) w).1.
Proof.
  intros Hcap Himg Hdet.
  unfold loadDetectDescribe, logKeypointStats.
  cbv beta iota delta [mbind IO_bind liftO].
  rewrite Himg, (bufferPush_retained _ _ _ Hcap), back_snoc.
  cbn [cameraImg set_cameraImg]. rewrite Hdet.
  cbn [write_keypointLog].
  rewrite modify_back_snoc, back_snoc.
  cbn [keypoints cameraImg set_keypoints set_cameraImg DataFrame_new].
  destruct (descKeypoints _ _ _ _) as [[kps' descs]| |]; try reflexivity.
  rewrite modify_back_snoc, modify_back_snoc. reflexivity.
Qed.

(** Steps 5 and 6 leave the keypoint log and the error stream alone. *)
Lemma matchLatest_keypointLog (dataBuffer : list DataFrame) (imgIndex : Z) (w : World) :
  keypointLog (theMatch dataBuffer imgIndex w).1 = keypointLog w
  ∧ cerr (theMatch dataBuffer imgIndex w).1 = cerr w.
Proof.
  unfold matchLatest.
  destruct (_ >? 1); [|split; reflexivity].
  cbv beta iota delta [mbind IO_bind liftO mret IO_ret].
  destruct (at_ _ _) as [prev| |]; try (split; reflexivity).
  destruct (back _) as [cur| |]; try (split; reflexivity).
  destruct (matchDescriptors _ _ _ _ _ _ _ _) as [matches| |]; try (split; reflexivity).
  destruct (modify_back _ _) as [dataBuffer'| |]; try (split; reflexivity).
  cbn [write_matchLog].
  destruct bSaveImages; [|split; reflexivity].
  destruct (drawMatches _ _ _ _ _) as [matchImg| |]; try (split; reflexivity).
  unfold write_image.
  destruct (imwrite _ _) as [[|]| |]; split; reflexivity.
Qed.

(** With a single frame nothing is matched. *)
Lemma matchLatest_single (cur : DataFrame) (imgIndex : Z) (w : World) :
  theMatch [cur] imgIndex w = (w, Ok [cur]).
Proof. reflexivity. Qed.

(** With two frames or more, the matcher is called on the last but one
    and the last, and the match row counts what it returned. *)
Lemma matchLatest_Ok (d : list DataFrame) (prev cur : DataFrame) (imgIndex : Z)
    (w w' : World) (dataBuffer' : list DataFrame) :
  Z.of_nat (length (d ++ [prev; cur])) < 2 ^ 31 →
  theMatch (d ++ [prev; cur]) imgIndex w = (w', Ok dataBuffer') →
  ∃ matches,
    matchDescriptors (keypoints prev) (keypoints cur) (descriptors prev) (descriptors cur)
                     [] descriptorType matcherType selectorType = Ok matches
    ∧ dataBuffer' = d ++ [prev; set_kptMatches matches cur]
    ∧ matchLog w' = matchLog w ++ [MatchRow imgIndex detectorType descriptorType (length matches)].
Proof.
  intros Hlen. unfold matchLatest.
  rewrite to_int_small by lia.
  destruct (Z.gtb_spec (Z.of_nat (length (d ++ [prev; cur]))) 1) as [_|Hle].
  2:{ rewrite length_app in Hle. simpl in Hle. lia. }
  cbv beta iota delta [mbind IO_bind liftO mret IO_ret].
  rewrite at_previous by lia.
  change (d ++ [prev; cur]) with (d ++ [prev] ++ [cur]).
  rewrite app_assoc, back_snoc.
  destruct (matchDescriptors _ _ _ _ _ _ _ _) as [matches| |]; try discriminate.
  rewrite modify_back_snoc. cbn [write_matchLog].
  destruct bSaveImages.
  - destruct (drawMatches _ _ _ _ _) as [matchImg| |]; try discriminate.
    unfold write_image.
    destruct (imwrite _ _) as [[|]| |]; try discriminate;
      intros [= <- <-]; exists matches; rewrite <- app_assoc; repeat split; reflexivity.
  - intros [= <- <-]. exists matches. rewrite <- app_assoc. repeat split; reflexivity.
Qed.

(** *** Nothing written is lost *)

Lemma keeps_refl (w : World) : keeps w w.
Proof. repeat split; reflexivity. Qed.

Lemma keeps_trans (w1 w2 w3 : World) : keeps w1 w2 → keeps w2 w3 → keeps w1 w3.
Proof.
  intros (Hk & Hm & Hi & He) (Hk' & Hm' & Hi' & He').
  repeat split; etransitivity; eassumption.
Qed.

Lemma appendOnly_ret {A} (a : A) : appendOnly (mret a).
Proof. intros w. apply keeps_refl. Qed.

Lemma appendOnly_liftO {A} (r : outcome A) : appendOnly (liftO r).
Proof. intros w. apply keeps_refl. Qed.

Lemma appendOnly_bind {A B} (m : IO A) (f : A → IO B) :
  appendOnly m → (∀ a, appendOnly (f a)) → appendOnly (m ≫= f).
Proof.
  intros Hm Hf w. specialize (Hm w).
  unfold mbind, IO_bind.
  destruct (m w) as [w1 [a|e|]]; simpl in *; try exact Hm.
  eapply keeps_trans; [exact Hm | apply Hf].
Qed.

Lemma appendOnly_write_keypointLog (l : KeypointLine) : appendOnly (write_keypointLog l).
Proof. intros w. repeat split; simpl; reflexivity || apply prefix_app_r; reflexivity. Qed.

Lemma appendOnly_write_matchLog (l : MatchLine) : appendOnly (write_matchLog l).
Proof. intros w. repeat split; simpl; reflexivity || apply prefix_app_r; reflexivity. Qed.

Lemma appendOnly_write_cerr (s : string) : appendOnly (write_cerr s).
Proof. intros w. repeat split; simpl; reflexivity || apply prefix_app_r; reflexivity. Qed.

Lemma appendOnly_write_image (path : string) (img : Mat) : appendOnly (write_image path img).
Proof.
  intros w. unfold write_image.
  destruct (imwrite path img) as [[|]| |]; try apply keeps_refl.
  repeat split; simpl; reflexivity || apply prefix_app_r; reflexivity.
Qed.

Lemma appendOnly_try_catch (body : IO unit) (handler : exn → IO unit) :
  appendOnly body → (∀ e, appendOnly (handler e)) → appendOnly (try_catch body handler).
Proof.
  intros Hb Hh w. specialize (Hb w). unfold try_catch.
  destruct (body w) as [w1 [[]|e|]]; simpl in *; try exact Hb.
  eapply keeps_trans; [exact Hb | apply Hh].
Qed.

Lemma appendOnly_for_each {A} (l : list A) (body : A → IO unit) :
  (∀ a, appendOnly (body a)) → appendOnly (for_each l body).
Proof.
  intros Hb. induction l as [|a l IH]; simpl.
  - apply appendOnly_ret.
  - apply appendOnly_bind; [apply Hb | intros _; exact IH].
Qed.

Lemma appendOnly_loadDetectDescribe (dataBuffer : list DataFrame) (imgIndex : Z) :
  appendOnly (theLoad dataBuffer imgIndex).
Proof.
  unfold loadDetectDescribe, logKeypointStats.
  repeat first
    [ apply appendOnly_liftO
    | apply appendOnly_write_keypointLog
    | apply appendOnly_bind; [|intros ?]
    | match goal with |- appendOnly (let '(_, _) := ?p in _) => destruct p end ].
Qed.

Lemma appendOnly_matchLatest (dataBuffer : list DataFrame) (imgIndex : Z) :
  appendOnly (theMatch dataBuffer imgIndex).
Proof.
  unfold matchLatest.
  destruct (_ >? 1); [|apply appendOnly_ret].
  repeat first
    [ apply appendOnly_liftO
    | apply appendOnly_ret
    | apply appendOnly_write_matchLog
    | apply appendOnly_write_image
    | apply appendOnly_bind; [|intros ?]
    | match goal with |- appendOnly (if ?b then _ else _) => destruct b end ].
Qed.

Lemma appendOnly_processImage (dataBuffer : list DataFrame) (imgIndex : Z) :
  appendOnly (theBody dataBuffer imgIndex).
Proof.
  unfold processImage. apply appendOnly_bind.
  - apply appendOnly_loadDetectDescribe.
  - intros d. apply appendOnly_matchLatest.
Qed.

(** *** The buffer across pushes *)

Lemma retained_drop {A} (dataBuffer : list A) :
  1 ≤ dataBufferSize < 2 ^ 31 →
  Z.of_nat (length dataBuffer) ≤ dataBufferSize →
  retained dataBufferSize dataBuffer
  = drop (length dataBuffer + 1 - Z.to_nat dataBufferSize) dataBuffer.
Proof.
  intros Hcap Hlen. unfold retained. rewrite to_int_small by lia.
  destruct (Z.eqb_spec (Z.of_nat (length dataBuffer)) dataBufferSize) as [Hfull|Hnot].
  - replace (length dataBuffer + 1 - Z.to_nat dataBufferSize)%nat with 1%nat by lia.
    destruct dataBuffer; reflexivity.
  - replace (length dataBuffer + 1 - Z.to_nat dataBufferSize)%nat with 0%nat by lia.
    reflexivity.
Qed.

Lemma retained_latest {A} (dataBuffer : list A) (prev : A) :
  2 ≤ dataBufferSize < 2 ^ 31 →
  Z.of_nat (length dataBuffer) ≤ dataBufferSize →
  latest dataBuffer = Some prev →
  ∃ d, retained dataBufferSize dataBuffer = d ++ [prev].
Proof.
  intros Hcap Hlen Hlast. apply last_Some in Hlast as [b ->].
  unfold retained. rewrite to_int_small by lia.
  destruct (Z.eqb_spec (Z.of_nat (length (b ++ [prev]))) dataBufferSize) as [Hfull|Hnot].
  - destruct b as [|f0 b]; simpl in *; [lia|]. exists b. reflexivity.
  - exists b. reflexivity.
Qed.

Lemma pushFrames_drop {A} (frames dataBuffer : list A) :
  1 ≤ dataBufferSize < 2 ^ 31 →
  Z.of_nat (length dataBuffer) ≤ dataBufferSize →
  pushFrames dataBufferSize dataBuffer frames
  = Ok (drop (length (dataBuffer ++ frames) - Z.to_nat dataBufferSize) (dataBuffer ++ frames)).
Proof.
  intros Hcap. revert dataBuffer.
  induction frames as [|frame frames IH]; intros dataBuffer Hlen.
  - rewrite app_nil_r.
    replace (length dataBuffer - Z.to_nat dataBufferSize)%nat with 0%nat by lia.
    reflexivity.
  - unfold pushFrames. cbn [foldl mbind outcome_bind].
    rewrite bufferPush_retained by lia.
    fold (pushFrames dataBufferSize (retained dataBufferSize dataBuffer ++ [frame]) frames).
    pose proof (retained_length dataBufferSize dataBuffer ltac:(lia) Hlen) as Hret.
    rewrite IH by (rewrite length_app; simpl; lia).
    f_equal. rewrite retained_drop by assumption.
    rewrite <- app_assoc. cbn [app].
    set (k := (length dataBuffer + 1 - Z.to_nat dataBufferSize)%nat).
    assert (Hk : (k ≤ length dataBuffer)%nat) by lia.
    rewrite <- (drop_app_le dataBuffer (frame :: frames) k Hk).
    rewrite drop_drop. f_equal.
    rewrite length_drop, !length_app. simpl. lia.
Qed.

(** *** One image *)

(** A successful pass of the loop body: the image was loaded, detected
    and described, its keypoint row logged, and the new frame matched
    against the frame that was the latest before the push. *)
Lemma processImage_Ok (dataBuffer dataBuffer' : list DataFrame) (imgIndex : Z)
    (w w' : World) :
  2 ≤ dataBufferSize < 2 ^ 31 →
  Z.of_nat (length dataBuffer) ≤ dataBufferSize →
  theBody dataBuffer imgIndex w = (w', Ok dataBuffer') →
  ∃ img kps kps' descs,
    loadGrayscaleImage (thePath imgIndex) = Ok img
    ∧ detectAndFilterKeypoints img detectorType [] bFocusOnVehicle = Ok kps
    ∧ descKeypoints kps img Mat_new descriptorType = Ok (kps', descs)
    ∧ keypointLog w' = keypointLog w ++ [keypointStatsRow imgIndex detectorType kps]
    ∧ cerr w' = cerr w
    ∧ match latest dataBuffer with
      | None =>
          dataBuffer' = [describedFrame img kps' descs] ∧ matchLog w' = matchLog w
      | Some prev =>
          ∃ matches,
            matchDescriptors (keypoints prev) kps' (descriptors prev) descs []
                             descriptorType matcherType selectorType = Ok matches
            ∧ dataBuffer' = retained dataBufferSize dataBuffer
                            ++ [set_kptMatches matches (describedFrame img kps' descs)]
            ∧ previous dataBuffer' = Some prev
            ∧ matchLog w'
              = matchLog w ++ [MatchRow imgIndex detectorType descriptorType (length matches)]
      end.
Proof.
  intros Hcap Hlen. unfold processImage.
  cbv beta iota delta [mbind IO_bind].
  destruct (theLoad dataBuffer imgIndex w) as [w1 [d1| |]] eqn:Hload; try discriminate.
  intros Hmatch.
  apply loadDetectDescribe_Ok in Hload as (img & kps & kps' & descs & Himg & Hdet & Hdesc & -> & ->).
  exists img, kps, kps', descs.
  destruct (matchLatest_keypointLog
              (retained dataBufferSize dataBuffer ++ [describedFrame img kps' descs])
              imgIndex (write_keypointLog (keypointStatsRow imgIndex detectorType kps) w).1)
    as [Hklog Hcerr].
  rewrite Hmatch in Hklog, Hcerr. simpl in Hklog, Hcerr.
  do 5 (split; [assumption|]).
  destruct (latest dataBuffer) as [prev|] eqn:Hlatest.
  - destruct (retained_latest dataBuffer prev Hcap Hlen Hlatest) as [d Hd].
    pose proof (retained_length dataBufferSize dataBuffer ltac:(lia) Hlen) as Hret.
    rewrite Hd in Hmatch, Hret |- *. rewrite <- app_assoc in Hmatch. cbn [app] in Hmatch.
    apply matchLatest_Ok in Hmatch as (matches & Hm & -> & Hlog).
    + exists matches. split; [exact Hm|]. split.
      * rewrite <- app_assoc. reflexivity.
      * split; [apply previous_snoc2 | exact Hlog].
    + rewrite length_app in Hret |- *. simpl in *. lia.
  - apply last_None in Hlatest. subst dataBuffer.
    assert (Hret : retained dataBufferSize (@nil DataFrame) = []).
    { unfold retained. destruct (_ =? _); reflexivity. }
    rewrite Hret in Hmatch. simpl in Hmatch.
    rewrite matchLatest_single in Hmatch. injection Hmatch as <- <-.
    split; reflexivity.
Qed.

(** C2.  With a capacity between 1 and [INT_MAX], pushing a frame into
    a buffer within its capacity succeeds and leaves between 0 and
    [dataBufferSize] frames, the pushed one last; a full buffer loses its
    oldest frame first, any other buffer loses none; after any sequence
    of pushes the buffer holds the last [dataBufferSize] frames pushed.
    With capacity 2, after F1, F2, F3 the buffer is [F2; F3]: F2 is the
    previous frame, F3 the latest, and both are what the indices used
    for matching read.  With capacity 2 or more, each pass of the loop
    body calls the matcher on the frame that was the latest before the
    push and on the new frame, which are the last two in the buffer
    afterwards. *)
Theorem frame_buffer_holds_latest (dataBuffer frames : list DataFrame)
    (frame F1 F2 F3 : DataFrame) (imgIndex : Z) (w : World) :
  1 ≤ dataBufferSize < 2 ^ 31 →
  Z.of_nat (length dataBuffer) ≤ dataBufferSize →
  (∃ dataBuffer',
     bufferPush dataBufferSize dataBuffer frame = Ok dataBuffer'
     ∧ 0 ≤ Z.of_nat (length dataBuffer') ≤ dataBufferSize
     ∧ latest dataBuffer' = Some frame
     ∧ (Z.of_nat (length dataBuffer) = dataBufferSize →
        dataBuffer' = tail dataBuffer ++ [frame])
     ∧ (Z.of_nat (length dataBuffer) < dataBufferSize →
        dataBuffer' = dataBuffer ++ [frame]))
  ∧ (∃ dataBuffer',
       pushFrames dataBufferSize dataBuffer frames = Ok dataBuffer'
       ∧ 0 ≤ Z.of_nat (length dataBuffer') ≤ dataBufferSize
       ∧ dataBuffer' = drop (length (dataBuffer ++ frames) - Z.to_nat dataBufferSize)
                            (dataBuffer ++ frames))
  ∧ (pushFrames 2 [] [F1; F2; F3] = Ok [F2; F3]
     ∧ previous [F2; F3] = Some F2
     ∧ latest [F2; F3] = Some F3
     ∧ at_ [F2; F3] (to_size_t (Z.of_nat (length [F2; F3]) - 2)) = Ok F2
     ∧ back [F2; F3] = Ok F3)
  ∧ (2 ≤ dataBufferSize →
     ∀ w' dataBuffer',
       theBody dataBuffer imgIndex w = (w', Ok dataBuffer') →
       Z.of_nat (length dataBuffer') ≤ dataBufferSize
       ∧ match latest dataBuffer with
         | None => matchLog w' = matchLog w
         | Some prev =>
             ∃ cur matches,
               previous dataBuffer' = Some prev
               ∧ latest dataBuffer' = Some (set_kptMatches matches cur)
               ∧ matchDescriptors (keypoints prev) (keypoints cur)
                                  (descriptors prev) (descriptors cur) []
                                  descriptorType matcherType selectorType = Ok matches
               ∧ matchLog w'
                 = matchLog w ++ [MatchRow imgIndex detectorType descriptorType
                                           (length matches)]
         end).
Proof.
  intros Hcap Hlen.
  pose proof (retained_length dataBufferSize dataBuffer Hcap Hlen) as Hret.
  split; [|split; [|split]].
  - exists (retained dataBufferSize dataBuffer ++ [frame]).
    split; [apply bufferPush_retained; lia|].
    split; [rewrite length_app; simpl; lia|].
    split; [apply last_snoc|].
    unfold retained. rewrite to_int_small by lia.
    split; intros Hfull.
    + rewrite (proj2 (Z.eqb_eq _ _) Hfull). reflexivity.
    + rewrite (proj2 (Z.eqb_neq _ _)) by lia. reflexivity.
  - eexists. split; [apply pushFrames_drop; assumption|].
    split; [|reflexivity].
    rewrite length_drop. lia.
  - repeat split; reflexivity.
  - intros Hcap2 w' dataBuffer' Hrun.
    apply processImage_Ok in Hrun
      as (img & kps & kps' & descs & _ & _ & _ & _ & _ & Hcase); [|lia|exact Hlen].
    destruct (latest dataBuffer) as [prev|].
    + destruct Hcase as (matches & Hm & -> & Hprev & Hlog).
      split; [rewrite length_app; simpl; lia|].
      exists (describedFrame img kps' descs), matches.
      split; [exact Hprev|]. split; [apply last_snoc|]. split; [exact Hm | exact Hlog].
    + destruct Hcase as [-> Hlog]. split; [simpl; lia | exact Hlog].
Qed.

(** *** Index alignment *)

Lemma aligned_set_kptMatches (matches : list cv.DMatch) (f : DataFrame) :
  aligned f → aligned (set_kptMatches matches f).
Proof. intros H. exact H. Qed.

Lemma matchLatest_aligned (dataBuffer dataBuffer' : list DataFrame) (imgIndex : Z)
    (w w' : World) :
  Forall aligned dataBuffer →
  theMatch dataBuffer imgIndex w = (w', Ok dataBuffer') →
  Forall aligned dataBuffer'.
Proof.
  intros Hal. unfold matchLatest.
  destruct (_ >? 1); [|intros [= <- <-]; exact Hal].
  cbv beta iota delta [mbind IO_bind liftO mret IO_ret].
  destruct (at_ _ _) as [prev| |]; try discriminate.
  destruct (back _) as [cur| |]; try discriminate.
  destruct (matchDescriptors _ _ _ _ _ _ _ _) as [matches| |]; try discriminate.
  unfold modify_back.
  destruct (last dataBuffer) as [a|] eqn:Hlast; try discriminate.
  apply last_Some in Hlast as [d ->]. rewrite removelast_last.
  apply Forall_app in Hal as [Hd Ha]. rewrite Forall_singleton in Ha.
  assert (Hres : Forall aligned (d ++ [set_kptMatches matches a])).
  { apply Forall_app. split; [exact Hd|]. apply Forall_singleton.
    apply aligned_set_kptMatches, Ha. }
  cbn [write_matchLog].
  destruct bSaveImages.
  - destruct (drawMatches _ _ _ _ _) as [matchImg| |]; try discriminate.
    unfold write_image.
    destruct (imwrite _ _) as [[|]| |]; try discriminate; intros [= <- <-]; exact Hres.
  - intros [= <- <-]. exact Hres.
Qed.

Lemma retained_Forall {A} (P : A → Prop) (cap : Z) (d : list A) :
  Forall P d → Forall P (retained cap d).
Proof.
  intros H. unfold retained. destruct (_ =? _); [|exact H].
  destruct d; [exact H|]. apply Forall_cons in H as [_ H]. exact H.
Qed.

(** C7, amended.  The runner makes no check of its own: after steps 1
    to 4 the latest frame holds the keypoints and the descriptors just
    as the extractor returned them.  So when the extractor returns one
    descriptor row per keypoint it returns, every frame of the buffer is
    aligned before the matching call, and stays aligned after it. *)
Theorem alignment_follows_extractor (dataBuffer dataBuffer1 : list DataFrame)
    (imgIndex : Z) (w w1 : World) :
  (∀ e img kps kps' descs,
     compute e img kps = Ok (kps', descs) → Mat_rows descs = length kps') →
  Forall aligned dataBuffer →
  theLoad dataBuffer imgIndex w = (w1, Ok dataBuffer1) →
  (∃ extractor img kps kps' descs,
     createExtractor descriptorType = Ok extractor
     ∧ compute extractor img kps = Ok (kps', descs)
     ∧ latest dataBuffer1 = Some (describedFrame img kps' descs))
  ∧ Forall aligned dataBuffer1
  ∧ (∀ w2 dataBuffer2,
       theMatch dataBuffer1 imgIndex w1 = (w2, Ok dataBuffer2) →
       Forall aligned dataBuffer2).
Proof.
  intros Hcompute Hal Hload.
  apply loadDetectDescribe_Ok in Hload
    as (img & kps & kps' & descs & _ & _ & Hdesc & -> & _).
  unfold descKeypoints in Hdesc.
  apply outcome_bind_Ok in Hdesc as (extractor & Hext & Hcomp).
  assert (Hal1 : Forall aligned
                   (retained dataBufferSize dataBuffer ++ [describedFrame img kps' descs])).
  { apply Forall_app. split; [apply retained_Forall, Hal|].
    apply Forall_singleton. unfold aligned. simpl. eapply Hcompute, Hcomp. }
  split; [|split].
  - exists extractor, img, kps, kps', descs.
    split; [exact Hext|]. split; [exact Hcomp | apply last_snoc].
  - exact Hal1.
  - intros w2 dataBuffer2 Hmatch. eapply matchLatest_aligned; eassumption.
Qed.

(** *** The keypoint row of an image without keypoints *)

Lemma processImage_logs (dataBuffer : list DataFrame) (imgIndex : Z) (w : World)
    (img : Mat) (kps : list cv.KeyPoint) :
  dataBufferSize ≠ 0 →
  loadGrayscaleImage (thePath imgIndex) = Ok img →
  detectAndFilterKeypoints img detectorType [] bFocusOnVehicle = Ok kps →
  keypointLog (theBody dataBuffer imgIndex w).1
  = keypointLog w ++ [keypointStatsRow imgIndex detectorType kps].
Proof.
  intros Hcap Himg Hdet.
  pose proof (loadDetectDescribe_logs dataBuffer imgIndex w img kps Hcap Himg Hdet) as Hlog.
  unfold processImage. cbv beta iota delta [mbind IO_bind].
  destruct (theLoad dataBuffer imgIndex w) as [w1 [d1| |]]; simpl in Hlog; subst w1;
    try reflexivity.
  rewrite (proj1 (matchLatest_keypointLog d1 imgIndex _)). reflexivity.
Qed.

(** C10.  When an image is loaded and no keypoint is left after the ROI
    filter, the loop body still appends a keypoint row, with count 0 and
    minimum, maximum and mean size 0, whatever happens in the later
    steps. *)
Theorem empty_keypoints_row_logged (dataBuffer : list DataFrame) (imgIndex : Z)
    (w : World) (img : Mat) :
  dataBufferSize ≠ 0 →
  loadGrayscaleImage (thePath imgIndex) = Ok img →
  detectAndFilterKeypoints img detectorType [] bFocusOnVehicle = Ok [] →
  sizeStats [] = (FLT_MAX, fzero, fzero)
  ∧ keypointStatsRow imgIndex detectorType [] =
      KeypointRow imgIndex detectorType 0 fzero fzero fzero
  ∧ keypointLog (theBody dataBuffer imgIndex w).1
    = keypointLog w ++ [KeypointRow imgIndex detectorType 0 fzero fzero fzero].
Proof.
  intros Hcap Himg Hdet.
  split; [reflexivity|]. split; [reflexivity|].
  rewrite (processImage_logs dataBuffer imgIndex w img [] Hcap Himg Hdet).
  reflexivity.
Qed.

(** *** The image loop *)

Local Abbreviation theLoop :=
  (imageLoop detectorType descriptorType matcherType selectorType
             imgBasePath imgPrefix imgFileType imgStartIndex imgFillWidth
             dataBufferSize bFocusOnVehicle bSaveImages).

Lemma keypointStatsRow_index (imgIndex : Z) (det : string) (kps : list cv.KeyPoint) :
  keypointRowIndex (keypointStatsRow imgIndex det kps) = Some imgIndex.
Proof.
  unfold keypointStatsRow. destruct (sizeStats kps) as [[minSz maxSz] meanSz]. reflexivity.
Qed.

(** A pass of the loop body writes at most one keypoint row, for its own
    image, whatever its outcome. *)
Lemma loadDetectDescribe_row (dataBuffer : list DataFrame) (imgIndex : Z) (w : World) :
  keypointLog (theLoad dataBuffer imgIndex w).1 = keypointLog w
  ∨ ∃ kps, keypointLog (theLoad dataBuffer imgIndex w).1
           = keypointLog w ++ [keypointStatsRow imgIndex detectorType kps].
Proof.
  unfold loadDetectDescribe, logKeypointStats.
  cbv beta iota delta [mbind IO_bind liftO].
  destruct (loadGrayscaleImage _) as [img| |]; try (left; reflexivity).
  destruct (bufferPush _ _ _) as [pushed| |]; try (left; reflexivity).
  destruct (back pushed) as [cur| |]; try (left; reflexivity).
  destruct (detectAndFilterKeypoints _ _ _ _) as [kps| |]; try (left; reflexivity).
  right. exists kps. cbn [write_keypointLog].
  destruct (modify_back _ _) as [d1| |]; try reflexivity.
  destruct (back d1) as [cur1| |]; try reflexivity.
  destruct (descKeypoints _ _ _ _) as [[kps' descs]| |]; try reflexivity.
  destruct (modify_back _ _) as [d2| |]; reflexivity.
Qed.

Lemma processImage_row (dataBuffer : list DataFrame) (imgIndex : Z) (w : World) :
  keypointLog (theBody dataBuffer imgIndex w).1 = keypointLog w
  ∨ ∃ kps, keypointLog (theBody dataBuffer imgIndex w).1
           = keypointLog w ++ [keypointStatsRow imgIndex detectorType kps].
Proof.
  pose proof (loadDetectDescribe_row dataBuffer imgIndex w) as Hrow.
  unfold processImage. cbv beta iota delta [mbind IO_bind].
  destruct (theLoad dataBuffer imgIndex w) as [w1 [d1| |]]; simpl in Hrow; try exact Hrow.
  rewrite (proj1 (matchLatest_keypointLog d1 imgIndex w1)). exact Hrow.
Qed.

Lemma processImage_Ok_row (dataBuffer dataBuffer' : list DataFrame) (imgIndex : Z)
    (w w' : World) :
  theBody dataBuffer imgIndex w = (w', Ok dataBuffer') →
  ∃ kps, keypointLog w' = keypointLog w ++ [keypointStatsRow imgIndex detectorType kps].
Proof.
  unfold processImage. cbv beta iota delta [mbind IO_bind].
  destruct (theLoad dataBuffer imgIndex w) as [w1 [d1| |]] eqn:Hload; try discriminate.
  intros Hmatch.
  apply loadDetectDescribe_Ok in Hload as (img & kps & kps' & descs & _ & _ & _ & _ & ->).
  exists kps.
  pose proof (proj1 (matchLatest_keypointLog d1 imgIndex
                       (write_keypointLog (keypointStatsRow imgIndex detectorType kps) w).1))
    as Hlog.
  rewrite Hmatch in Hlog. exact Hlog.
Qed.

Lemma appendOnly_imageLoop (indices : list Z) (dataBuffer : list DataFrame) :
  appendOnly (theLoop indices dataBuffer).
Proof.
  revert dataBuffer. induction indices as [|i rest IH]; intros dataBuffer; simpl.
  - apply appendOnly_ret.
  - apply appendOnly_bind; [apply appendOnly_processImage | intros d; apply IH].
Qed.

(** A loop that runs to its end has written one keypoint row per image,
    in order. *)
Lemma imageLoop_Ok_rows (indices : list Z) (dataBuffer dataBuffer' : list DataFrame)
    (w w' : World) :
  theLoop indices dataBuffer w = (w', Ok dataBuffer') →
  ∃ rows, keypointLog w' = keypointLog w ++ rows
          ∧ keypointRowIndex <$> rows = Some <$> indices.
Proof.
  revert dataBuffer w. induction indices as [|i rest IH]; intros dataBuffer w; simpl.
  - intros [= <- <-]. exists []. rewrite app_nil_r. split; reflexivity.
  - cbv beta iota delta [mbind IO_bind].
    destruct (theBody dataBuffer i w) as [w1 [d1| |]] eqn:Hbody; try discriminate.
    intros Hrest.
    apply processImage_Ok_row in Hbody as [kps Hrow].
    apply IH in Hrest as (rows & Hlog & Hidx).
    exists (keypointStatsRow i detectorType kps :: rows). split.
    + rewrite Hlog, Hrow, <- app_assoc. reflexivity.
    + cbn [fmap list_fmap]. rewrite keypointStatsRow_index. f_equal. exact Hidx.
Qed.

(** A loop that throws did so in the pass for one image, after whole
    passes for the images before it; their keypoint rows are in the log,
    followed at most by the row of the image that failed. *)
Lemma imageLoop_Throw_rows (indices : list Z) (dataBuffer : list DataFrame)
    (w w' : World) (e : exn) :
  theLoop indices dataBuffer w = (w', Throw e) →
  ∃ done imgIndex rest wk dk rows,
    indices = done ++ imgIndex :: rest
    ∧ theLoop done dataBuffer w = (wk, Ok dk)
    ∧ theBody dk imgIndex wk = (w', Throw e)
    ∧ keypointLog w' = keypointLog w ++ rows
    ∧ (keypointRowIndex <$> rows = Some <$> done
       ∨ keypointRowIndex <$> rows = Some <$> (done ++ [imgIndex])).
Proof.
  revert dataBuffer w. induction indices as [|i rest IH]; intros dataBuffer w; simpl.
  - discriminate.
  - cbv beta iota delta [mbind IO_bind].
    destruct (theBody dataBuffer i w) as [w1 [d1|e1|]] eqn:Hbody; try discriminate.
    + intros Hrest.
      apply IH in Hrest
        as (done & j & rest' & wk & dk & rows & -> & Hdone & Hfail & Hlog & Hidx).
      apply processImage_Ok_row in Hbody as Hrow. destruct Hrow as [kps Hrow].
      exists (i :: done), j, rest', wk, dk, (keypointStatsRow i detectorType kps :: rows).
      split; [reflexivity|]. split.
      { simpl. cbv beta iota delta [mbind IO_bind]. rewrite Hbody. exact Hdone. }
      split; [exact Hfail|]. split.
      { rewrite Hlog, Hrow, <- app_assoc. reflexivity. }
      cbn [fmap list_fmap app]. rewrite keypointStatsRow_index.
      destruct Hidx as [Hidx|Hidx]; [left|right]; f_equal; exact Hidx.
    + intros [= <- <-].
      pose proof (processImage_row dataBuffer i w) as Hrow. rewrite Hbody in Hrow.
      simpl in Hrow.
      destruct Hrow as [Hrow|[kps Hrow]].
      * exists [], i, rest, w, dataBuffer, [].
        split; [reflexivity|]. split; [reflexivity|]. split; [exact Hbody|].
        split; [rewrite app_nil_r; exact Hrow | left; reflexivity].
      * exists [], i, rest, w, dataBuffer, [keypointStatsRow i detectorType kps].
        split; [reflexivity|]. split; [reflexivity|]. split; [exact Hbody|].
        split; [exact Hrow|]. right. simpl. rewrite keypointStatsRow_index. reflexivity.
Qed.

(** The loop writes nothing to the error stream. *)
Lemma loadDetectDescribe_cerr (dataBuffer : list DataFrame) (imgIndex : Z) (w : World) :
  cerr (theLoad dataBuffer imgIndex w).1 = cerr w.
Proof.
  unfold loadDetectDescribe, logKeypointStats.
  cbv beta iota delta [mbind IO_bind liftO].
  destruct (loadGrayscaleImage _) as [img| |]; try reflexivity.
  destruct (bufferPush _ _ _) as [pushed| |]; try reflexivity.
  destruct (back pushed) as [cur| |]; try reflexivity.
  destruct (detectAndFilterKeypoints _ _ _ _) as [kps| |]; try reflexivity.
  cbn [write_keypointLog].
  destruct (modify_back _ _) as [d1| |]; try reflexivity.
  destruct (back d1) as [cur1| |]; try reflexivity.
  destruct (descKeypoints _ _ _ _) as [[kps' descs]| |]; try reflexivity.
  destruct (modify_back _ _) as [d2| |]; reflexivity.
Qed.

Lemma processImage_cerr (dataBuffer : list DataFrame) (imgIndex : Z) (w : World) :
  cerr (theBody dataBuffer imgIndex w).1 = cerr w.
Proof.
  pose proof (loadDetectDescribe_cerr dataBuffer imgIndex w) as Hload.
  unfold processImage. cbv beta iota delta [mbind IO_bind].
  destruct (theLoad dataBuffer imgIndex w) as [w1 [d1| |]]; simpl in Hload; try exact Hload.
  rewrite (proj2 (matchLatest_keypointLog d1 imgIndex w1)). exact Hload.
Qed.

Lemma imageLoop_cerr (indices : list Z) (dataBuffer : list DataFrame) (w : World) :
  cerr (theLoop indices dataBuffer w).1 = cerr w.
Proof.
  revert dataBuffer w. induction indices as [|i rest IH]; intros dataBuffer w; simpl.
  - reflexivity.
  - pose proof (processImage_cerr dataBuffer i w) as Hbody.
    cbv beta iota delta [mbind IO_bind].
    destruct (theBody dataBuffer i w) as [w1 [d1| |]]; simpl in Hbody; try exact Hbody.
    rewrite IH. exact Hbody.
Qed.

Lemma keypointStatsRow_detector (imgIndex : Z) (det : string) (kps : list cv.KeyPoint) :
  keypointRowDetector (keypointStatsRow imgIndex det kps) = Some det.
Proof.
  unfold keypointStatsRow. destruct (sizeStats kps) as [[minSz maxSz] meanSz]. reflexivity.
Qed.

(** The keypoint rows of a loop that runs to its end. *)
Lemma imageLoop_Ok_keypoint_rows (indices : list Z) (dataBuffer dataBuffer' : list DataFrame)
    (w w' : World) :
  theLoop indices dataBuffer w = (w', Ok dataBuffer') →
  ∃ rows,
    keypointLog w' = keypointLog w ++ rows
    ∧ keypointRowIndex <$> rows = Some <$> indices
    ∧ Forall (λ r, keypointRowDetector r = Some detectorType) rows.
Proof.
  revert dataBuffer w. induction indices as [|i rest IH]; intros dataBuffer w; simpl.
  - intros [= <- <-]. exists []. rewrite app_nil_r. repeat split; constructor.
  - cbv beta iota delta [mbind IO_bind].
    destruct (theBody dataBuffer i w) as [w1 [d1| |]] eqn:Hbody; try discriminate.
    intros Hrest.
    apply processImage_Ok_row in Hbody as [kps Hrow].
    apply IH in Hrest as (rows & Hlog & Hidx & Hdet).
    exists (keypointStatsRow i detectorType kps :: rows). split; [|split].
    + rewrite Hlog, Hrow, <- app_assoc. reflexivity.
    + cbn [fmap list_fmap]. rewrite keypointStatsRow_index. f_equal. exact Hidx.
    + constructor; [apply keypointStatsRow_detector | exact Hdet].
Qed.

(** The match rows of a loop that runs to its end: one per image, but
    none for the first image of an empty buffer. *)
Lemma imageLoop_Ok_match_rows (indices : list Z) (dataBuffer dataBuffer' : list DataFrame)
    (w w' : World) :
  2 ≤ dataBufferSize < 2 ^ 31 →
  Z.of_nat (length dataBuffer) ≤ dataBufferSize →
  theLoop indices dataBuffer w = (w', Ok dataBuffer') →
  ∃ rows,
    matchLog w' = matchLog w ++ rows
    ∧ matchRowIndex <$> rows
      = Some <$> (match latest dataBuffer with None => tail indices | Some _ => indices end)
    ∧ Forall (λ r, matchRowPairing r = Some (detectorType, descriptorType)) rows.
Proof.
  intros Hcap. revert dataBuffer w.
  induction indices as [|i rest IH]; intros dataBuffer w Hlen; simpl.
  - intros [= <- <-]. exists []. rewrite app_nil_r.
    split; [reflexivity|]. split; [destruct (latest dataBuffer); reflexivity | constructor].
  - cbv beta iota delta [mbind IO_bind].
    destruct (theBody dataBuffer i w) as [w1 [d1| |]] eqn:Hbody; try discriminate.
    intros Hrest.
    apply processImage_Ok in Hbody
      as (img & kps & kps' & descs & _ & _ & _ & _ & _ & Hcase); [|exact Hcap|exact Hlen].
    pose proof (retained_length dataBufferSize dataBuffer ltac:(lia) Hlen) as Hret.
    destruct (latest dataBuffer) as [prev|].
    + destruct Hcase as (matches & _ & -> & _ & Hlog).
      apply IH in Hrest as (rows & Hlog' & Hidx & Hpair);
        [|rewrite length_app; simpl; lia].
      unfold latest in Hidx. rewrite last_snoc in Hidx.
      exists (MatchRow i detectorType descriptorType (length matches) :: rows).
      split; [rewrite Hlog', Hlog, <- app_assoc; reflexivity|].
      split; [cbn; f_equal; exact Hidx|].
      constructor; [reflexivity | exact Hpair].
    + destruct Hcase as [-> Hlog].
      apply IH in Hrest as (rows & Hlog' & Hidx & Hpair); [|simpl; lia].
      exists rows. split; [rewrite Hlog', Hlog; reflexivity|].
      split; [exact Hidx | exact Hpair].
Qed.


(** The loop over a list of images and then another. *)
Lemma imageLoop_app (done rest : list Z) (dataBuffer : list DataFrame) (w : World) :
  theLoop (done ++ rest) dataBuffer w
  = (dataBuffer' ← theLoop done dataBuffer; theLoop rest dataBuffer') w.
Proof.
  revert dataBuffer w. induction done as [|i done IH]; intros dataBuffer w; cbn [app imageLoop].
  - reflexivity.
  - unfold mbind, IO_bind.
    destruct (theBody dataBuffer i w) as [w1 [d1| |]]; [apply IH | reflexivity | reflexivity].
Qed.

(** An image that cannot be loaded ends the pass with nothing written. *)
Lemma processImage_load_throws (dataBuffer : list DataFrame) (imgIndex : Z) (w : World)
    (e : exn) :
  loadGrayscaleImage (thePath imgIndex) = Throw e →
  theBody dataBuffer imgIndex w = (w, Throw e).
Proof.
  intros Himg. unfold processImage, loadDetectDescribe.
  cbv beta iota delta [mbind IO_bind liftO]. rewrite Himg. reflexivity.
Qed.

(** Steps 1 to 4 leave the match log alone. *)
Lemma loadDetectDescribe_matchLog (dataBuffer : list DataFrame) (imgIndex : Z) (w : World) :
  matchLog (theLoad dataBuffer imgIndex w).1 = matchLog w.
Proof.
  unfold loadDetectDescribe, logKeypointStats.
  cbv beta iota delta [mbind IO_bind liftO].
  destruct (loadGrayscaleImage _) as [img| |]; try reflexivity.
  destruct (bufferPush _ _ _) as [pushed| |]; try reflexivity.
  destruct (back pushed) as [cur| |]; try reflexivity.
  destruct (detectAndFilterKeypoints _ _ _ _) as [kps| |]; try reflexivity.
  cbn [write_keypointLog].
  destruct (modify_back _ _) as [d1| |]; try reflexivity.
  destruct (back d1) as [cur1| |]; try reflexivity.
  destruct (descKeypoints _ _ _ _) as [[kps' descs]| |]; try reflexivity.
  destruct (modify_back _ _) as [d2| |]; reflexivity.
Qed.

(** A pass that throws has written no match row, unless it threw while
    saving the match image, after the row. *)
Lemma matchLatest_Throw_matchLog (dataBuffer : list DataFrame) (imgIndex : Z)
    (w w' : World) (e : exn) :
  theMatch dataBuffer imgIndex w = (w', Throw e) →
  matchLog w' = matchLog w
  ∨ (bSaveImages = true
     ∧ ∃ n, matchLog w' = matchLog w ++ [MatchRow imgIndex detectorType descriptorType n]).
Proof.
  unfold matchLatest.
  destruct (_ >? 1); [|discriminate].
  cbv beta iota delta [mbind IO_bind liftO mret IO_ret].
  destruct (at_ _ _) as [prev| |]; [|intros [= <- _]; left; reflexivity|discriminate].
  destruct (back _) as [cur| |]; [|intros [= <- _]; left; reflexivity|discriminate].
  destruct (matchDescriptors _ _ _ _ _ _ _ _) as [matches| |];
    [|intros [= <- _]; left; reflexivity|discriminate].
  destruct (modify_back _ _) as [dataBuffer'| |];
    [|intros [= <- _]; left; reflexivity|discriminate].
  cbn [write_matchLog].
  destruct bSaveImages; [|discriminate].
  destruct (drawMatches _ _ _ _ _) as [matchImg| |];
    [|intros [= <- _]; right; split; [reflexivity|]; exists (length matches); reflexivity
     |discriminate].
  unfold write_image.
  destruct (imwrite _ _) as [[|]| |]; try discriminate.
  intros [= <- _]. right. split; [reflexivity|]. exists (length matches). reflexivity.
Qed.

Lemma processImage_Throw_matchLog (dataBuffer : list DataFrame) (imgIndex : Z)
    (w w' : World) (e : exn) :
  theBody dataBuffer imgIndex w = (w', Throw e) →
  matchLog w' = matchLog w
  ∨ (bSaveImages = true
     ∧ ∃ n, matchLog w' = matchLog w ++ [MatchRow imgIndex detectorType descriptorType n]).
Proof.
  pose proof (loadDetectDescribe_matchLog dataBuffer imgIndex w) as Hload.
  unfold processImage. cbv beta iota delta [mbind IO_bind].
  destruct (theLoad dataBuffer imgIndex w) as [w1 [d1|e1|]]; simpl in Hload.
  - intros Hmatch. apply matchLatest_Throw_matchLog in Hmatch.
    rewrite Hload in Hmatch. exact Hmatch.
  - intros [= <- _]. left. exact Hload.
  - discriminate.
Qed.

End LoopBody.

(** ** Failures inside a combination are exceptions *)

Section Failures.
Context `{V : VisionLibrary}.

Lemma loadGrayscaleImage_missing (path : string) :
  Mat_is_empty (imread path) = true →
  loadGrayscaleImage path
  = Throw (runtime_error ("loadGrayscaleImage: could not open '" +:+ path +:+ "'")).
Proof. intros H. unfold loadGrayscaleImage. rewrite H. reflexivity. Qed.

Lemma detKeypoints_unknown (keypoints : list cv.KeyPoint) (img : Mat) (detectorType : string) :
  detectorType ∉ allDetectorTypes →
  detKeypoints keypoints img detectorType
  = Throw (invalid_argument ("detKeypoints: unknown detectorType '" +:+ detectorType +:+ "'")).
Proof.
  intros H. unfold allDetectorTypes in H. unfold detKeypoints, createDetector.
  names_differ. reflexivity.
Qed.

Lemma descKeypoints_unknown (keypoints : list cv.KeyPoint) (img descriptors : Mat)
    (descriptorType : string) :
  descriptorType ∉ allDescriptorTypes →
  descKeypoints keypoints img descriptors descriptorType
  = Throw (invalid_argument
             ("descKeypoints: unknown descriptorType '" +:+ descriptorType +:+ "'")).
Proof.
  intros H. unfold allDescriptorTypes in H. unfold descKeypoints, createExtractor.
  names_differ. reflexivity.
Qed.

Lemma contrib_missing (keypoints : list cv.KeyPoint) (img descriptors : Mat) :
  HAS_XFEATURES2D = false →
  detKeypoints keypoints img "SIFT"
  = Throw (runtime_error "detKeypoints: SIFT requires opencv-contrib (xfeatures2d).")
  ∧ descKeypoints keypoints img descriptors "SIFT"
    = Throw (runtime_error "descKeypoints: SIFT requires opencv-contrib (xfeatures2d).")
  ∧ descKeypoints keypoints img descriptors "BRIEF"
    = Throw (runtime_error "descKeypoints: BRIEF requires opencv-contrib (xfeatures2d).")
  ∧ descKeypoints keypoints img descriptors "FREAK"
    = Throw (runtime_error "descKeypoints: FREAK requires opencv-contrib (xfeatures2d).").
Proof.
  intros H. unfold detKeypoints, descKeypoints, createDetector, createExtractor.
  cbn. rewrite H. repeat split; reflexivity.
Qed.

Lemma matchDescriptors_unknown_matcher (kPtsSource kPtsRef : list cv.KeyPoint)
    (descSource descRef : Mat) (matches : list cv.DMatch)
    (descriptorType matcherType selectorType : string) :
  matcherType ∉ ["MAT_BF"; "MAT_FLANN"] →
  matchDescriptors kPtsSource kPtsRef descSource descRef matches
                   descriptorType matcherType selectorType
  = Throw (invalid_argument
             ("matchDescriptors: unknown matcherType '" +:+ matcherType +:+ "'")).
Proof.
  intros H. unfold matchDescriptors, createMatcher. names_differ. reflexivity.
Qed.

Lemma matchDescriptors_unknown_selector (kPtsSource kPtsRef : list cv.KeyPoint)
    (descSource descRef : Mat) (matches : list cv.DMatch)
    (descriptorType matcherType selectorType : string) :
  matcherType ∈ ["MAT_BF"; "MAT_FLANN"] →
  selectorType ∉ ["SEL_NN"; "SEL_KNN"] →
  matchDescriptors kPtsSource kPtsRef descSource descRef matches
                   descriptorType matcherType selectorType
  = Throw (invalid_argument
             ("matchDescriptors: unknown selectorType '" +:+ selectorType +:+ "'")).
Proof.
  intros Hm H. unfold matchDescriptors, createMatcher. names_differ.
  rewrite !elem_of_cons, elem_of_nil in Hm.
  destruct Hm as [->|[->|[]]]; cbn; destruct (isBinaryDescriptor descriptorType); reflexivity.
Qed.

End Failures.

(** ** The sweep *)

Section Sweep.
Context `{V : VisionLibrary}.

Lemma IO_bind_ext {A B} (m m' : IO A) (f f' : A → IO B) (w : World) :
  m w = m' w → (∀ a w1, f a w1 = f' a w1) → (m ≫= f) w = (m' ≫= f') w.
Proof.
  intros Hm Hf. unfold mbind, IO_bind. rewrite Hm.
  destruct (m' w) as [w1 [a| |]]; [apply Hf | reflexivity | reflexivity].
Qed.

Lemma for_each_app {A} (l1 l2 : list A) (body : A → IO unit) (w : World) :
  for_each (l1 ++ l2) body w = (_ ← for_each l1 body; for_each l2 body) w.
Proof.
  revert w. induction l1 as [|a l1 IH]; intros w; simpl.
  - reflexivity.
  - unfold mbind, IO_bind.
    destruct (body a w) as [w1 [[]| |]]; [apply IH | reflexivity | reflexivity].
Qed.

Lemma runCombination_Throw (det desc mt st base pre ext : string) (start stop fill cap : Z)
    (focus save : bool) (w w' : World) (e : exn) :
  runCombination det desc mt st base pre ext start stop fill cap focus save w = (w', Throw e)
  ↔ imageLoop det desc mt st base pre ext start fill cap focus save
              (imageIndices start stop) [] w = (w', Throw e).
Proof.
  unfold runCombination, mbind, IO_bind.
  destruct (imageLoop _ _ _ _ _ _ _ _ _ _ _ _ _ _ w) as [w1 [d| |]];
    cbn; split; intros H; try discriminate H; injection H as <- <-; reflexivity.
Qed.

Lemma appendOnly_runCombination (det desc mt st base pre ext : string)
    (start stop fill cap : Z) (focus save : bool) :
  appendOnly (runCombination det desc mt st base pre ext start stop fill cap focus save).
Proof.
  unfold runCombination. apply appendOnly_bind.
  - apply appendOnly_imageLoop.
  - intros d. apply appendOnly_ret.
Qed.

Lemma appendOnly_tryCombination (o : Options) (det desc : string) :
  appendOnly (tryCombination o det desc).
Proof.
  unfold tryCombination. apply appendOnly_try_catch.
  - apply appendOnly_runCombination.
  - intros e. apply appendOnly_write_cerr.
Qed.

Lemma tryCombination_no_throw (o : Options) (det desc : string) (w : World) (e : exn) :
  (tryCombination o det desc w).2 ≠ Throw e.
Proof.
  unfold tryCombination, try_catch.
  destruct (runCombination _ _ _ _ _ _ _ _ _ _ _ _ _ w) as [w1 [[]|e1|]]; discriminate.
Qed.

Lemma for_each_no_throw {A} (l : list A) (body : A → IO unit) :
  (∀ a w e, (body a w).2 ≠ Throw e) → ∀ w e, (for_each l body w).2 ≠ Throw e.
Proof.
  intros Hbody. induction l as [|a l IH]; intros w e; simpl.
  - discriminate.
  - unfold mbind, IO_bind. specialize (Hbody a w).
    destruct (body a w) as [w1 [[]|e1|]]; simpl in *.
    + apply IH.
    + destruct (Hbody e1). reflexivity.
    + discriminate.
Qed.

Lemma sweep_no_throw (o : Options) (dets descs : list string) (w : World) (e : exn) :
  (sweep o dets descs w).2 ≠ Throw e.
Proof.
  unfold sweep. apply for_each_no_throw. intros det.
  apply for_each_no_throw. intros desc w1 e1.
  destruct (skipPairing det desc); [discriminate | apply tryCombination_no_throw].
Qed.

(** The inner loop of [main] for one detector. *)
Local Abbreviation descriptorLoop o det descs :=
  (for_each descs (λ desc, if skipPairing det desc then mret ()
                           else tryCombination o det desc)).

Lemma skipPairing_false (det desc : string) :
  skipPairing det desc = false ↔ ¬ (desc = "AKAZE" ∧ det ≠ "AKAZE").
Proof.
  unfold skipPairing.
  destruct (String.eqb_spec desc "AKAZE") as [Hd|Hd];
    destruct (String.eqb_spec det "AKAZE") as [Ht|Ht]; simpl;
    split; try discriminate; try reflexivity; intros H; tauto.
Qed.

Lemma descriptorLoop_valid (o : Options) (det : string) (descs : list string) (w : World) :
  descriptorLoop o det descs w
  = for_each (filter (λ p, skipPairing p.1 p.2 = false) (pair det <$> descs))
             (λ p, tryCombination o p.1 p.2) w.
Proof.
  revert w. induction descs as [|desc descs IH]; intros w; [reflexivity|].
  cbn [for_each fmap list_fmap]. rewrite filter_cons. cbn [fst snd].
  destruct (skipPairing det desc) eqn:Hskip.
  - rewrite decide_False by discriminate. apply IH.
  - rewrite decide_True by reflexivity. cbn [for_each].
    apply IO_bind_ext; [reflexivity | intros _ w1; apply IH].
Qed.

Lemma list_prod_cons {A B} (a : A) (l : list A) (l' : list B) :
  list_prod (a :: l) l' = (pair a <$> l') ++ list_prod l l'.
Proof. reflexivity. Qed.

Lemma sweep_valid (o : Options) (dets descs : list string) (w : World) :
  sweep o dets descs w
  = for_each (validPairings dets descs) (λ p, tryCombination o p.1 p.2) w.
Proof.
  unfold sweep, validPairings. revert w.
  induction dets as [|det dets IH]; intros w; [reflexivity|].
  rewrite list_prod_cons, filter_app, for_each_app. cbn [for_each].
  apply IO_bind_ext.
  - apply descriptorLoop_valid.
  - intros _ w1. apply IH.
Qed.

(** The sweep from the combination that follows those already run. *)
Lemma sweep_continues (o : Options) (dets descs : list string)
    (before after : list (string * string)) (det desc : string) (w0 w reported : World) :
  validPairings dets descs = before ++ (det, desc) :: after →
  for_each before (λ p, tryCombination o p.1 p.2) w0 = (w, Ok ()) →
  tryCombination o det desc w = (reported, Ok ()) →
  sweep o dets descs w0 = for_each after (λ p, tryCombination o p.1 p.2) reported.
Proof.
  intros Hsplit Hbefore Htry.
  rewrite sweep_valid, Hsplit, for_each_app.
  unfold mbind at 1. unfold IO_bind at 1. rewrite Hbefore.
  cbn [for_each fst snd]. unfold mbind at 1. unfold IO_bind at 1. rewrite Htry.
  reflexivity.
Qed.

(** C3.  When a combination throws, whatever the exception, the [catch]
    of the main loop takes it: the combination ends normally, one line
    naming the detector, the descriptor and the cause is added to the
    error stream, and the logs are as the combination left them.  The
    combination threw in the pass for one image, after whole passes for
    the images before it: the logs hold, after what was there, the
    keypoint row of each of those images, in order, and the match row of
    each of them but the first, followed at most by the keypoint row of
    the image that failed (and by its match row only when the failure
    came from saving the match image); when the failure is an image that
    cannot be loaded, nothing is written for that image.  An image that
    cannot be loaded after images that were processed makes the
    combination end this way, with the rows of those images logged.
    The inner loop goes on with the next descriptor, the sweep and
    [main] go on with the pairings that follow, of this detector and of
    the next ones, and neither a combination nor the sweep ever ends by
    an exception. *)
Theorem combination_failure_isolated (o : Options) (det desc : string)
    (descs : list string) (w w' : World) (e : exn) :
  runCombination det desc (matcherType o) (selectorType o)
                 imgBasePath imgPrefix imgFileType imgStartIndex imgEndIndex
                 imgFillWidth dataBufferSize bFocusOnVehicle (bSaveImages o) w
  = (w', Throw e) →
  ∃ reported,
    tryCombination o det desc w = (reported, Ok ())
    ∧ cerr reported
      = cerr w ++ ["[ERROR] " +:+ det +:+ "+" +:+ desc +:+ ": " +:+ what e +:+ newline]
    ∧ keypointLog reported = keypointLog w'
    ∧ matchLog reported = matchLog w'
    ∧ imageFiles reported = imageFiles w'
    ∧ keeps w w'
    ∧ (∃ done imgIndex rest rows,
         imageIndices imgStartIndex imgEndIndex = done ++ imgIndex :: rest
         ∧ keypointLog w' = keypointLog w ++ rows
         ∧ (keypointRowIndex <$> rows = Some <$> done
            ∨ keypointRowIndex <$> rows = Some <$> (done ++ [imgIndex])))
    ∧ (∃ done imgIndex rest wk dk keypointRows matchRows,
         imageIndices imgStartIndex imgEndIndex = done ++ imgIndex :: rest
         ∧ imageLoop det desc (matcherType o) (selectorType o)
                     imgBasePath imgPrefix imgFileType imgStartIndex imgFillWidth
                     dataBufferSize bFocusOnVehicle (bSaveImages o) done [] w
           = (wk, Ok dk)
         ∧ processImage det desc (matcherType o) (selectorType o)
                        imgBasePath imgPrefix imgFileType imgStartIndex imgFillWidth
                        dataBufferSize bFocusOnVehicle (bSaveImages o) dk imgIndex wk
           = (w', Throw e)
         ∧ keypointLog wk = keypointLog w ++ keypointRows
         ∧ keypointRowIndex <$> keypointRows = Some <$> done
         ∧ Forall (λ r, keypointRowDetector r = Some det) keypointRows
         ∧ matchLog wk = matchLog w ++ matchRows
         ∧ matchRowIndex <$> matchRows = Some <$> tail done
         ∧ Forall (λ r, matchRowPairing r = Some (det, desc)) matchRows
         ∧ keeps wk w'
         ∧ (keypointLog w' = keypointLog wk
            ∨ ∃ kps, keypointLog w'
                     = keypointLog wk ++ [keypointStatsRow imgIndex det kps])
         ∧ (matchLog w' = matchLog wk
            ∨ (bSaveImages o = true
               ∧ ∃ n, matchLog w' = matchLog wk ++ [MatchRow imgIndex det desc n]))
         ∧ (∀ e', loadGrayscaleImage (imgPath imgBasePath imgPrefix imgFileType
                                              imgStartIndex imgFillWidth imgIndex)
                  = Throw e' →
                  w' = wk ∧ e = e'))
    ∧ (∀ w0 done imgIndex rest wk dk,
         imageIndices imgStartIndex imgEndIndex = done ++ imgIndex :: rest →
         imageLoop det desc (matcherType o) (selectorType o)
                   imgBasePath imgPrefix imgFileType imgStartIndex imgFillWidth
                   dataBufferSize bFocusOnVehicle (bSaveImages o) done [] w0
         = (wk, Ok dk) →
         Mat_is_empty (imread (imgPath imgBasePath imgPrefix imgFileType
                                       imgStartIndex imgFillWidth imgIndex)) = true →
         ∃ keypointRows matchRows,
           tryCombination o det desc w0
           = ((write_cerr
                 (errorReport det desc
                    (runtime_error
                       ("loadGrayscaleImage: could not open '"
                        +:+ imgPath imgBasePath imgPrefix imgFileType
                                    imgStartIndex imgFillWidth imgIndex +:+ "'"))) wk).1,
              Ok ())
           ∧ keypointLog wk = keypointLog w0 ++ keypointRows
           ∧ keypointRowIndex <$> keypointRows = Some <$> done
           ∧ matchLog wk = matchLog w0 ++ matchRows
           ∧ matchRowIndex <$> matchRows = Some <$> tail done)
    ∧ (skipPairing det desc = false →
       descriptorLoop o det (desc :: descs) w = descriptorLoop o det descs reported)
    ∧ (∀ dets descs0 before after w0,
         validPairings dets descs0 = before ++ (det, desc) :: after →
         for_each before (λ p, tryCombination o p.1 p.2) w0 = (w, Ok ()) →
         sweep o dets descs0 w0
         = for_each after (λ p, tryCombination o p.1 p.2) reported)
    ∧ (∀ argv before after,
         parseArgs argv defaultOptions = inr o →
         validPairings (detectorTypesOf o) (descriptorTypesOf o)
         = before ++ (det, desc) :: after →
         for_each before (λ p, tryCombination o p.1 p.2)
                  {| keypointLog := [KeypointHeader]; matchLog := [MatchHeader];
                     imageFiles := []; cerr := [] |}
         = (w, Ok ()) →
         main argv
         = (_ ← for_each after (λ p, tryCombination o p.1 p.2); mret 0) reported)
    ∧ (∀ det0 desc0 w0 e0, (tryCombination o det0 desc0 w0).2 ≠ Throw e0)
    ∧ (∀ dets0 descs0 w0 e0, (sweep o dets0 descs0 w0).2 ≠ Throw e0).
Proof.
  intros Hrun.
  exists (write_cerr (errorReport det desc e) w').1.
  assert (Htry : tryCombination o det desc w
                 = ((write_cerr (errorReport det desc e) w').1, Ok ())).
  { unfold tryCombination, try_catch. rewrite Hrun. reflexivity. }
  pose proof (appendOnly_runCombination det desc (matcherType o) (selectorType o)
                imgBasePath imgPrefix imgFileType imgStartIndex imgEndIndex
                imgFillWidth dataBufferSize bFocusOnVehicle (bSaveImages o) w) as Hkeeps.
  rewrite Hrun in Hkeeps. simpl in Hkeeps.
  apply runCombination_Throw in Hrun as Hloop.
  pose proof (imageLoop_cerr det desc (matcherType o) (selectorType o)
                imgBasePath imgPrefix imgFileType imgStartIndex imgFillWidth
                dataBufferSize bFocusOnVehicle (bSaveImages o)
                (imageIndices imgStartIndex imgEndIndex) [] w) as Hcerr.
  rewrite Hloop in Hcerr. simpl in Hcerr.
  apply imageLoop_Throw_rows in Hloop
    as (done & imgIndex & rest & wk & dk & rows & Hidx & Hdone & Hfail & Hlog & Hrows).
  split; [exact Htry|].
  split; [simpl; rewrite Hcerr; reflexivity|].
  do 3 (split; [reflexivity|]).
  split; [exact Hkeeps|].
  split.
  { exists done, imgIndex, rest, rows. repeat split; assumption. }
  split.
  { pose proof Hdone as Hdone'. pose proof Hdone as Hdone''.
    apply imageLoop_Ok_keypoint_rows in Hdone'' as (krows & Hk & Hkidx & Hkdet).
    apply imageLoop_Ok_match_rows in Hdone' as (mrows & Hm & Hmidx & Hmpair);
      [|unfold dataBufferSize; lia|simpl; unfold dataBufferSize; lia].
    cbn [latest last] in Hmidx.
    pose proof (appendOnly_processImage det desc (matcherType o) (selectorType o)
                  imgBasePath imgPrefix imgFileType imgStartIndex imgFillWidth
                  dataBufferSize bFocusOnVehicle (bSaveImages o) dk imgIndex wk) as Hk'.
    rewrite Hfail in Hk'. simpl in Hk'.
    pose proof (processImage_row det desc (matcherType o) (selectorType o)
                  imgBasePath imgPrefix imgFileType imgStartIndex imgFillWidth
                  dataBufferSize bFocusOnVehicle (bSaveImages o) dk imgIndex wk) as Hrow.
    rewrite Hfail in Hrow. simpl in Hrow.
    pose proof (processImage_Throw_matchLog _ _ _ _ _ _ _ _ _ _ _ _ _ _ _ _ _ Hfail)
      as Hmrow.
    exists done, imgIndex, rest, wk, dk, krows, mrows.
    do 10 (split; [assumption|]).
    split; [exact Hrow|]. split; [exact Hmrow|].
    intros e' Himg.
    rewrite (processImage_load_throws _ _ _ _ _ _ _ _ _ _ _ _ _ _ _ e' Himg) in Hfail.
    injection Hfail as <- <-. split; reflexivity. }
  split.
  { intros w0 done0 i0 rest0 wk0 dk0 Hidx0 Hdone0 Hmissing.
    pose proof Hdone0 as Hdone0'. pose proof Hdone0 as Hdone0''.
    apply imageLoop_Ok_keypoint_rows in Hdone0'' as (krows & Hk & Hkidx & _).
    apply imageLoop_Ok_match_rows in Hdone0' as Hm0;
      [|unfold dataBufferSize; lia|simpl; unfold dataBufferSize; lia].
    destruct Hm0 as (mrows & Hm & Hmidx & _).
    cbn [latest last] in Hmidx.
    exists krows, mrows. split; [|repeat split; assumption].
    apply loadGrayscaleImage_missing in Hmissing.
    unfold tryCombination, try_catch, runCombination.
    unfold mbind at 1. unfold IO_bind at 1.
    rewrite Hidx0, imageLoop_app.
    unfold mbind at 1. unfold IO_bind at 1.
    match goal with H : imageLoop _ _ _ _ _ _ _ _ _ _ _ _ done0 [] w0 = _ |- _ =>
      rewrite H end.
    cbn [imageLoop]. unfold mbind at 1. unfold IO_bind at 1.
    rewrite (processImage_load_throws _ _ _ _ _ _ _ _ _ _ _ _ _ _ _ _ Hmissing).
    reflexivity. }
  split.
  { intros Hskip. cbn [for_each]. rewrite Hskip.
    unfold mbind at 1. unfold IO_bind at 1. rewrite Htry. reflexivity. }
  split.
  { intros dets descs0 before after w0 Hsplit Hbefore.
    exact (sweep_continues o dets descs0 before after det desc w0 w _ Hsplit Hbefore Htry). }
  split.
  { intros argv before after Hparse Hsplit Hbefore.
    unfold main. rewrite Hparse.
    cbv beta iota delta [mbind IO_bind mret IO_ret write_keypointLog write_matchLog].
    cbn [keypointLog matchLog imageFiles cerr World_empty app].
    rewrite (sweep_continues o _ _ before after det desc _ w _ Hsplit Hbefore Htry).
    reflexivity. }
  split.
  - intros det0 desc0 w0 e0. apply tryCombination_no_throw.
  - intros dets0 descs0 w0 e0. apply sweep_no_throw.
Qed.


(** C8.  The two nested loops of [main] run the combinations of the
    valid pairings, in order, and no others; a pairing with the AKAZE
    descriptor is valid only with the AKAZE detector, so no combination
    is run with the AKAZE descriptor and another detector.  Of the 42
    pairs of the full sweep, 36 are run. *)
Theorem sweep_runs_valid_pairings (o : Options) (detectorTypes descriptorTypes : list string)
    (w : World) :
  sweep o detectorTypes descriptorTypes w
  = for_each (validPairings detectorTypes descriptorTypes)
             (λ p, tryCombination o p.1 p.2) w
  ∧ Forall (λ p, p.2 = "AKAZE" → p.1 = "AKAZE")
           (validPairings detectorTypes descriptorTypes)
  ∧ (∀ det desc,
       (det, desc) ∈ validPairings detectorTypes descriptorTypes
       ↔ det ∈ detectorTypes ∧ desc ∈ descriptorTypes
         ∧ ¬ (desc = "AKAZE" ∧ det ≠ "AKAZE"))
  ∧ length (list_prod allDetectorTypes allDescriptorTypes) = 42%nat
  ∧ length (validPairings allDetectorTypes allDescriptorTypes) = 36%nat
  ∧ ("AKAZE", "AKAZE") ∈ validPairings allDetectorTypes allDescriptorTypes.
Proof.
  assert (Hmem0 : ∀ dets descs det desc,
             (det, desc) ∈ validPairings dets descs
             ↔ det ∈ dets ∧ desc ∈ descs ∧ ¬ (desc = "AKAZE" ∧ det ≠ "AKAZE")).
  { intros dets descs det desc. unfold validPairings.
    rewrite list_elem_of_filter, list_elem_of_In, in_prod_iff, <- !list_elem_of_In.
    cbn [fst snd]. rewrite skipPairing_false. tauto. }
  pose proof (Hmem0 detectorTypes descriptorTypes) as Hmem.
  split; [|split; [|split; [exact Hmem|]]].
  - clear Hmem Hmem0. unfold sweep, validPairings. revert w.
    induction detectorTypes as [|det dets IH]; intros w; [reflexivity|].
    rewrite list_prod_cons, filter_app, for_each_app. cbn [for_each].
    apply IO_bind_ext.
    + apply descriptorLoop_valid.
    + intros _ w1. apply IH.
  - apply Forall_forall. intros [det desc] Hin Hdesc. cbn [fst snd] in *.
    apply Hmem in Hin as (_ & _ & Hok).
    destruct (String.eqb_spec det "AKAZE") as [Hdet|Hdet]; [exact Hdet|].
    destruct Hok. split; assumption.
  - split; [reflexivity|]. split; [reflexivity|].
    apply Hmem0. repeat split; [repeat constructor | repeat constructor | tauto].
Qed.

End Sweep.

(** ** The command line *)

Lemma toupper_idempotent (c : ascii) : toupper (toupper c) = toupper c.
Proof.
  destruct c as [[] [] [] [] [] [] [] []]; vm_compute; reflexivity.
Qed.

Lemma toUpperCase_idempotent (s : string) : toUpperCase (toUpperCase s) = toUpperCase s.
Proof.
  induction s as [|c s IH]; simpl; [reflexivity|].
  rewrite toupper_idempotent, IH. reflexivity.
Qed.


Lemma parseArgs_save (args : list string) (o : Options) :
  parseArgs ("--save" :: args) o = parseArgs args (set_bSaveImages true o).
Proof. destruct args; reflexivity. Qed.

Lemma parseArgs_cons2 (arg v : string) (rest : list string) (o : Options) :
  parseArgs (arg :: v :: rest) o
  = if String.eqb arg "--detector" then
      parseArgs rest (set_singleDetector (toUpperCase v) o)
    else if String.eqb arg "--descriptor" then
      parseArgs rest (set_singleDescriptor (toUpperCase v) o)
    else if String.eqb arg "--matcher" then
      parseArgs rest (set_matcherType (toUpperCase v) o)
    else if String.eqb arg "--selector" then
      parseArgs rest (set_selectorType (toUpperCase v) o)
    else if String.eqb arg "--save" then
      parseArgs (v :: rest) (set_bSaveImages true o)
    else inl arg.
Proof. reflexivity. Qed.

(** Arguments parsed to the end can be followed by more. *)
Lemma parseArgs_app (pre args : list string) (o o' : Options) :
  parseArgs pre o = inr o' → parseArgs (pre ++ args) o = parseArgs args o'.
Proof.
  remember (length pre) as n eqn:Hn.
  revert pre o Hn. induction n as [n IH] using lt_wf_ind.
  intros [|arg [|v rest]] o Hn.
  - intros [= ->]. reflexivity.
  - cbn [parseArgs app].
    destruct (String.eqb_spec arg "--save") as [->|Hsave]; [|discriminate].
    intros [= <-]. apply parseArgs_save.
  - change ((arg :: v :: rest) ++ args) with (arg :: v :: (rest ++ args)).
    rewrite !parseArgs_cons2.
    destruct (String.eqb arg "--detector");
      [apply (IH (length rest)); [subst n; simpl; lia | reflexivity]|].
    destruct (String.eqb arg "--descriptor");
      [apply (IH (length rest)); [subst n; simpl; lia | reflexivity]|].
    destruct (String.eqb arg "--matcher");
      [apply (IH (length rest)); [subst n; simpl; lia | reflexivity]|].
    destruct (String.eqb arg "--selector");
      [apply (IH (length rest)); [subst n; simpl; lia | reflexivity]|].
    destruct (String.eqb arg "--save"); [|discriminate].
    apply (IH (length (v :: rest)) ltac:(subst n; simpl; lia) (v :: rest)). reflexivity.
Qed.

Section CommandLine.
Context `{V : VisionLibrary}.





End CommandLine.

(** ** The model on the executable library *)

Lemma frame_buffer_holds_latest_witness :
  let V := Toy.vision Toy.sequence in
  let F i := describedFrame (Toy.frame i) [] [] in
  ∃ dataBuffer',
    bufferPush 2 [F 1; F 2] (F 3) = Ok dataBuffer'
    ∧ 0 ≤ Z.of_nat (length dataBuffer') ≤ 2
    ∧ latest dataBuffer' = Some (F 3)
    ∧ dataBuffer' = [F 2; F 3].
Proof.
  intros V F.
  destruct (frame_buffer_holds_latest (V := V) "FAST" "ORB" "MAT_BF" "SEL_KNN"
              imgBasePath imgPrefix imgFileType imgStartIndex imgFillWidth 2 true false
              [F 1; F 2] [] (F 3) (F 1) (F 2) (F 3) 2 World_empty)
    as [(dataBuffer' & Hpush & Hlen & Hlatest & Hfull & _) _].
  - lia.
  - simpl. lia.
  - exists dataBuffer'. split; [exact Hpush|]. split; [exact Hlen|].
    split; [exact Hlatest|]. apply Hfull. reflexivity.
Defined.

Lemma alignment_follows_extractor_witness :
  let V := Toy.vision Toy.sequence in
  ∃ w1 dataBuffer1,
    loadDetectDescribe "FAST" "ORB" imgBasePath imgPrefix imgFileType
                       imgStartIndex imgFillWidth dataBufferSize true [] 0 World_empty
    = (w1, Ok dataBuffer1)
    ∧ Forall aligned dataBuffer1.
Proof.
  intros V.
  assert (Hok : returned (loadDetectDescribe "FAST" "ORB" imgBasePath imgPrefix imgFileType
                            imgStartIndex imgFillWidth dataBufferSize true [] 0
                            World_empty).2 = true)
    by (vm_compute; reflexivity).
  destruct (loadDetectDescribe "FAST" "ORB" imgBasePath imgPrefix imgFileType
              imgStartIndex imgFillWidth dataBufferSize true [] 0 World_empty)
    as [w1 [dataBuffer1| |]] eqn:Hload; try discriminate Hok.
  exists w1, dataBuffer1. split; [reflexivity|].
  refine (proj1 (proj2 (alignment_follows_extractor (V := V) "FAST" "ORB" "MAT_BF" "SEL_KNN"
                          imgBasePath imgPrefix imgFileType imgStartIndex imgFillWidth
                          dataBufferSize true false [] dataBuffer1 0 World_empty w1
                          _ _ Hload))).
  - intros e img kps kps' descs [= <- <-]. apply length_fmap.
  - constructor.
Defined.

(** C7, as the claim states it, fails: with an extractor that returns
    one descriptor row too few, the runner goes on, matches the
    misaligned frames, logs the match row and ends normally. *)
Lemma misaligned_descriptors_undetected :
  let V := Toy.make Toy.sequence Toy.describeShort in
  ∃ w dataBuffer,
    imageLoop "FAST" "ORB" "MAT_BF" "SEL_KNN" imgBasePath imgPrefix imgFileType
              imgStartIndex imgFillWidth dataBufferSize true false [0; 1] [] World_empty
    = (w, Ok dataBuffer)
    ∧ (λ f, length (keypoints f)) <$> dataBuffer = [3; 3]%nat
    ∧ (λ f, Mat_rows (descriptors f)) <$> dataBuffer = [2; 2]%nat
    ∧ Forall (λ f, ¬ aligned f) dataBuffer
    ∧ matchLog w = [MatchRow 1 "FAST" "ORB" 2]
    ∧ (runCombination "FAST" "ORB" "MAT_BF" "SEL_KNN" imgBasePath imgPrefix imgFileType
                      imgStartIndex imgEndIndex imgFillWidth dataBufferSize true false
                      World_empty).2 = Ok ().
Proof.
  intros V.
  pose (run := imageLoop "FAST" "ORB" "MAT_BF" "SEL_KNN" imgBasePath imgPrefix imgFileType
                 imgStartIndex imgFillWidth dataBufferSize true false [0; 1] []
                 World_empty).
  assert (Hok : returned run.2 = true) by (vm_compute; reflexivity).
  assert (Hkps : (λ f, length (keypoints f)) <$> valueOr [] run.2 = [3; 3]%nat)
    by (vm_compute; reflexivity).
  assert (Hrows : (λ f, Mat_rows (descriptors f)) <$> valueOr [] run.2 = [2; 2]%nat)
    by (vm_compute; reflexivity).
  assert (Hbad : forallb (λ f, negb (Mat_rows (descriptors f) =? length (keypoints f))%nat)
                         (valueOr [] run.2) = true)
    by (vm_compute; reflexivity).
  assert (Hlog : matchLog run.1 = [MatchRow 1 "FAST" "ORB" 2]) by (vm_compute; reflexivity).
  fold run. destruct run as [w [dataBuffer| |]]; try discriminate Hok.
  exists w, dataBuffer. cbn [fst snd valueOr] in *.
  split; [reflexivity|]. split; [exact Hkps|]. split; [exact Hrows|].
  split.
  - apply Forall_forall. intros f Hf. apply list_elem_of_In in Hf.
    apply (proj1 (forallb_forall _ _) Hbad) in Hf.
    unfold aligned. intros Heq. rewrite Heq, Nat.eqb_refl in Hf. discriminate.
  - split; [exact Hlog|]. vm_compute. reflexivity.
Qed.

Lemma empty_keypoints_row_logged_witness :
  let V := Toy.vision Toy.outsideOnly in
  keypointLog (processImage "FAST" "ORB" "MAT_BF" "SEL_KNN" imgBasePath imgPrefix
                            imgFileType imgStartIndex imgFillWidth dataBufferSize
                            true false [] 0 World_empty).1
  = [KeypointRow 0 "FAST" 0 fzero fzero fzero].
Proof.
  intros V.
  refine (proj2 (proj2 (empty_keypoints_row_logged (V := V) "FAST" "ORB" "MAT_BF" "SEL_KNN"
                          imgBasePath imgPrefix imgFileType imgStartIndex imgFillWidth
                          dataBufferSize true false [] 0 World_empty
                          [ [100; 100; 5; 1; 1; 1; 1] ] _ _ _))).
  - discriminate.
  - reflexivity.
  - vm_compute. reflexivity.
Defined.

Lemma combination_failure_isolated_witness :
  let V := Toy.vision Toy.sequenceWithout2 in
  ∃ reported,
    tryCombination defaultOptions "FAST" "BRISK" World_empty = (reported, Ok ())
    ∧ cerr reported
      = [errorReport "FAST" "BRISK"
           (runtime_error ("loadGrayscaleImage: could not open '" +:+ Toy.pathOf 2 +:+ "'"))]
    ∧ keypointRowIndex <$> keypointLog reported = [Some 0; Some 1]
    ∧ matchLog reported = [MatchRow 1 "FAST" "BRISK" 3].
Proof.
  intros V.
  pose (run := runCombination "FAST" "BRISK" (matcherType defaultOptions)
                 (selectorType defaultOptions) imgBasePath imgPrefix imgFileType
                 imgStartIndex imgEndIndex imgFillWidth dataBufferSize bFocusOnVehicle
                 (bSaveImages defaultOptions) World_empty).
  assert (Hthrown : thrown run.2
                    = Some (runtime_error ("loadGrayscaleImage: could not open '"
                                           +:+ Toy.pathOf 2 +:+ "'")))
    by (vm_compute; reflexivity).
  assert (Hrows : keypointRowIndex <$> keypointLog run.1 = [Some 0; Some 1])
    by (vm_compute; reflexivity).
  assert (Hmatches : matchLog run.1 = [MatchRow 1 "FAST" "BRISK" 3])
    by (vm_compute; reflexivity).
  destruct run as [w' [[]|e|]] eqn:Hrun; try discriminate Hthrown.
  cbn [fst snd thrown] in *. injection Hthrown as ->.
  destruct (combination_failure_isolated (V := V) defaultOptions "FAST" "BRISK" ["ORB"]
              World_empty w' _ Hrun)
    as (reported & Htry & Hcerr & Hklog & Hmlog & _).
  exists reported. split; [exact Htry|].
  split; [rewrite Hcerr; reflexivity|].
  split; [rewrite Hklog; exact Hrows|].
  rewrite Hmlog. exact Hmatches.
Defined.

(** Frame 2 missing from a ten-image sweep of one detector: the rows of
    images 0 and 1 are logged for the combinations that need it, every
    later combination still runs, and the program ends with status 0. *)
Example missing_image_sweep :
  let V := Toy.vision Toy.sequenceWithout2 in
  let r := main ["--detector"; "fast"] in
  r.2 = Ok 0
  ∧ keypointRowIndex <$> keypointLog r.1
    = [None; Some 0; Some 1; Some 0; Some 1; Some 0; Some 0; Some 0]
  ∧ matchLog r.1 = [MatchHeader; MatchRow 1 "FAST" "BRISK" 3; MatchRow 1 "FAST" "ORB" 3]
  ∧ length (cerr r.1) = 5%nat.
Proof. repeat split; vm_compute; reflexivity. Qed.



(** * Further properties of the code *)

(** ** The order of single-precision floats *)

Lemma flt_key (a b : float) :
  flt a b = true ↔ ∃ ka kb, floatKey a = Some ka ∧ floatKey b = Some kb ∧ keyLt ka kb.
Proof.
  unfold flt, SFltb, keyLt.
  destruct a as [sa|sa| |sa ma ea], b as [sb|sb| |sb mb eb];
    repeat match goal with s : bool |- _ => destruct s end;
    cbn [SFcompare floatKey];
    change (PosDef.Pos.compare_cont Eq) with Pos.compare;
    (split;
     [ intros H; try discriminate H; do 2 eexists;
       (split; [reflexivity|]); (split; [reflexivity|]);
       cbn; revert H; cmp_cases; cbn; intros; try discriminate; try lia
     | intros (ka & kb & Ha & Hb & H); try discriminate Ha; try discriminate Hb;
       injection Ha as <-; injection Hb as <-; cbn in H;
       cmp_cases; cbn; try reflexivity; try lia ]).
Qed.

Lemma fle_key (a b : float) :
  fle a b = true ↔ ∃ ka kb, floatKey a = Some ka ∧ floatKey b = Some kb ∧ keyLe ka kb.
Proof.
  unfold fle, SFleb, keyLe.
  destruct a as [sa|sa| |sa ma ea], b as [sb|sb| |sb mb eb];
    repeat match goal with s : bool |- _ => destruct s end;
    cbn [SFcompare floatKey];
    change (PosDef.Pos.compare_cont Eq) with Pos.compare;
    (split;
     [ intros H; try discriminate H; do 2 eexists;
       (split; [reflexivity|]); (split; [reflexivity|]);
       cbn; revert H; cmp_cases; cbn; intros; try discriminate; try lia
     | intros (ka & kb & Ha & Hb & H); try discriminate Ha; try discriminate Hb;
       injection Ha as <-; injection Hb as <-; cbn in H;
       cmp_cases; cbn; try reflexivity; try lia ]).
Qed.

Lemma floatKey_not_nan (f : float) : f ≠ S754_nan ↔ ∃ k, floatKey f = Some k.
Proof.
  destruct f as [s|s| |s m e]; try destruct s; cbn; split;
    try (intros _; eexists; reflexivity); try (intros _; discriminate);
    try (intros H; destruct H; reflexivity); intros [k Hk]; discriminate.
Qed.

Lemma fle_refl (a : float) : a ≠ S754_nan → fle a a = true.
Proof.
  intros Ha. apply floatKey_not_nan in Ha as [[[k1 k2] k3] Hk].
  apply fle_key. exists (k1, k2, k3), (k1, k2, k3). repeat split; try assumption.
  unfold keyLe. lia.
Qed.

Lemma fle_trans (a b c : float) : fle a b = true → fle b c = true → fle a c = true.
Proof.
  rewrite !fle_key.
  intros ([[a1 a2] a3] & [[b1 b2] b3] & Ha & Hb & Hab)
         ([[b1' b2'] b3'] & [[c1 c2] c3] & Hb' & Hc & Hbc).
  rewrite Hb in Hb'. injection Hb' as <- <- <-.
  exists (a1, a2, a3), (c1, c2, c3). repeat split; try assumption.
  unfold keyLe in *. lia.
Qed.

Lemma flt_fle (a b : float) : flt a b = true → fle a b = true.
Proof.
  rewrite flt_key, fle_key.
  intros ([[a1 a2] a3] & [[b1 b2] b3] & Ha & Hb & Hab).
  exists (a1, a2, a3), (b1, b2, b3). repeat split; try assumption.
  unfold keyLt, keyLe in *. lia.
Qed.

Lemma flt_not_nan (a b : float) : flt a b = true → a ≠ S754_nan ∧ b ≠ S754_nan.
Proof.
  rewrite flt_key, !floatKey_not_nan. intros (ka & kb & Ha & Hb & _). eauto.
Qed.

Lemma not_flt_fle (a b : float) :
  a ≠ S754_nan → b ≠ S754_nan → flt b a = false → fle a b = true.
Proof.
  intros Ha Hb Hlt.
  apply floatKey_not_nan in Ha as [[[a1 a2] a3] Ha].
  apply floatKey_not_nan in Hb as [[[b1 b2] b3] Hb].
  apply fle_key. exists (a1, a2, a3), (b1, b2, b3). repeat split; try assumption.
  destruct (decide (keyLe (a1, a2, a3) (b1, b2, b3))) as [Hle|Hnle]; [exact Hle|].
  assert (Hlt' : flt b a = true).
  { apply flt_key. exists (b1, b2, b3), (a1, a2, a3). repeat split; try assumption.
    unfold keyLt, keyLe in *. lia. }
  congruence.
Qed.


(** ** The size statistics of a keypoint row *)

Lemma fmin_spec (acc s : float) :
  acc ≠ S754_nan →
  fmin acc s ≠ S754_nan
  ∧ fle (fmin acc s) acc = true
  ∧ (s ≠ S754_nan → fle (fmin acc s) s = true)
  ∧ (fmin acc s = acc ∨ fmin acc s = s).
Proof.
  intros Hacc. unfold fmin. destruct (flt s acc) eqn:Hlt.
  - destruct (flt_not_nan _ _ Hlt) as [Hs _].
    split; [exact Hs|]. split; [apply flt_fle, Hlt|].
    split; [intros _; apply fle_refl, Hs | right; reflexivity].
  - split; [exact Hacc|]. split; [apply fle_refl, Hacc|].
    split; [intros Hs; apply not_flt_fle; assumption | left; reflexivity].
Qed.

Lemma fmax_spec (acc s : float) :
  acc ≠ S754_nan →
  fmax acc s ≠ S754_nan
  ∧ fle acc (fmax acc s) = true
  ∧ (s ≠ S754_nan → fle s (fmax acc s) = true)
  ∧ (fmax acc s = acc ∨ fmax acc s = s).
Proof.
  intros Hacc. unfold fmax. destruct (flt acc s) eqn:Hlt.
  - destruct (flt_not_nan _ _ Hlt) as [_ Hs].
    split; [exact Hs|]. split; [apply flt_fle, Hlt|].
    split; [intros _; apply fle_refl, Hs | right; reflexivity].
  - split; [exact Hacc|]. split; [apply fle_refl, Hacc|].
    split; [intros Hs; apply not_flt_fle; assumption | left; reflexivity].
Qed.

(** The loop of [logKeypointStats] from any accumulators that are
    numbers. *)
Lemma sizeStats_from (keypoints : list cv.KeyPoint) (min0 max0 mean0 : float) :
  min0 ≠ S754_nan → max0 ≠ S754_nan →
  ∃ minSz maxSz meanSz,
    fold_left (λ '(minSz, maxSz, meanSz) kp,
                 (fmin minSz (cv.size kp), fmax maxSz (cv.size kp),
                  fadd meanSz (cv.size kp)))
              keypoints (min0, max0, mean0) = (minSz, maxSz, meanSz)
    ∧ minSz ≠ S754_nan ∧ maxSz ≠ S754_nan
    ∧ fle minSz min0 = true ∧ fle max0 maxSz = true
    ∧ (∀ kp, kp ∈ keypoints → cv.size kp ≠ S754_nan →
             fle minSz (cv.size kp) = true ∧ fle (cv.size kp) maxSz = true)
    ∧ (minSz = min0 ∨ ∃ kp, kp ∈ keypoints ∧ cv.size kp = minSz)
    ∧ (maxSz = max0 ∨ ∃ kp, kp ∈ keypoints ∧ cv.size kp = maxSz).
Proof.
  revert min0 max0 mean0.
  induction keypoints as [|kp0 rest IH]; intros min0 max0 mean0 Hmin Hmax.
  - exists min0, max0, mean0. split; [reflexivity|].
    split; [exact Hmin|]. split; [exact Hmax|].
    split; [apply fle_refl, Hmin|]. split; [apply fle_refl, Hmax|].
    split; [intros kp Hin; inversion Hin|]. split; left; reflexivity.
  - destruct (fmin_spec min0 (cv.size kp0) Hmin) as (Hmin1 & Hle1 & Hs1 & Hor1).
    destruct (fmax_spec max0 (cv.size kp0) Hmax) as (Hmax1 & Hge1 & Hs2 & Hor2).
    destruct (IH (fmin min0 (cv.size kp0)) (fmax max0 (cv.size kp0))
                 (fadd mean0 (cv.size kp0)) Hmin1 Hmax1)
      as (minSz & maxSz & meanSz & Hfold & Hn1 & Hn2 & Hle & Hge & Hall & Hmin' & Hmax').
    exists minSz, maxSz, meanSz. split; [exact Hfold|].
    split; [exact Hn1|]. split; [exact Hn2|].
    split; [eapply fle_trans; eassumption|].
    split; [eapply fle_trans; eassumption|].
    split; [|split].
    + intros kp Hin Hnan. apply elem_of_cons in Hin as [->|Hin].
      * split; eapply fle_trans; eauto.
      * apply Hall; assumption.
    + destruct Hmin' as [->|(kp & Hin & Hkp)].
      * destruct Hor1 as [->| ->]; [left; reflexivity|].
        right. exists kp0. split; [apply list_elem_of_here | reflexivity].
      * right. exists kp. split; [apply list_elem_of_further, Hin | exact Hkp].
    + destruct Hmax' as [->|(kp & Hin & Hkp)].
      * destruct Hor2 as [->| ->]; [left; reflexivity|].
        right. exists kp0. split; [apply list_elem_of_here | reflexivity].
      * right. exists kp. split; [apply list_elem_of_further, Hin | exact Hkp].
Qed.

(** X1.  In the keypoint row of an image the count is the number of
    keypoints; when there is at least one keypoint, MinSize is at most
    and MaxSize at least the size of every keypoint whose size is a
    number, MinSize is the size of a keypoint or stays [FLT_MAX] (when no
    size is below it), MaxSize is the size of a keypoint or stays 0
    (when no size is above it), and neither is ever NaN. *)
Theorem keypoint_row_bounds_sizes (imgIndex : Z) (detectorType : string)
    (keypoints : list cv.KeyPoint) :
  ∃ minSz maxSz meanSz,
    keypointStatsRow imgIndex detectorType keypoints
    = KeypointRow imgIndex detectorType (length keypoints)
                  (if bool_decide (keypoints = []) then fzero else minSz)
                  maxSz meanSz
    ∧ minSz ≠ S754_nan ∧ maxSz ≠ S754_nan
    ∧ fle minSz FLT_MAX = true ∧ fle fzero maxSz = true
    ∧ (∀ kp, kp ∈ keypoints → cv.size kp ≠ S754_nan →
             fle minSz (cv.size kp) = true ∧ fle (cv.size kp) maxSz = true)
    ∧ (minSz = FLT_MAX ∨ ∃ kp, kp ∈ keypoints ∧ cv.size kp = minSz)
    ∧ (maxSz = fzero ∨ ∃ kp, kp ∈ keypoints ∧ cv.size kp = maxSz).
Proof.
  destruct (sizeStats_from keypoints FLT_MAX fzero fzero)
    as (minSz & maxSz & meanSz & Hfold & Hrest); [discriminate | discriminate |].
  exists minSz, maxSz.
  exists (if negb (bool_decide (keypoints = []))
          then fdiv meanSz (float_of_Z (Z.of_nat (length keypoints))) else meanSz).
  split; [|exact Hrest].
  unfold keypointStatsRow, sizeStats. rewrite Hfold.
  destruct (bool_decide (keypoints = [])); reflexivity.
Qed.

(** ** The logs of a combination that runs to its end *)

Section RunShape.
Context `{V : VisionLibrary}.
Variables (detectorType descriptorType matcherType selectorType : string).
Variables (imgBasePath imgPrefix imgFileType : string).
Variables (imgStartIndex imgEndIndex imgFillWidth dataBufferSize : Z).
Variables (bFocusOnVehicle bSaveImages : bool).

Local Abbreviation aBody :=
  (processImage detectorType descriptorType matcherType selectorType
                imgBasePath imgPrefix imgFileType imgStartIndex imgFillWidth
                dataBufferSize bFocusOnVehicle bSaveImages).
Local Abbreviation aLoop :=
  (imageLoop detectorType descriptorType matcherType selectorType
             imgBasePath imgPrefix imgFileType imgStartIndex imgFillWidth
             dataBufferSize bFocusOnVehicle bSaveImages).
Local Abbreviation aRun :=
  (runCombination detectorType descriptorType matcherType selectorType
                  imgBasePath imgPrefix imgFileType imgStartIndex imgEndIndex
                  imgFillWidth dataBufferSize bFocusOnVehicle bSaveImages).

(** X2.  With a buffer capacity of 2 or more, a combination that runs
    to its end has appended to the keypoint log one row per image, in
    the order of the images, and to the match log one row per image but
    the first, each naming the detector and the descriptor of the
    combination; it has written nothing to the error stream. *)
Theorem full_run_log_rows (w w' : World) :
  2 ≤ dataBufferSize < 2 ^ 31 →
  aRun w = (w', Ok ()) →
  ∃ keypointRows matchRows,
    keypointLog w' = keypointLog w ++ keypointRows
    ∧ matchLog w' = matchLog w ++ matchRows
    ∧ keypointRowIndex <$> keypointRows = Some <$> imageIndices imgStartIndex imgEndIndex
    ∧ matchRowIndex <$> matchRows = Some <$> tail (imageIndices imgStartIndex imgEndIndex)
    ∧ Forall (λ r, keypointRowDetector r = Some detectorType) keypointRows
    ∧ Forall (λ r, matchRowPairing r = Some (detectorType, descriptorType)) matchRows
    ∧ length keypointRows = S (length matchRows)
    ∧ cerr w' = cerr w.
Proof.
  intros Hcap Hrun.
  unfold runCombination in Hrun. cbv beta iota delta [mbind IO_bind mret IO_ret] in Hrun.
  destruct (aLoop (imageIndices imgStartIndex imgEndIndex) [] w)
    as [w1 [d1| |]] eqn:Hloop; try discriminate.
  injection Hrun as <-.
  pose proof (imageLoop_cerr detectorType descriptorType matcherType selectorType
                imgBasePath imgPrefix imgFileType imgStartIndex imgFillWidth
                dataBufferSize bFocusOnVehicle bSaveImages
                (imageIndices imgStartIndex imgEndIndex) [] w) as Hcerr.
  rewrite Hloop in Hcerr. simpl in Hcerr.
  pose proof Hloop as Hloop'.
  apply imageLoop_Ok_keypoint_rows in Hloop as (krows & Hk & Hkidx & Hkdet).
  apply imageLoop_Ok_match_rows in Hloop' as (mrows & Hm & Hmidx & Hmpair);
    [|exact Hcap|simpl; lia].
  cbn [latest last] in Hmidx.
  exists krows, mrows.
  split; [exact Hk|]. split; [exact Hm|]. split; [exact Hkidx|]. split; [exact Hmidx|].
  split; [exact Hkdet|]. split; [exact Hmpair|]. split; [|exact Hcerr].
  apply (f_equal length) in Hkidx. apply (f_equal length) in Hmidx.
  rewrite !length_fmap in Hkidx. rewrite !length_fmap in Hmidx.
  rewrite Hkidx, Hmidx.
  unfold imageIndices. cbn [seq fmap list_fmap tail length]. reflexivity.
Qed.

End RunShape.

(** ** What a computation leaves alone, and what it logs *)

Section Effects.
Context `{V : VisionLibrary}.

Lemma leaves_ret {A B} (part : World → B) (a : A) : leaves part (mret a).
Proof. intros w. reflexivity. Qed.

Lemma leaves_liftO {A B} (part : World → B) (r : outcome A) : leaves part (liftO r).
Proof. intros w. reflexivity. Qed.

Lemma leaves_bind {A B C} (part : World → C) (m : IO A) (f : A → IO B) :
  leaves part m → (∀ a, leaves part (f a)) → leaves part (m ≫= f).
Proof.
  intros Hm Hf w. specialize (Hm w). unfold mbind, IO_bind.
  destruct (m w) as [w1 [a| |]]; simpl in *; try exact Hm.
  rewrite Hf. exact Hm.
Qed.

Lemma leaves_try_catch {B} (part : World → B) (body : IO unit) (handler : exn → IO unit) :
  leaves part body → (∀ e, leaves part (handler e)) → leaves part (try_catch body handler).
Proof.
  intros Hb Hh w. specialize (Hb w). unfold try_catch.
  destruct (body w) as [w1 [[]|e|]]; simpl in *; try exact Hb.
  rewrite Hh. exact Hb.
Qed.

Lemma leaves_for_each {A B} (part : World → B) (l : list A) (body : A → IO unit) :
  (∀ a, leaves part (body a)) → leaves part (for_each l body).
Proof.
  intros Hb. induction l as [|a l IH]; simpl.
  - apply leaves_ret.
  - apply leaves_bind; [apply Hb | intros _; exact IH].
Qed.

Lemma logsOnly_ret {A} (K : KeypointLine → Prop) (M : MatchLine → Prop) (a : A) :
  logsOnly K M (mret a).
Proof. intros w. exists [], []. rewrite !app_nil_r. repeat split; constructor. Qed.

Lemma logsOnly_liftO {A} (K : KeypointLine → Prop) (M : MatchLine → Prop) (r : outcome A) :
  logsOnly K M (liftO r).
Proof. intros w. exists [], []. rewrite !app_nil_r. repeat split; constructor. Qed.

Lemma logsOnly_bind {A B} (K : KeypointLine → Prop) (M : MatchLine → Prop)
    (m : IO A) (f : A → IO B) :
  logsOnly K M m → (∀ a, logsOnly K M (f a)) → logsOnly K M (m ≫= f).
Proof.
  intros Hm Hf w. specialize (Hm w). unfold mbind, IO_bind.
  destruct (m w) as [w1 [a| |]]; simpl in *; try exact Hm.
  destruct Hm as (k1 & m1 & Hk1 & Hm1 & HK1 & HM1).
  destruct (Hf a w1) as (k2 & m2 & Hk2 & Hm2 & HK2 & HM2).
  exists (k1 ++ k2), (m1 ++ m2).
  rewrite Hk2, Hm2, Hk1, Hm1, <- !app_assoc.
  repeat split; try reflexivity; apply Forall_app; split; assumption.
Qed.

Lemma logsOnly_weaken {A} (K K' : KeypointLine → Prop) (M M' : MatchLine → Prop)
    (m : IO A) :
  (∀ l, K l → K' l) → (∀ l, M l → M' l) → logsOnly K M m → logsOnly K' M' m.
Proof.
  intros HK HM Hm w. destruct (Hm w) as (k & r & Hk & Hr & HKs & HMs).
  exists k, r. repeat split; try assumption.
  - eapply Forall_impl; [exact HKs | exact HK].
  - eapply Forall_impl; [exact HMs | exact HM].
Qed.

Lemma logsOnly_write_keypointLog (K : KeypointLine → Prop) (M : MatchLine → Prop)
    (l : KeypointLine) :
  K l → logsOnly K M (write_keypointLog l).
Proof.
  intros Hl w. exists [l], []. simpl. rewrite app_nil_r.
  repeat split; repeat constructor; exact Hl.
Qed.

Lemma logsOnly_write_matchLog (K : KeypointLine → Prop) (M : MatchLine → Prop)
    (l : MatchLine) :
  M l → logsOnly K M (write_matchLog l).
Proof.
  intros Hl w. exists [], [l]. simpl. rewrite app_nil_r.
  repeat split; repeat constructor; exact Hl.
Qed.

Lemma logsOnly_write_cerr (K : KeypointLine → Prop) (M : MatchLine → Prop) (s : string) :
  logsOnly K M (write_cerr s).
Proof. intros w. exists [], []. simpl. rewrite !app_nil_r. repeat split; constructor. Qed.

Lemma logsOnly_write_image (K : KeypointLine → Prop) (M : MatchLine → Prop)
    (path : string) (img : Mat) :
  logsOnly K M (write_image path img).
Proof.
  intros w. exists [], []. unfold write_image.
  destruct (imwrite path img) as [[|]| |]; simpl; rewrite !app_nil_r;
    repeat split; constructor.
Qed.

Lemma logsOnly_try_catch (K : KeypointLine → Prop) (M : MatchLine → Prop)
    (body : IO unit) (handler : exn → IO unit) :
  logsOnly K M body → (∀ e, logsOnly K M (handler e)) →
  logsOnly K M (try_catch body handler).
Proof.
  intros Hb Hh w. specialize (Hb w). unfold try_catch.
  destruct (body w) as [w1 [[]|e|]]; simpl in *; try exact Hb.
  destruct Hb as (k1 & m1 & Hk1 & Hm1 & HK1 & HM1).
  destruct (Hh e w1) as (k2 & m2 & Hk2 & Hm2 & HK2 & HM2).
  exists (k1 ++ k2), (m1 ++ m2).
  rewrite Hk2, Hm2, Hk1, Hm1, <- !app_assoc.
  repeat split; try reflexivity; apply Forall_app; split; assumption.
Qed.

Lemma logsOnly_for_each {A} (K : KeypointLine → Prop) (M : MatchLine → Prop)
    (l : list A) (body : A → IO unit) :
  (∀ a, a ∈ l → logsOnly K M (body a)) → logsOnly K M (for_each l body).
Proof.
  induction l as [|a l IH]; intros Hb; simpl.
  - apply logsOnly_ret.
  - apply logsOnly_bind; [apply Hb, list_elem_of_here|].
    intros _. apply IH. intros a' Ha'. apply Hb, list_elem_of_further, Ha'.
Qed.

End Effects.

Section LoopEffects.
Context `{V : VisionLibrary}.
Variables (detectorType descriptorType matcherType selectorType : string).
Variables (imgBasePath imgPrefix imgFileType : string).
Variables (imgStartIndex imgEndIndex imgFillWidth dataBufferSize : Z).
Variables (bFocusOnVehicle bSaveImages : bool).

Local Abbreviation bLoad :=
  (loadDetectDescribe detectorType descriptorType imgBasePath imgPrefix imgFileType
                      imgStartIndex imgFillWidth dataBufferSize bFocusOnVehicle).
Local Abbreviation bMatch :=
  (matchLatest detectorType descriptorType matcherType selectorType bSaveImages).
Local Abbreviation bBody :=
  (processImage detectorType descriptorType matcherType selectorType
                imgBasePath imgPrefix imgFileType imgStartIndex imgFillWidth
                dataBufferSize bFocusOnVehicle bSaveImages).
Local Abbreviation bLoop :=
  (imageLoop detectorType descriptorType matcherType selectorType
             imgBasePath imgPrefix imgFileType imgStartIndex imgFillWidth
             dataBufferSize bFocusOnVehicle bSaveImages).
Local Abbreviation bRun :=
  (runCombination detectorType descriptorType matcherType selectorType
                  imgBasePath imgPrefix imgFileType imgStartIndex imgEndIndex
                  imgFillWidth dataBufferSize bFocusOnVehicle bSaveImages).

Lemma leaves_imageFiles_load (dataBuffer : list DataFrame) (imgIndex : Z) :
  leaves imageFiles (bLoad dataBuffer imgIndex).
Proof.
  unfold loadDetectDescribe, logKeypointStats.
  repeat first
    [ apply leaves_liftO
    | apply leaves_bind; [|intros ?]
    | match goal with |- leaves _ (let '(_, _) := ?p in _) => destruct p end
    | intros w; reflexivity ].
Qed.

Lemma leaves_imageFiles_match (dataBuffer : list DataFrame) (imgIndex : Z) :
  bSaveImages = false → leaves imageFiles (bMatch dataBuffer imgIndex).
Proof.
  intros Hsave. unfold matchLatest. rewrite Hsave.
  destruct (_ >? 1); [|apply leaves_ret].
  repeat first
    [ apply leaves_liftO
    | apply leaves_ret
    | apply leaves_bind; [|intros ?]
    | intros w; reflexivity ].
Qed.

Lemma leaves_imageFiles_loop (indices : list Z) (dataBuffer : list DataFrame) :
  bSaveImages = false → leaves imageFiles (bLoop indices dataBuffer).
Proof.
  intros Hsave. revert dataBuffer.
  induction indices as [|i rest IH]; intros dataBuffer; simpl.
  - apply leaves_ret.
  - apply leaves_bind; [|intros d; apply IH].
    unfold processImage. apply leaves_bind.
    + apply leaves_imageFiles_load.
    + intros d. apply leaves_imageFiles_match, Hsave.
Qed.

Lemma leaves_imageFiles_run : bSaveImages = false → leaves imageFiles bRun.
Proof.
  intros Hsave. unfold runCombination. apply leaves_bind.
  - apply leaves_imageFiles_loop, Hsave.
  - intros d. apply leaves_ret.
Qed.

Lemma logsOnly_load (dataBuffer : list DataFrame) (imgIndex : Z) :
  logsOnly (keypointRowOf detectorType [imgIndex]) (λ _, False) (bLoad dataBuffer imgIndex).
Proof.
  unfold loadDetectDescribe, logKeypointStats.
  repeat first
    [ apply logsOnly_liftO
    | apply logsOnly_write_keypointLog
    | apply logsOnly_bind; [|intros ?]
    | match goal with |- logsOnly _ _ (let '(_, _) := ?p in _) => destruct p end ].
  exists imgIndex. split; [apply list_elem_of_here|].
  split; [apply keypointStatsRow_index | apply keypointStatsRow_detector].
Qed.

Lemma logsOnly_match (dataBuffer : list DataFrame) (imgIndex : Z) :
  logsOnly (λ _, False) (matchRowOf detectorType descriptorType [imgIndex]) (bMatch dataBuffer imgIndex).
Proof.
  unfold matchLatest.
  destruct (_ >? 1); [|apply logsOnly_ret].
  repeat first
    [ apply logsOnly_liftO
    | apply logsOnly_ret
    | apply logsOnly_write_matchLog
    | apply logsOnly_write_image
    | apply logsOnly_bind; [|intros ?]
    | match goal with |- logsOnly _ _ (if ?b then _ else _) => destruct b end ].
  exists imgIndex. split; [apply list_elem_of_here|]. split; reflexivity.
Qed.

Lemma logsOnly_body (dataBuffer : list DataFrame) (imgIndex : Z) :
  logsOnly (keypointRowOf detectorType [imgIndex]) (matchRowOf detectorType descriptorType [imgIndex]) (bBody dataBuffer imgIndex).
Proof.
  unfold processImage. apply logsOnly_bind.
  - eapply logsOnly_weaken; [| |apply logsOnly_load]; [tauto | intros l []].
  - intros d. eapply logsOnly_weaken; [| |apply logsOnly_match]; [intros l [] | tauto].
Qed.

(** The first image of an empty buffer is never matched. *)
Lemma logsOnly_body_first (imgIndex : Z) :
  logsOnly (keypointRowOf detectorType [imgIndex]) (λ _, False) (bBody [] imgIndex).
Proof.
  intros w. pose proof (logsOnly_load [] imgIndex w) as Hload.
  unfold processImage. cbv beta iota delta [mbind IO_bind].
  destruct (bLoad [] imgIndex w) as [w1 [d1| |]] eqn:Hrun; simpl in Hload; try exact Hload.
  apply loadDetectDescribe_Ok in Hrun as (img & kps & kps' & descs & _ & _ & _ & -> & _).
  assert (Hret : retained dataBufferSize (@nil DataFrame) = []).
  { unfold retained. destruct (_ =? _); reflexivity. }
  rewrite Hret. simpl app. rewrite matchLatest_single. exact Hload.
Qed.

Lemma singleton_subseteq_cons {A} (a : A) (l : list A) : [a] ⊆ a :: l.
Proof.
  intros x Hx. apply elem_of_cons in Hx as [->|Hx]; [apply list_elem_of_here|].
  inversion Hx.
Qed.

Lemma tail_subseteq_cons {A} (a : A) (l : list A) : l ⊆ a :: l.
Proof. intros x Hx. apply list_elem_of_further, Hx. Qed.

Lemma rowOf_mono (indices indices' : list Z) :
  indices ⊆ indices' →
  (∀ l, keypointRowOf detectorType indices l → keypointRowOf detectorType indices' l)
  ∧ (∀ l, matchRowOf detectorType descriptorType indices l → matchRowOf detectorType descriptorType indices' l).
Proof.
  intros Hsub. split; intros l (i & Hi & Hl); exists i; (split; [apply Hsub, Hi | exact Hl]).
Qed.

Lemma logsOnly_loop (indices : list Z) (dataBuffer : list DataFrame) :
  logsOnly (keypointRowOf detectorType indices) (matchRowOf detectorType descriptorType indices) (bLoop indices dataBuffer).
Proof.
  revert dataBuffer. induction indices as [|i rest IH]; intros dataBuffer; simpl.
  - apply logsOnly_ret.
  - apply logsOnly_bind.
    + destruct (rowOf_mono [i] (i :: rest)) as [HK HM]; [apply singleton_subseteq_cons|].
      eapply logsOnly_weaken; [exact HK | exact HM | apply logsOnly_body].
    + intros d. destruct (rowOf_mono rest (i :: rest)) as [HK HM]; [apply tail_subseteq_cons|].
      eapply logsOnly_weaken; [exact HK | exact HM | apply IH].
Qed.

Lemma logsOnly_loop_first (indices : list Z) :
  logsOnly (keypointRowOf detectorType indices) (matchRowOf detectorType descriptorType (tail indices)) (bLoop indices []).
Proof.
  destruct indices as [|i rest]; simpl; [apply logsOnly_ret|].
  apply logsOnly_bind.
  - destruct (rowOf_mono [i] (i :: rest)) as [HK _]; [apply singleton_subseteq_cons|].
    eapply logsOnly_weaken; [exact HK | | apply logsOnly_body_first]. intros l [].
  - intros d. destruct (rowOf_mono rest (i :: rest)) as [HK _]; [apply tail_subseteq_cons|].
    eapply logsOnly_weaken; [exact HK | | apply logsOnly_loop]. tauto.
Qed.

Lemma logsOnly_run :
  logsOnly (keypointRowOf detectorType (imageIndices imgStartIndex imgEndIndex))
           (matchRowOf detectorType descriptorType (tail (imageIndices imgStartIndex imgEndIndex))) bRun.
Proof.
  unfold runCombination. apply logsOnly_bind.
  - apply logsOnly_loop_first.
  - intros d. apply logsOnly_ret.
Qed.

End LoopEffects.

(** ** What [main] writes *)

Section MainEffects.
Context `{V : VisionLibrary}.

Lemma validPairings_elem (dets descs : list string) (det desc : string) :
  (det, desc) ∈ validPairings dets descs
  ↔ det ∈ dets ∧ desc ∈ descs ∧ skipPairing det desc = false.
Proof.
  unfold validPairings.
  rewrite list_elem_of_filter, list_elem_of_In, in_prod_iff, <- !list_elem_of_In.
  cbn [fst snd]. tauto.
Qed.

Lemma leaves_imageFiles_try (o : Options) (det desc : string) :
  bSaveImages o = false → leaves imageFiles (tryCombination o det desc).
Proof.
  intros Hsave. unfold tryCombination. apply leaves_try_catch.
  - apply leaves_imageFiles_run, Hsave.
  - intros e w. reflexivity.
Qed.

Lemma leaves_imageFiles_sweep (o : Options) (dets descs : list string) :
  bSaveImages o = false → leaves imageFiles (sweep o dets descs).
Proof.
  intros Hsave. unfold sweep. apply leaves_for_each. intros det.
  apply leaves_for_each. intros desc.
  destruct (skipPairing det desc); [apply leaves_ret | apply leaves_imageFiles_try, Hsave].
Qed.

(** Without [--save] among the arguments the parser leaves the saving
    flag as it was. *)
Lemma parseArgs_without_save (args : list string) (o o' : Options) :
  "--save" ∉ args → parseArgs args o = inr o' → bSaveImages o' = bSaveImages o.
Proof.
  remember (length args) as n eqn:Hn.
  revert args o Hn. induction n as [n IH] using lt_wf_ind.
  intros [|arg [|v rest]] o Hn Hno.
  - intros [= <-]. reflexivity.
  - cbn [parseArgs]. apply not_elem_of_cons in Hno as [Harg _].
    rewrite (proj2 (String.eqb_neq arg "--save")) by congruence. discriminate.
  - rewrite parseArgs_cons2.
    apply not_elem_of_cons in Hno as [Harg Hno].
    apply not_elem_of_cons in Hno as [Hv Hno].
    rewrite (proj2 (String.eqb_neq arg "--save")) by congruence.
    destruct (String.eqb arg "--detector");
      [intros H; apply (IH (length rest)) in H; [exact H|subst n; simpl; lia|reflexivity|exact Hno]|].
    destruct (String.eqb arg "--descriptor");
      [intros H; apply (IH (length rest)) in H; [exact H|subst n; simpl; lia|reflexivity|exact Hno]|].
    destruct (String.eqb arg "--matcher");
      [intros H; apply (IH (length rest)) in H; [exact H|subst n; simpl; lia|reflexivity|exact Hno]|].
    destruct (String.eqb arg "--selector");
      [intros H; apply (IH (length rest)) in H; [exact H|subst n; simpl; lia|reflexivity|exact Hno]|].
    discriminate.
Qed.

(** X3.  When [--save] is not among the arguments, [main] writes no
    image file, whatever else happens. *)
Theorem no_save_no_image_files (argv : list string) :
  "--save" ∉ argv → imageFiles (main argv).1 = [].
Proof.
  intros Hno. unfold main.
  destruct (parseArgs argv defaultOptions) as [arg|o] eqn:Hparse; [reflexivity|].
  apply parseArgs_without_save in Hparse; [|exact Hno].
  cbv beta iota delta [mbind IO_bind mret IO_ret write_keypointLog write_matchLog].
  match goal with |- context [sweep _ _ _ ?w0] =>
    pose proof (leaves_imageFiles_sweep o (detectorTypesOf o) (descriptorTypesOf o)
                  Hparse w0) as Hsweep;
    destruct (sweep o (detectorTypesOf o) (descriptorTypesOf o) w0) as [w1 [[]| |]]
  end; exact Hsweep.
Qed.

Lemma logsOnly_try (o : Options) (det desc : string) :
  logsOnly (keypointRowOf det (imageIndices imgStartIndex imgEndIndex))
           (matchRowOf det desc (tail (imageIndices imgStartIndex imgEndIndex)))
           (tryCombination o det desc).
Proof.
  unfold tryCombination. apply logsOnly_try_catch.
  - apply logsOnly_run.
  - intros e. apply logsOnly_write_cerr.
Qed.

Lemma logsOnly_sweep (o : Options) (dets descs : list string) :
  logsOnly (λ l, ∃ det, det ∈ dets
                        ∧ keypointRowOf det (imageIndices imgStartIndex imgEndIndex) l)
           (λ l, ∃ p, p ∈ validPairings dets descs
                      ∧ matchRowOf p.1 p.2 (tail (imageIndices imgStartIndex imgEndIndex)) l)
           (sweep o dets descs).
Proof.
  unfold sweep. apply logsOnly_for_each. intros det Hdet.
  apply logsOnly_for_each. intros desc Hdesc.
  destruct (skipPairing det desc) eqn:Hskip; [apply logsOnly_ret|].
  eapply logsOnly_weaken; [| |apply logsOnly_try].
  - intros l Hl. exists det. split; assumption.
  - intros l Hl. exists (det, desc). split; [|exact Hl].
    apply validPairings_elem. repeat split; assumption.
Qed.

(** X4.  When the arguments parse, the keypoint log [main] writes is the
    header followed by rows for images 0 to 9 of detectors of the sweep,
    and the match log is the header followed by rows for images 1 to 9
    of valid pairings of the sweep; so no match row pairs the AKAZE
    descriptor with another detector.  This holds whatever combinations
    fail. *)
Theorem main_logs_rows_of_the_sweep (argv : list string) (o : Options) :
  parseArgs argv defaultOptions = inr o →
  ∃ keypointRows matchRows,
    keypointLog (main argv).1 = KeypointHeader :: keypointRows
    ∧ matchLog (main argv).1 = MatchHeader :: matchRows
    ∧ Forall (λ l, ∃ i det, 0 ≤ i ≤ 9 ∧ det ∈ detectorTypesOf o
                            ∧ keypointRowIndex l = Some i
                            ∧ keypointRowDetector l = Some det) keypointRows
    ∧ Forall (λ l, ∃ i p, 1 ≤ i ≤ 9
                          ∧ p ∈ validPairings (detectorTypesOf o) (descriptorTypesOf o)
                          ∧ matchRowIndex l = Some i
                          ∧ matchRowPairing l = Some p) matchRows
    ∧ Forall (λ l, ∀ det, matchRowPairing l = Some (det, "AKAZE") → det = "AKAZE")
             matchRows.
Proof.
  intros Hparse. unfold main. rewrite Hparse.
  cbv beta iota delta [mbind IO_bind mret IO_ret write_keypointLog write_matchLog].
  match goal with |- context [sweep _ _ _ ?w0] =>
    destruct (logsOnly_sweep o (detectorTypesOf o) (descriptorTypesOf o) w0)
      as (krows & mrows & Hk & Hm & HK & HM);
    destruct (sweep o (detectorTypesOf o) (descriptorTypesOf o) w0) as [w1 r]
  end.
  cbn [fst keypointLog matchLog World_empty app] in Hk, Hm.
  assert (Hidx : ∀ i, i ∈ imageIndices imgStartIndex imgEndIndex → 0 ≤ i ≤ 9).
  { intros i Hi. vm_compute in Hi.
    repeat (apply elem_of_cons in Hi as [->|Hi]; [lia|]). inversion Hi. }
  assert (Hidx' : ∀ i, i ∈ tail (imageIndices imgStartIndex imgEndIndex) → 1 ≤ i ≤ 9).
  { intros i Hi. vm_compute in Hi.
    repeat (apply elem_of_cons in Hi as [->|Hi]; [lia|]). inversion Hi. }
  assert (HM' : Forall (λ l, ∃ i p, 1 ≤ i ≤ 9
                   ∧ p ∈ validPairings (detectorTypesOf o) (descriptorTypesOf o)
                   ∧ matchRowIndex l = Some i ∧ matchRowPairing l = Some p) mrows).
  { eapply Forall_impl; [exact HM|].
    intros l ([det desc] & Hp & i & Hi & Hli & Hlp). exists i, (det, desc).
    split; [apply Hidx', Hi|]. repeat split; assumption. }
  exists krows, mrows.
  assert (Hlogs : keypointLog (w1, r).1 = KeypointHeader :: krows
                  ∧ matchLog (w1, r).1 = MatchHeader :: mrows) by (split; assumption).
  destruct Hlogs as [Hk' Hm'].
  split; [destruct r as [[]| |]; exact Hk'|].
  split; [destruct r as [[]| |]; exact Hm'|].
  split; [|split; [exact HM'|]].
  - eapply Forall_impl; [exact HK|].
    intros l (det & Hdet & i & Hi & Hli & Hld). exists i, det.
    split; [apply Hidx, Hi|]. repeat split; assumption.
  - eapply Forall_impl; [exact HM'|].
    intros l (i & [det desc] & _ & Hp & _ & Hlp) det' Hl.
    rewrite Hlp in Hl. injection Hl as -> ->.
    apply validPairings_elem in Hp as (_ & _ & Hskip).
    unfold skipPairing in Hskip. cbn in Hskip.
    destruct (String.eqb_spec det' "AKAZE") as [Heq|Hne]; [exact Heq | discriminate].
Qed.

End MainEffects.

(** ** The further properties on the executable library *)

Lemma full_run_log_rows_witness :
  let V := Toy.vision Toy.sequence in
  ∃ w' keypointRows matchRows,
    runCombination "FAST" "ORB" "MAT_BF" "SEL_KNN" imgBasePath imgPrefix imgFileType
                   imgStartIndex imgEndIndex imgFillWidth dataBufferSize true false
                   World_empty = (w', Ok ())
    ∧ keypointLog w' = keypointRows
    ∧ matchLog w' = matchRows
    ∧ length keypointRows = 10%nat
    ∧ length matchRows = 9%nat.
Proof.
  intros V.
  pose (run := runCombination "FAST" "ORB" "MAT_BF" "SEL_KNN" imgBasePath imgPrefix
                 imgFileType imgStartIndex imgEndIndex imgFillWidth dataBufferSize
                 true false World_empty).
  assert (Hok : returned run.2 = true) by (vm_compute; reflexivity).
  destruct run as [w' [[]| |]] eqn:Hrun; try discriminate Hok.
  destruct (full_run_log_rows (V := V) "FAST" "ORB" "MAT_BF" "SEL_KNN" imgBasePath
              imgPrefix imgFileType imgStartIndex imgEndIndex imgFillWidth dataBufferSize
              true false World_empty w' ltac:(unfold dataBufferSize; lia) Hrun)
    as (krows & mrows & Hk & Hm & Hkidx & Hmidx & _).
  exists w', krows, mrows.
  split; [exact Hrun|]. split; [exact Hk|]. split; [exact Hm|].
  apply (f_equal length) in Hkidx. apply (f_equal length) in Hmidx.
  rewrite !length_fmap in Hkidx. rewrite !length_fmap in Hmidx.
  split; [exact Hkidx | exact Hmidx].
Defined.

Lemma no_save_no_image_files_witness :
  let V := Toy.vision Toy.sequence in
  imageFiles (main ["--detector"; "fast"; "--descriptor"; "orb"]).1 = [].
Proof.
  intros V. apply (no_save_no_image_files (V := V)).
  intros Hin. repeat (apply elem_of_cons in Hin as [Hin|Hin]; [discriminate Hin|]).
  inversion Hin.
Defined.

Lemma main_logs_rows_of_the_sweep_witness :
  let V := Toy.vision Toy.sequenceWithout2 in
  ∃ keypointRows matchRows,
    keypointLog (main ["--detector"; "fast"]).1 = KeypointHeader :: keypointRows
    ∧ matchLog (main ["--detector"; "fast"]).1 = MatchHeader :: matchRows
    ∧ Forall (λ l, ∀ det, matchRowPairing l = Some (det, "AKAZE") → det = "AKAZE")
             matchRows.
Proof.
  intros V.
  destruct (main_logs_rows_of_the_sweep (V := V) ["--detector"; "fast"]
              (set_singleDetector "FAST" defaultOptions) eq_refl)
    as (krows & mrows & Hk & Hm & _ & _ & Hpair).
  exists krows, mrows. split; [exact Hk|]. split; [exact Hm | exact Hpair].
Defined.

(** ** Buffer capacities below 2 *)

Section SmallCapacity.
Context `{V : VisionLibrary}.
Variables (detectorType descriptorType matcherType selectorType : string).
Variables (imgBasePath imgPrefix imgFileType : string).
Variables (imgStartIndex imgEndIndex imgFillWidth : Z).
Variables (bFocusOnVehicle bSaveImages : bool).

Local Abbreviation cLoad cap :=
  (loadDetectDescribe detectorType descriptorType imgBasePath imgPrefix imgFileType
                      imgStartIndex imgFillWidth cap bFocusOnVehicle).
Local Abbreviation cBody cap :=
  (processImage detectorType descriptorType matcherType selectorType
                imgBasePath imgPrefix imgFileType imgStartIndex imgFillWidth
                cap bFocusOnVehicle bSaveImages).
Local Abbreviation cLoop cap :=
  (imageLoop detectorType descriptorType matcherType selectorType
             imgBasePath imgPrefix imgFileType imgStartIndex imgFillWidth
             cap bFocusOnVehicle bSaveImages).
Local Abbreviation cRun cap :=
  (runCombination detectorType descriptorType matcherType selectorType
                  imgBasePath imgPrefix imgFileType imgStartIndex imgEndIndex
                  imgFillWidth cap bFocusOnVehicle bSaveImages).

Lemma leaves_matchLog_load (cap : Z) (dataBuffer : list DataFrame) (imgIndex : Z) :
  leaves matchLog (cLoad cap dataBuffer imgIndex).
Proof.
  unfold loadDetectDescribe, logKeypointStats.
  repeat first
    [ apply leaves_liftO
    | apply leaves_bind; [|intros ?]
    | match goal with |- leaves _ (let '(_, _) := ?p in _) => destruct p end
    | intros w; reflexivity ].
Qed.

Lemma retained_one {A} (dataBuffer : list A) :
  (length dataBuffer ≤ 1)%nat → retained 1 dataBuffer = [].
Proof. destruct dataBuffer as [|a [|b d]]; simpl; [reflexivity | reflexivity | lia]. Qed.

(** With capacity 1 the buffer holds one frame after each push, and the
    matching step finds nothing to match. *)
Lemma processImage_single (dataBuffer : list DataFrame) (imgIndex : Z) (w : World) :
  (length dataBuffer ≤ 1)%nat →
  matchLog (cBody 1 dataBuffer imgIndex w).1 = matchLog w
  ∧ imageFiles (cBody 1 dataBuffer imgIndex w).1 = imageFiles w
  ∧ ∀ dataBuffer', (cBody 1 dataBuffer imgIndex w).2 = Ok dataBuffer' →
                   (length dataBuffer' ≤ 1)%nat.
Proof.
  intros Hlen.
  pose proof (leaves_matchLog_load 1 dataBuffer imgIndex w) as Hm.
  pose proof (leaves_imageFiles_load detectorType descriptorType imgBasePath imgPrefix
                imgFileType imgStartIndex imgFillWidth 1 bFocusOnVehicle
                dataBuffer imgIndex w) as Hi.
  unfold processImage. cbv beta iota delta [mbind IO_bind].
  destruct (cLoad 1 dataBuffer imgIndex w) as [w1 [d1| |]] eqn:Hload;
    simpl in Hm, Hi; try (repeat split; [exact Hm | exact Hi | discriminate]).
  apply loadDetectDescribe_Ok in Hload as (img & kps & kps' & descs & _ & _ & _ & -> & _).
  rewrite retained_one by exact Hlen. simpl app.
  rewrite matchLatest_single. simpl.
  repeat split; [exact Hm | exact Hi |]. intros d' [= <-]. simpl. lia.
Qed.

Lemma imageLoop_single (indices : list Z) (dataBuffer : list DataFrame) (w : World) :
  (length dataBuffer ≤ 1)%nat →
  matchLog (cLoop 1 indices dataBuffer w).1 = matchLog w
  ∧ imageFiles (cLoop 1 indices dataBuffer w).1 = imageFiles w.
Proof.
  revert dataBuffer w. induction indices as [|i rest IH]; intros dataBuffer w Hlen; simpl.
  - split; reflexivity.
  - destruct (processImage_single dataBuffer i w Hlen) as (Hm & Hi & Hnext).
    cbv beta iota delta [mbind IO_bind].
    destruct (cBody 1 dataBuffer i w) as [w1 [d1| |]]; simpl in Hm, Hi, Hnext;
      try (split; [exact Hm | exact Hi]).
    destruct (IH d1 w1 (Hnext d1 eq_refl)) as [Hm' Hi'].
    split; [rewrite Hm'; exact Hm | rewrite Hi'; exact Hi].
Qed.

(** X5.  With a buffer capacity of 1, a combination never matches: it
    writes no match row and no match image, whatever the images, the
    names and the saving flag; matching is off without any error. *)
Theorem single_frame_buffer_never_matches (w : World) :
  matchLog (cRun 1 w).1 = matchLog w
  ∧ imageFiles (cRun 1 w).1 = imageFiles w
  ∧ cerr (cRun 1 w).1 = cerr w.
Proof.
  pose proof (imageLoop_cerr detectorType descriptorType matcherType selectorType
                imgBasePath imgPrefix imgFileType imgStartIndex imgFillWidth
                1 bFocusOnVehicle bSaveImages
                (imageIndices imgStartIndex imgEndIndex) [] w) as Hcerr.
  destruct (imageLoop_single (imageIndices imgStartIndex imgEndIndex) [] w) as [Hm Hi];
    [simpl; lia|].
  unfold runCombination. cbv beta iota delta [mbind IO_bind mret IO_ret].
  destruct (cLoop 1 (imageIndices imgStartIndex imgEndIndex) [] w) as [w1 [d1| |]];
    simpl in *; repeat split; assumption.
Qed.

Lemma imageIndices_first (start stop : Z) :
  ∃ rest, imageIndices start stop = 0 :: rest.
Proof. unfold imageIndices. cbn [seq fmap list_fmap]. eexists. reflexivity. Qed.

(** X6.  With a buffer capacity of 0, the first image that loads makes
    the runner call [pop_front] on the empty buffer: the combination has
    undefined behaviour before anything is detected or logged. *)
Theorem zero_capacity_pops_empty_buffer (img : Mat) (w : World) :
  loadGrayscaleImage (imgPath imgBasePath imgPrefix imgFileType imgStartIndex
                              imgFillWidth 0) = Ok img →
  cRun 0 w = (w, Undefined).
Proof.
  intros Himg. unfold runCombination.
  destruct (imageIndices_first imgStartIndex imgEndIndex) as [rest ->].
  cbn [imageLoop]. unfold processImage, loadDetectDescribe.
  cbv beta iota delta [mbind IO_bind liftO]. rewrite Himg. reflexivity.
Qed.

End SmallCapacity.

Lemma zero_capacity_pops_empty_buffer_witness :
  let V := Toy.vision Toy.sequence in
  (runCombination "FAST" "ORB" "MAT_BF" "SEL_KNN" imgBasePath imgPrefix imgFileType
                  imgStartIndex imgEndIndex imgFillWidth 0 true false World_empty).2
  = Undefined.
Proof.
  intros V.
  rewrite (zero_capacity_pops_empty_buffer (V := V) "FAST" "ORB" "MAT_BF" "SEL_KNN"
             imgBasePath imgPrefix imgFileType imgStartIndex imgEndIndex imgFillWidth
             true false (Toy.frame 0) World_empty).
  - reflexivity.
  - vm_compute. reflexivity.
Defined.

(** ** Names and the failures they cause *)

Section Names.
Context `{V : VisionLibrary}.

(** X7.  The names of the two lists of [main] are the names
    [detKeypoints] and [descKeypoints] know.  A detector name of the
    list reaches the library with a detector, except SIFT without the
    contrib module, which throws [runtime_error]; any other name throws
    [invalid_argument] with the name in the message.  A descriptor name
    of the list reaches the library with an extractor, except SIFT,
    BRIEF and FREAK without the contrib module, which throw
    [runtime_error] with the name in the message; any other name throws
    [invalid_argument]. *)
Theorem sweep_names_are_the_known_names (name : string) (keypoints : list cv.KeyPoint)
    (img descriptors : Mat) :
  (name ∈ allDetectorTypes →
     if bool_decide (name = "SIFT") && negb HAS_XFEATURES2D
     then detKeypoints keypoints img name
          = Throw (runtime_error "detKeypoints: SIFT requires opencv-contrib (xfeatures2d).")
     else ∃ detector, detKeypoints keypoints img name = detect detector img keypoints)
  ∧ (name ∉ allDetectorTypes →
     detKeypoints keypoints img name
     = Throw (invalid_argument ("detKeypoints: unknown detectorType '" +:+ name +:+ "'")))
  ∧ (name ∈ allDescriptorTypes →
     if bool_decide (name ∈ ["SIFT"; "BRIEF"; "FREAK"]) && negb HAS_XFEATURES2D
     then descKeypoints keypoints img descriptors name
          = Throw (runtime_error ("descKeypoints: " +:+ name
                                  +:+ " requires opencv-contrib (xfeatures2d)."))
     else ∃ extractor, descKeypoints keypoints img descriptors name
                       = compute extractor img keypoints)
  ∧ (name ∉ allDescriptorTypes →
     descKeypoints keypoints img descriptors name
     = Throw (invalid_argument ("descKeypoints: unknown descriptorType '" +:+ name +:+ "'"))).
Proof.
  split; [|split; [apply detKeypoints_unknown|split; [|apply descKeypoints_unknown]]].
  - unfold allDetectorTypes. intros H.
    repeat (apply elem_of_cons in H as [->|H]);
      try (apply elem_of_nil in H; contradiction);
      unfold detKeypoints, createDetector; cbn;
      destruct HAS_XFEATURES2D; cbn; try reflexivity; eexists; reflexivity.
  - unfold allDescriptorTypes. intros H.
    repeat (apply elem_of_cons in H as [->|H]);
      try (apply elem_of_nil in H; contradiction);
      unfold descKeypoints, createExtractor; cbn;
      destruct HAS_XFEATURES2D; cbn; try reflexivity; eexists; reflexivity.
Qed.

End Names.

(** ** Failures at the first image *)

Section FirstImage.
Context `{V : VisionLibrary}.
Variables (detectorType descriptorType matcherType selectorType : string).
Variables (imgBasePath imgPrefix imgFileType : string).
Variables (imgStartIndex imgEndIndex imgFillWidth dataBufferSize : Z).
Variables (bFocusOnVehicle bSaveImages : bool).

Local Abbreviation dPath :=
  (imgPath imgBasePath imgPrefix imgFileType imgStartIndex imgFillWidth).
Local Abbreviation dRun :=
  (runCombination detectorType descriptorType matcherType selectorType
                  imgBasePath imgPrefix imgFileType imgStartIndex imgEndIndex
                  imgFillWidth dataBufferSize bFocusOnVehicle bSaveImages).

Lemma runCombination_load_throws (e : exn) (w : World) :
  loadGrayscaleImage (dPath 0) = Throw e → dRun w = (w, Throw e).
Proof.
  intros Himg. unfold runCombination.
  destruct (imageIndices_first imgStartIndex imgEndIndex) as [rest ->].
  cbn [imageLoop]. unfold processImage, loadDetectDescribe.
  cbv beta iota delta [mbind IO_bind liftO]. rewrite Himg. reflexivity.
Qed.

Lemma runCombination_detect_throws (img : Mat) (e : exn) (w : World) :
  dataBufferSize ≠ 0 →
  loadGrayscaleImage (dPath 0) = Ok img →
  detectAndFilterKeypoints img detectorType [] bFocusOnVehicle = Throw e →
  dRun w = (w, Throw e).
Proof.
  intros Hcap Himg Hdet. unfold runCombination.
  destruct (imageIndices_first imgStartIndex imgEndIndex) as [rest ->].
  cbn [imageLoop]. unfold processImage, loadDetectDescribe.
  cbv beta iota delta [mbind IO_bind liftO].
  rewrite Himg, (bufferPush_retained _ _ _ Hcap), back_snoc.
  cbn [cameraImg set_cameraImg]. rewrite Hdet. reflexivity.
Qed.

Lemma runCombination_describe_throws (img : Mat) (kps : list cv.KeyPoint) (e : exn)
    (w : World) :
  dataBufferSize ≠ 0 →
  loadGrayscaleImage (dPath 0) = Ok img →
  detectAndFilterKeypoints img detectorType [] bFocusOnVehicle = Ok kps →
  descKeypoints kps img Mat_new descriptorType = Throw e →
  dRun w = ((write_keypointLog (keypointStatsRow 0 detectorType kps) w).1, Throw e).
Proof.
  intros Hcap Himg Hdet Hdesc. unfold runCombination.
  destruct (imageIndices_first imgStartIndex imgEndIndex) as [rest ->].
  cbn [imageLoop]. unfold processImage, loadDetectDescribe, logKeypointStats.
  cbv beta iota delta [mbind IO_bind liftO].
  rewrite Himg, (bufferPush_retained _ _ _ Hcap), back_snoc.
  cbn [cameraImg set_cameraImg]. rewrite Hdet.
  cbn [write_keypointLog].
  rewrite modify_back_snoc, back_snoc.
  cbn [keypoints cameraImg set_keypoints set_cameraImg DataFrame_new].
  rewrite Hdesc. reflexivity.
Qed.

(** X9.  When the first image loads and the capacity is not 0: a
    detector that throws ends the combination with that exception and
    nothing written; an extractor that throws (an unknown descriptor
    name, a missing contrib module) ends it with that exception after
    the keypoint row of image 0 has been written, and nothing else. *)
Theorem first_image_failure_rows (img : Mat) (w : World) :
  dataBufferSize ≠ 0 →
  loadGrayscaleImage (dPath 0) = Ok img →
  (∀ e, detKeypoints [] img detectorType = Throw e → dRun w = (w, Throw e))
  ∧ (∀ kps e,
       detectAndFilterKeypoints img detectorType [] bFocusOnVehicle = Ok kps →
       descKeypoints kps img Mat_new descriptorType = Throw e →
       (dRun w).2 = Throw e
       ∧ keypointLog (dRun w).1 = keypointLog w ++ [keypointStatsRow 0 detectorType kps]
       ∧ matchLog (dRun w).1 = matchLog w
       ∧ imageFiles (dRun w).1 = imageFiles w
       ∧ cerr (dRun w).1 = cerr w).
Proof.
  intros Hcap Himg. split.
  - intros e Hdet. apply (runCombination_detect_throws img e w Hcap Himg).
    unfold detectAndFilterKeypoints. rewrite Hdet. reflexivity.
  - intros kps e Hdet Hdesc.
    rewrite (runCombination_describe_throws img kps e w Hcap Himg Hdet Hdesc).
    repeat split; reflexivity.
Qed.

End FirstImage.

Section UnknownDetector.
Context `{V : VisionLibrary}.

(** The inner loop of [main] for a detector whose combinations all end
    with the same exception and nothing logged. *)
Lemma descriptorLoop_failing (o : Options) (det : string) (e : exn) (descs : list string)
    (w : World) :
  det ≠ "AKAZE" →
  (∀ desc w0, runCombination det desc (matcherType o) (selectorType o)
                imgBasePath imgPrefix imgFileType imgStartIndex imgEndIndex
                imgFillWidth dataBufferSize bFocusOnVehicle (bSaveImages o) w0
              = (w0, Throw e)) →
  let r := for_each descs (λ desc, if skipPairing det desc then mret ()
                                   else tryCombination o det desc) w in
  r.2 = Ok ()
  ∧ keypointLog r.1 = keypointLog w
  ∧ matchLog r.1 = matchLog w
  ∧ imageFiles r.1 = imageFiles w
  ∧ cerr r.1 = cerr w ++ ((λ desc, errorReport det desc e)
                          <$> filter (λ desc, desc ≠ "AKAZE") descs).
Proof.
  intros Hdet Hrun. revert w. induction descs as [|desc descs IH]; intros w.
  - simpl. rewrite app_nil_r. repeat split; reflexivity.
  - cbn [for_each]. cbv beta. rewrite filter_cons.
    destruct (String.eqb_spec desc "AKAZE") as [Hd|Hd].
    + assert (Hskip : skipPairing det desc = true).
      { unfold skipPairing. rewrite (proj2 (String.eqb_neq det "AKAZE") Hdet).
        rewrite (proj2 (String.eqb_eq desc "AKAZE") Hd). reflexivity. }
      rewrite Hskip.
      rewrite decide_False by (intros H; apply H; exact Hd).
      cbv beta iota delta [mbind IO_bind mret IO_ret]. apply IH.
    + assert (Hskip : skipPairing det desc = false).
      { unfold skipPairing. rewrite (proj2 (String.eqb_neq desc "AKAZE") Hd). reflexivity. }
      rewrite Hskip.
      rewrite decide_True by exact Hd.
      unfold tryCombination, try_catch. cbv beta iota delta [mbind IO_bind].
      rewrite Hrun. cbn [write_cerr].
      match goal with |- context [for_each descs ?body ?w1] =>
        specialize (IH w1); cbv zeta in IH;
        destruct IH as (Hok & Hk & Hm & Hi & Hc)
      end.
      cbv zeta. split; [exact Hok|]. split; [exact Hk|]. split; [exact Hm|].
      split; [exact Hi|].
      etransitivity; [exact Hc|]. cbn. rewrite <- app_assoc. reflexivity.
Qed.

Lemma sweep_failing_detector (o : Options) (det : string) (e : exn) (descs : list string)
    (w : World) :
  det ≠ "AKAZE" →
  (∀ desc w0, runCombination det desc (matcherType o) (selectorType o)
                imgBasePath imgPrefix imgFileType imgStartIndex imgEndIndex
                imgFillWidth dataBufferSize bFocusOnVehicle (bSaveImages o) w0
              = (w0, Throw e)) →
  ∃ w', sweep o [det] descs w = (w', Ok ())
        ∧ keypointLog w' = keypointLog w
        ∧ matchLog w' = matchLog w
        ∧ imageFiles w' = imageFiles w
        ∧ cerr w' = cerr w ++ ((λ desc, errorReport det desc e)
                               <$> filter (λ desc, desc ≠ "AKAZE") descs).
Proof.
  intros Hdet Hrun.
  pose proof (descriptorLoop_failing o det e descs w Hdet Hrun) as Hloop.
  cbv zeta in Hloop. unfold sweep. cbn [for_each].
  unfold mbind at 1. unfold IO_bind at 1.
  destruct (for_each descs _ w) as [w1 [[]| |]];
    destruct Hloop as (Hok & Hrest); try discriminate Hok.
  exists w1. split; [reflexivity | exact Hrest].
Qed.

(** X8.  A detector name given on the command line that [detKeypoints]
    does not know, with a first image that loads: [main] returns 0, both
    logs hold their header only, no image is written, and the error
    stream holds one line per descriptor of the sweep other than AKAZE,
    in order, each naming the pair and the unknown detector. *)
Theorem unknown_detector_leaves_headers_only (argv : list string) (o : Options) (img : Mat) :
  parseArgs argv defaultOptions = inr o →
  singleDetector o ≠ "" →
  singleDetector o ∉ allDetectorTypes →
  loadGrayscaleImage (imgPath imgBasePath imgPrefix imgFileType imgStartIndex
                              imgFillWidth 0) = Ok img →
  (main argv).2 = Ok 0
  ∧ keypointLog (main argv).1 = [KeypointHeader]
  ∧ matchLog (main argv).1 = [MatchHeader]
  ∧ imageFiles (main argv).1 = []
  ∧ cerr (main argv).1
    = (λ desc, errorReport (singleDetector o) desc
                 (invalid_argument ("detKeypoints: unknown detectorType '"
                                    +:+ singleDetector o +:+ "'")))
      <$> filter (λ desc, desc ≠ "AKAZE") (descriptorTypesOf o).
Proof.
  intros Hparse Hset Hunknown Himg. unfold main. rewrite Hparse.
  assert (Hdets : detectorTypesOf o = [singleDetector o]).
  { unfold detectorTypesOf. apply String.eqb_neq in Hset. rewrite Hset. reflexivity. }
  rewrite Hdets.
  assert (Hnot : singleDetector o ≠ "AKAZE").
  { intros Heq. apply Hunknown. rewrite Heq. unfold allDetectorTypes.
    repeat (apply list_elem_of_here || apply list_elem_of_further). }
  cbv beta iota delta [mbind IO_bind mret IO_ret write_keypointLog write_matchLog].
  match goal with |- context [sweep _ _ _ ?w0] =>
    destruct (sweep_failing_detector o (singleDetector o)
                (invalid_argument ("detKeypoints: unknown detectorType '"
                                   +:+ singleDetector o +:+ "'"))
                (descriptorTypesOf o) w0 Hnot)
      as (w1 & -> & Hk & Hm & Hi & Hc)
  end.
  { intros desc w0.
    apply (runCombination_detect_throws (singleDetector o) desc (matcherType o)
             (selectorType o) imgBasePath imgPrefix imgFileType imgStartIndex
             imgEndIndex imgFillWidth dataBufferSize bFocusOnVehicle
             (bSaveImages o) img _ w0 ltac:(discriminate) Himg).
    unfold detectAndFilterKeypoints.
    rewrite (detKeypoints_unknown _ _ _ Hunknown). reflexivity. }
  cbn [fst snd].
  split; [reflexivity|]. split; [exact Hk|]. split; [exact Hm|].
  split; [exact Hi | exact Hc].
Qed.

End UnknownDetector.

Lemma first_image_failure_rows_witness :
  let V := Toy.vision Toy.sequence in
  let run := runCombination "FAST" "BRIEF" "MAT_BF" "SEL_KNN" imgBasePath imgPrefix
               imgFileType imgStartIndex imgEndIndex imgFillWidth dataBufferSize
               true false World_empty in
  run.2 = Throw (runtime_error "descKeypoints: BRIEF requires opencv-contrib (xfeatures2d).")
  ∧ keypointRowIndex <$> keypointLog run.1 = [Some 0]
  ∧ matchLog run.1 = [].
Proof.
  intros V run.
  destruct (first_image_failure_rows (V := V) "FAST" "BRIEF" "MAT_BF" "SEL_KNN"
              imgBasePath imgPrefix imgFileType imgStartIndex imgEndIndex imgFillWidth
              dataBufferSize true false (Toy.frame 0) World_empty)
    as [_ Hdesc].
  - discriminate.
  - vm_compute. reflexivity.
  - destruct (Hdesc (eraseOutsideROI (imap Toy.keypointOfRow (Toy.frame 0)))
                (runtime_error "descKeypoints: BRIEF requires opencv-contrib (xfeatures2d).")
                eq_refl eq_refl)
      as (Hthrow & Hk & Hm & _).
    split; [exact Hthrow|]. split; [|exact Hm].
    unfold run. rewrite Hk. cbn [keypointLog World_empty app fmap list_fmap].
    rewrite keypointStatsRow_index. reflexivity.
Defined.

Lemma unknown_detector_leaves_headers_only_witness :
  let V := Toy.vision Toy.sequence in
  (main ["--detector"; "surf"]).2 = Ok 0
  ∧ keypointLog (main ["--detector"; "surf"]).1 = [KeypointHeader]
  ∧ matchLog (main ["--detector"; "surf"]).1 = [MatchHeader]
  ∧ length (cerr (main ["--detector"; "surf"]).1) = 5%nat.
Proof.
  intros V.
  destruct (unknown_detector_leaves_headers_only (V := V) ["--detector"; "surf"]
              (set_singleDetector "SURF" defaultOptions) (Toy.frame 0))
    as (Hok & Hk & Hm & _ & Hc).
  - reflexivity.
  - discriminate.
  - unfold allDetectorTypes. intros Hin.
    repeat (apply elem_of_cons in Hin as [Hin|Hin]; [discriminate Hin|]).
    inversion Hin.
  - vm_compute. reflexivity.
  - split; [exact Hok|]. split; [exact Hk|]. split; [exact Hm|].
    rewrite Hc. reflexivity.
Defined.

(** ** A matcher that refuses its configuration *)

Section RefusedMatcher.
Context `{V : VisionLibrary}.

Lemma matchDescriptors_refused (descriptorType mt st : string) :
  mt ∉ ["MAT_BF"; "MAT_FLANN"] ∨ st ∉ ["SEL_NN"; "SEL_KNN"] →
  ∃ e, ∀ kPtsSource kPtsRef descSource descRef matches,
    matchDescriptors kPtsSource kPtsRef descSource descRef matches descriptorType mt st
    = Throw e.
Proof.
  intros Hbad.
  destruct (decide (mt ∈ ["MAT_BF"; "MAT_FLANN"])) as [Hmt|Hmt].
  - destruct Hbad as [Hbad|Hst]; [contradiction|].
    eexists. intros. apply matchDescriptors_unknown_selector; assumption.
  - eexists. intros. apply matchDescriptors_unknown_matcher; assumption.
Qed.

Lemma matchLatest_refused (det desc mt st : string) (save : bool)
    (dataBuffer : list DataFrame) (imgIndex : Z) :
  mt ∉ ["MAT_BF"; "MAT_FLANN"] ∨ st ∉ ["SEL_NN"; "SEL_KNN"] →
  leaves matchLog (matchLatest det desc mt st save dataBuffer imgIndex)
  ∧ leaves imageFiles (matchLatest det desc mt st save dataBuffer imgIndex).
Proof.
  intros Hbad. destruct (matchDescriptors_refused desc mt st Hbad) as [e He].
  unfold matchLatest.
  destruct (_ >? 1); [|split; apply leaves_ret].
  split; intros w; cbv beta iota delta [mbind IO_bind liftO];
    (destruct (at_ _ _) as [prev| |]; [|reflexivity|reflexivity]);
    (destruct (back _) as [cur| |]; [|reflexivity|reflexivity]);
    rewrite He; reflexivity.
Qed.

Lemma imageLoop_refused (det desc mt st base pre ext : string) (start fill cap : Z)
    (focus save : bool) (indices : list Z) (dataBuffer : list DataFrame) :
  mt ∉ ["MAT_BF"; "MAT_FLANN"] ∨ st ∉ ["SEL_NN"; "SEL_KNN"] →
  leaves matchLog (imageLoop det desc mt st base pre ext start fill cap focus save
                             indices dataBuffer)
  ∧ leaves imageFiles (imageLoop det desc mt st base pre ext start fill cap focus save
                                 indices dataBuffer).
Proof.
  intros Hbad. revert dataBuffer.
  induction indices as [|i rest IH]; intros dataBuffer; simpl.
  - split; apply leaves_ret.
  - split; (apply leaves_bind; [|intros d; apply IH]);
      unfold processImage; (apply leaves_bind; [|intros d; apply matchLatest_refused, Hbad]).
    + apply leaves_matchLog_load.
    + apply leaves_imageFiles_load.
Qed.

Lemma sweep_refused (o : Options) (dets descs : list string) :
  matcherType o ∉ ["MAT_BF"; "MAT_FLANN"] ∨ selectorType o ∉ ["SEL_NN"; "SEL_KNN"] →
  leaves matchLog (sweep o dets descs) ∧ leaves imageFiles (sweep o dets descs).
Proof.
  intros Hbad.
  split; unfold sweep; apply leaves_for_each; intros det;
    apply leaves_for_each; intros desc;
    (destruct (skipPairing det desc); [apply leaves_ret|]);
    unfold tryCombination;
    (apply leaves_try_catch; [|intros e w; reflexivity]);
    unfold runCombination;
    (apply leaves_bind; [|intros d; apply leaves_ret]);
    apply imageLoop_refused, Hbad.
Qed.

(** X10.  When the matcher name is none of MAT_BF and MAT_FLANN, or the
    selector name none of SEL_NN and SEL_KNN, [main] writes no match row
    and no match image, whatever the images and even with [--save]: the
    match log holds its header only. *)
Theorem refused_matcher_logs_no_match (argv : list string) (o : Options) :
  parseArgs argv defaultOptions = inr o →
  matcherType o ∉ ["MAT_BF"; "MAT_FLANN"] ∨ selectorType o ∉ ["SEL_NN"; "SEL_KNN"] →
  matchLog (main argv).1 = [MatchHeader] ∧ imageFiles (main argv).1 = [].
Proof.
  intros Hparse Hbad. unfold main. rewrite Hparse.
  cbv beta iota delta [mbind IO_bind mret IO_ret write_keypointLog write_matchLog].
  destruct (sweep_refused o (detectorTypesOf o) (descriptorTypesOf o) Hbad) as [Hm Hi].
  match goal with |- context [sweep _ _ _ ?w0] =>
    specialize (Hm w0); specialize (Hi w0);
    destruct (sweep o (detectorTypesOf o) (descriptorTypesOf o) w0) as [w1 [[]| |]]
  end; split; assumption.
Qed.

End RefusedMatcher.

Lemma refused_matcher_logs_no_match_witness :
  let V := Toy.vision Toy.sequence in
  matchLog (main ["--selector"; "ratio_test"; "--save"]).1 = [MatchHeader]
  ∧ imageFiles (main ["--selector"; "ratio_test"; "--save"]).1 = [].
Proof.
  intros V.
  apply (refused_matcher_logs_no_match (V := V) ["--selector"; "ratio_test"; "--save"]
           (set_bSaveImages true (set_selectorType "RATIO_TEST" defaultOptions))).
  - reflexivity.
  - right. intros Hin.
    repeat (apply elem_of_cons in Hin as [Hin|Hin]; [discriminate Hin|]).
    inversion Hin.
Defined.

(** ** The case of the values on the command line *)

Section ValueCase.
Context `{V : VisionLibrary}.

(** X11.  The value of [--detector], [--descriptor], [--matcher] and
    [--selector] is taken without regard to case: after arguments that
    parse, giving a value or its upper-case form makes no difference to
    what [main] writes and returns. *)
Theorem flag_values_ignore_case (pre rest : list string) (o : Options) (flag v : string) :
  parseArgs pre defaultOptions = inr o →
  flag ∈ ["--detector"; "--descriptor"; "--matcher"; "--selector"] →
  main (pre ++ flag :: v :: rest) = main (pre ++ flag :: toUpperCase v :: rest).
Proof.
  intros Hpre Hflag. unfold main.
  rewrite !(parseArgs_app pre _ defaultOptions o Hpre), !parseArgs_cons2.
  rewrite toUpperCase_idempotent.
  repeat (apply elem_of_cons in Hflag as [->|Hflag]; [reflexivity|]).
  inversion Hflag.
Qed.

End ValueCase.

Lemma flag_values_ignore_case_witness :
  let V := Toy.vision Toy.sequence in
  main ["--save"; "--detector"; "fast"] = main ["--save"; "--detector"; "FAST"].
Proof.
  intros V.
  apply (flag_values_ignore_case (V := V) ["--save"] [] (set_bSaveImages true defaultOptions)
           "--detector" "fast").
  - reflexivity.
  - apply list_elem_of_here.
Defined.

(** ** The corner branches of [detKeypoints] *)

Lemma flt_trans (a b c : float) : flt a b = true → flt b c = true → flt a c = true.
Proof.
  rewrite !flt_key.
  intros ([[a1 a2] a3] & [[b1 b2] b3] & Ha & Hb & Hab)
         ([[b1' b2'] b3'] & [[c1 c2] c3] & Hb' & Hc & Hbc).
  rewrite Hb in Hb'. injection Hb' as <- <- <-.
  exists (a1, a2, a3), (c1, c2, c3). repeat split; try assumption.
  unfold keyLt in *. lia.
Qed.

Lemma upgraded_refl (P : cv.KeyPoint → Prop) (kp : cv.KeyPoint) : upgraded P kp kp.
Proof. left. reflexivity. Qed.

Lemma upgraded_trans (P : cv.KeyPoint → Prop) (a b c : cv.KeyPoint) :
  upgraded P a b → upgraded P b c → upgraded P a c.
Proof.
  intros [->|[Hb Hab]] [->|[Hc Hbc]].
  - left. reflexivity.
  - right. split; assumption.
  - right. split; assumption.
  - right. split; [exact Hc | eapply flt_trans; eassumption].
Qed.

Lemma upgraded_mono (P Q : cv.KeyPoint → Prop) (a b : cv.KeyPoint) :
  (∀ kp, P kp → Q kp) → upgraded P a b → upgraded Q a b.
Proof. intros HPQ [->|[Hb Hab]]; [left; reflexivity | right; split; auto]. Qed.

Lemma grownBy_refl (P : cv.KeyPoint → Prop) (kps : list cv.KeyPoint) : grownBy P 0 kps kps.
Proof.
  exists kps, []. rewrite app_nil_r. split; [reflexivity|].
  split; [|split; [constructor | reflexivity]].
  induction kps; constructor; [apply upgraded_refl | assumption].
Qed.

Lemma grownBy_mono (P Q : cv.KeyPoint → Prop) (n m : nat) (kps out : list cv.KeyPoint) :
  (∀ kp, P kp → Q kp) → (n ≤ m)%nat → grownBy P n kps out → grownBy Q m kps out.
Proof.
  intros HPQ Hnm (replaced & added & -> & Hrep & Hadd & Hlen).
  exists replaced, added. split; [reflexivity|].
  split; [|split; [|lia]].
  - eapply Forall2_impl; [exact Hrep|]. intros a b. apply upgraded_mono, HPQ.
  - eapply Forall_impl; [exact Hadd | exact HPQ].
Qed.

Lemma grownBy_trans (P : cv.KeyPoint → Prop) (n m : nat) (kps mid out : list cv.KeyPoint) :
  grownBy P n kps mid → grownBy P m mid out → grownBy P (n + m) kps out.
Proof.
  intros (rep1 & add1 & -> & Hrep1 & Hadd1 & Hlen1) (rep2 & add2 & -> & Hrep2 & Hadd2 & Hlen2).
  apply Forall2_app_inv_l in Hrep2 as (rep2a & rep2b & Ha & Hb & ->).
  exists rep2a, (rep2b ++ add2). split; [rewrite app_assoc; reflexivity|].
  split; [|split].
  - clear -Hrep1 Ha. revert rep2a Ha.
    induction Hrep1 as [|a b kps rep1 Hab _ IH]; intros rep2a Ha.
    + inversion Ha. constructor.
    + inversion Ha as [|b' c rep1' rep2a' Hbc Hrest]; subst.
      constructor; [eapply upgraded_trans; eassumption | apply IH, Hrest].
  - apply Forall_app. split; [|exact Hadd2].
    clear -Hadd1 Hb. revert rep2b Hb.
    induction Hadd1 as [|a add1 Ha _ IH]; intros rep2b Hb.
    + inversion Hb. constructor.
    + inversion Hb as [|a' c add1' rep2b' Hac Hrest]; subst.
      constructor; [|apply IH, Hrest].
      destruct Hac as [->|[Hc _]]; assumption.
  - rewrite length_app. apply Forall2_length in Hb. lia.
Qed.

Section HarrisLoops.
Variable overlap : cv.KeyPoint → cv.KeyPoint → float.

Lemma overlapLoop_upgrades (kp : cv.KeyPoint) (kps : list cv.KeyPoint) :
  Forall2 (upgraded (λ new, new = kp)) kps (Harris.overlapLoop overlap kp kps).1.
Proof.
  induction kps as [|existing rest IH]; cbn [Harris.overlapLoop]; [constructor|].
  destruct (flt Harris.maxOverlap (overlap kp existing)).
  - cbn [fst]. constructor.
    + destruct (flt (cv.response existing) (cv.response kp)) eqn:Hlt;
        [right; split; [reflexivity | exact Hlt] | left; reflexivity].
    + clear IH. induction rest; constructor; [apply upgraded_refl | assumption].
  - destruct (Harris.overlapLoop overlap kp rest) as [rest' b]. cbn [fst] in *.
    constructor; [apply upgraded_refl | exact IH].
Qed.

Lemma strongPixel_true (value : float) :
  strongPixel value = true ↔ ∃ r, int_of_float value = Ok r ∧ Harris.minResponse < r.
Proof.
  unfold strongPixel. destruct (int_of_float value) as [r| |].
  - destruct (Z.leb_spec r Harris.minResponse); cbn; split.
    + discriminate.
    + intros (r' & [= <-] & Hr). lia.
    + intros _. exists r. split; [reflexivity | assumption].
    + reflexivity.
  - split; [discriminate | intros (r & H & _); discriminate].
  - split; [discriminate | intros (r & H & _); discriminate].
Qed.

Lemma pixel_grows (i j : Z) (value : float) (kps out : list cv.KeyPoint) :
  Harris.pixel overlap i j value kps = Ok out →
  grownBy (λ kp, ∃ r, int_of_float value = Ok r ∧ Harris.minResponse < r
                      ∧ kp = Harris.corner i j r)
          (if strongPixel value then 1 else 0) kps out.
Proof.
  unfold Harris.pixel, strongPixel.
  destruct (int_of_float value) as [r| |]; cbn [mbind outcome_bind]; try discriminate.
  destruct (Z.leb_spec r Harris.minResponse) as [Hle|Hgt]; cbn [negb].
  - intros [= <-]. apply grownBy_refl.
  - pose proof (overlapLoop_upgrades (Harris.corner i j r) kps) as Hup.
    destruct (Harris.overlapLoop overlap (Harris.corner i j r) kps) as [kps' b].
    cbn [fst] in Hup.
    assert (Hup' : Forall2 (upgraded (λ kp, ∃ r0, Ok r = Ok r0 ∧ Harris.minResponse < r0
                                                 ∧ kp = Harris.corner i j r0)) kps kps').
    { eapply Forall2_impl; [exact Hup|]. intros a c. apply upgraded_mono.
      intros kp ->. exists r. repeat split; assumption. }
    destruct b; intros [= <-].
    + exists kps', []. rewrite app_nil_r. split; [reflexivity|].
      split; [exact Hup'|]. split; [constructor | simpl; lia].
    + exists kps', [Harris.corner i j r]. split; [reflexivity|].
      split; [exact Hup'|]. split; [|simpl; lia].
      constructor; [|constructor]. exists r. repeat split; assumption.
Qed.

Lemma pixel_returns (i j : Z) (value : float) (kps : list cv.KeyPoint) :
  returned (int_of_float value) = true →
  ∃ out, Harris.pixel overlap i j value kps = Ok out.
Proof.
  unfold Harris.pixel. destruct (int_of_float value) as [r| |]; try discriminate.
  intros _. cbn [mbind outcome_bind].
  destruct (r <=? Harris.minResponse); [eexists; reflexivity|].
  destruct (Harris.overlapLoop overlap (Harris.corner i j r) kps) as [kps' []];
    eexists; reflexivity.
Qed.

Lemma columnLoop_grows (j : Z) (row : list float) :
  ∀ (i : Z) (kps out : list cv.KeyPoint),
    Harris.columnLoop overlap j i row kps = Ok out →
    grownBy (cornerOfRow j i row) (length (filter (λ v, strongPixel v = true) row)) kps out.
Proof.
  induction row as [|value row IH]; intros i kps out; cbn [Harris.columnLoop].
  - intros [= <-]. exact (grownBy_refl _ _).
  - destruct (Harris.pixel overlap i j value kps) as [mid| |] eqn:Hpixel;
      cbn [mbind outcome_bind]; try discriminate.
    intros Hrest. apply pixel_grows in Hpixel. apply IH in Hrest.
    rewrite filter_cons.
    assert (Hcount : (length (if decide (strongPixel value = true)
                              then value :: filter (λ v, strongPixel v = true) row
                              else filter (λ v, strongPixel v = true) row)
                      = (if strongPixel value then 1 else 0)
                        + length (filter (λ v, strongPixel v = true) row))%nat).
    { destruct (strongPixel value); [rewrite decide_True by reflexivity
                                    |rewrite decide_False by discriminate]; reflexivity. }
    rewrite Hcount.
    eapply grownBy_trans.
    + eapply grownBy_mono; [| |exact Hpixel]; [|reflexivity].
      intros kp (r & Hr & Hgt & ->). exists 0%nat, value, r.
      rewrite Z.add_0_r. repeat split; assumption.
    + eapply grownBy_mono; [| |exact Hrest]; [|reflexivity].
      intros kp (k & v & r & Hk & Hr & Hgt & ->). exists (S k), v, r.
      split; [exact Hk|]. split; [exact Hr|]. split; [exact Hgt|].
      f_equal. lia.
Qed.

Lemma columnLoop_returns (j : Z) (row : list float) :
  Forall (λ v, returned (int_of_float v) = true) row →
  ∀ (i : Z) (kps : list cv.KeyPoint), ∃ out, Harris.columnLoop overlap j i row kps = Ok out.
Proof.
  induction 1 as [|value row Hv _ IH]; intros i kps; cbn [Harris.columnLoop].
  - eexists. reflexivity.
  - destruct (pixel_returns i j value kps Hv) as [mid ->]. cbn [mbind outcome_bind].
    apply IH.
Qed.

Lemma rowLoop_grows (harrisNorm : list (list float)) :
  ∀ (j : Z) (kps out : list cv.KeyPoint),
    Harris.rowLoop overlap j harrisNorm kps = Ok out →
    grownBy (cornerOf j harrisNorm)
            (length (filter (λ v, strongPixel v = true) (concat harrisNorm))) kps out.
Proof.
  induction harrisNorm as [|row rows IH]; intros j kps out; cbn [Harris.rowLoop].
  - intros [= <-]. exact (grownBy_refl _ _).
  - destruct (Harris.columnLoop overlap j 0 row kps) as [mid| |] eqn:Hrow;
      cbn [mbind outcome_bind]; try discriminate.
    intros Hrest. apply columnLoop_grows in Hrow. apply IH in Hrest.
    cbn [concat]. rewrite filter_app, length_app.
    eapply grownBy_trans.
    + eapply grownBy_mono; [| |exact Hrow]; [|reflexivity].
      intros kp Hkp. exists 0%nat, row. rewrite Z.add_0_r. split; [reflexivity | exact Hkp].
    + eapply grownBy_mono; [| |exact Hrest]; [|reflexivity].
      intros kp (n & r & Hn & Hkp). exists (S n), r. split; [exact Hn|].
      replace (j + Z.of_nat (S n)) with (j + 1 + Z.of_nat n) by lia. exact Hkp.
Qed.

Lemma rowLoop_returns (harrisNorm : list (list float)) :
  Forall (λ v, returned (int_of_float v) = true) (concat harrisNorm) →
  ∀ (j : Z) (kps : list cv.KeyPoint), ∃ out, Harris.rowLoop overlap j harrisNorm kps = Ok out.
Proof.
  induction harrisNorm as [|row rows IH]; intros Hall j kps; cbn [Harris.rowLoop].
  - eexists. reflexivity.
  - cbn [concat] in Hall. apply Forall_app in Hall as [Hrow Hrows].
    destruct (columnLoop_returns j row Hrow 0 kps) as [mid ->]. cbn [mbind outcome_bind].
    apply IH, Hrows.
Qed.

End HarrisLoops.

Lemma int_of_float_range (value : float) (r : Z) :
  int_of_float value = Ok r → - 2 ^ 31 ≤ r < 2 ^ 31.
Proof.
  unfold int_of_float. destruct value as [s|s| |s m e]; try discriminate.
  - intros [= <-]. lia.
  - cbv zeta.
    destruct (_ && _) eqn:Hrange; [|discriminate].
    intros [= <-]. apply andb_true_iff in Hrange as [Hlo Hhi].
    apply Z.leb_le in Hlo. apply Z.ltb_lt in Hhi. split; assumption.
Qed.

Lemma cornerOf_shape (j0 : Z) (harrisNorm : list (list float)) (kp : cv.KeyPoint) :
  cornerOf j0 harrisNorm kp →
  cv.size kp = float_of_Z 6 ∧ cv.angle kp = float_of_Z (-1)
  ∧ (∃ r, 100 < r < 2 ^ 31 ∧ cv.response kp = float_of_Z r)
  ∧ ∃ value, value ∈ concat harrisNorm ∧ strongPixel value = true.
Proof.
  intros (n & row & Hrow & k & value & r & Hk & Hr & Hgt & ->).
  split; [reflexivity|]. split; [reflexivity|]. split.
  - exists r. split; [|reflexivity].
    apply int_of_float_range in Hr. unfold Harris.minResponse in Hgt. lia.
  - exists value. split.
    + apply list_elem_of_In, in_concat. exists row.
      split; apply list_elem_of_In; eapply list_elem_of_lookup_2; eassumption.
    + apply strongPixel_true. exists r. split; assumption.
Qed.

Lemma flt_irrefl (a : float) : flt a a = false.
Proof.
  destruct (flt a a) eqn:H; [|reflexivity].
  apply flt_key in H as ([[a1 a2] a3] & [[b1 b2] b3] & Ha & Hb & Hlt).
  rewrite Ha in Hb. injection Hb as <- <- <-. unfold keyLt in Hlt. lia.
Qed.

(** The statistics of keypoints that all have the same size. *)
Lemma sizeStats_uniform_from (s : float) (keypoints : list cv.KeyPoint) (mean0 : float) :
  Forall (λ kp, cv.size kp = s) keypoints →
  ∃ meanSz,
    fold_left (λ '(minSz, maxSz, meanSz) kp,
                 (fmin minSz (cv.size kp), fmax maxSz (cv.size kp),
                  fadd meanSz (cv.size kp)))
              keypoints (s, s, mean0) = (s, s, meanSz).
Proof.
  intros Hall. revert mean0. induction Hall as [|kp rest Hkp _ IH]; intros mean0.
  - exists mean0. reflexivity.
  - cbn [fold_left]. rewrite Hkp. unfold fmin at 2, fmax at 2. rewrite flt_irrefl.
    apply IH.
Qed.

Lemma keypointStatsRow_uniform (s : float) (imgIndex : Z) (det : string)
    (keypoints : list cv.KeyPoint) :
  keypoints ≠ [] →
  Forall (λ kp, cv.size kp = s) keypoints →
  flt s FLT_MAX = true → flt fzero s = true →
  ∃ meanSz, keypointStatsRow imgIndex det keypoints
            = KeypointRow imgIndex det (length keypoints) s s meanSz.
Proof.
  intros Hne Hall Hlo Hhi.
  destruct keypoints as [|kp rest]; [contradiction|].
  apply Forall_cons in Hall as [Hkp Hrest].
  destruct (sizeStats_uniform_from s rest (fadd fzero s) Hrest) as [meanSz Hfold].
  unfold keypointStatsRow, sizeStats. cbn [fold_left]. rewrite Hkp.
  unfold fmin at 2, fmax at 2. rewrite Hlo, Hhi, Hfold.
  rewrite bool_decide_eq_false_2 by discriminate. cbn [negb].
  eexists. reflexivity.
Qed.

Lemma cornersToKeypoints_app (corners : list cv.Point2f) (kps : list cv.KeyPoint) :
  ShiTomasi.cornersToKeypoints corners kps = kps ++ (ShiTomasi.cornerKeyPoint <$> corners).
Proof.
  unfold ShiTomasi.cornersToKeypoints. revert kps.
  induction corners as [|c corners IH]; intros kps; cbn [fold_left fmap list_fmap].
  - rewrite app_nil_r. reflexivity.
  - rewrite IH, <- app_assoc. reflexivity.
Qed.

(** X12.  The Harris branch, on a response matrix whose values all
    convert to [int], returns the keypoints it was given, each as it was
    or replaced in place by a corner with a larger response, followed by
    new corners, at most one per pixel whose truncated response is above
    100.  Every corner is the keypoint of such a pixel: size 6, angle
    -1, response the truncated value.  Without such a pixel the vector
    is returned as it was. *)
Theorem harris_suppression_upgrades_in_place
    (overlap : cv.KeyPoint → cv.KeyPoint → float)
    (harrisNorm : list (list float)) (kps : list cv.KeyPoint) :
  Forall (λ v, returned (int_of_float v) = true) (concat harrisNorm) →
  ∃ replaced added,
    Harris.suppressed overlap harrisNorm kps = Ok (replaced ++ added)
    ∧ Forall2 (λ old new,
                 new = old
                 ∨ (cornerOf 0 harrisNorm new
                    ∧ flt (cv.response old) (cv.response new) = true)) kps replaced
    ∧ Forall (cornerOf 0 harrisNorm) added
    ∧ (length added ≤ length (filter (λ v, strongPixel v = true) (concat harrisNorm)))%nat
    ∧ (∀ kp, cornerOf 0 harrisNorm kp →
         cv.size kp = float_of_Z 6 ∧ cv.angle kp = float_of_Z (-1)
         ∧ ∃ r, 100 < r < 2 ^ 31 ∧ cv.response kp = float_of_Z r)
    ∧ (Forall (λ v, strongPixel v = false) (concat harrisNorm) →
       replaced = kps ∧ added = []).
Proof.
  intros Hcast.
  destruct (rowLoop_returns overlap harrisNorm Hcast 0 kps) as [out Hout].
  pose proof (rowLoop_grows overlap harrisNorm 0 kps out Hout)
    as (replaced & added & -> & Hrep & Hadd & Hlen).
  exists replaced, added.
  split; [exact Hout|]. split; [exact Hrep|]. split; [exact Hadd|]. split; [exact Hlen|].
  split.
  - intros kp Hkp. destruct (cornerOf_shape 0 harrisNorm kp Hkp) as (Hs & Ha & Hr & _).
    repeat split; assumption.
  - intros Hweak.
    assert (Hnone : ∀ kp, ¬ cornerOf 0 harrisNorm kp).
    { intros kp Hkp.
      destruct (cornerOf_shape 0 harrisNorm kp Hkp) as (_ & _ & _ & value & Hin & Hstrong).
      rewrite Forall_forall in Hweak. rewrite (Hweak value Hin) in Hstrong.
      discriminate. }
    split.
    + clear -Hrep Hnone. induction Hrep as [|old new kps replaced Hup _ IH]; [reflexivity|].
      destruct Hup as [->|[Hc _]]; [|destruct (Hnone _ Hc)]. f_equal. exact IH.
    + destruct added as [|kp added]; [reflexivity|].
      apply Forall_cons in Hadd as [Hkp _]. destruct (Hnone _ Hkp).
Qed.

(** X13.  Keypoints of the Harris branch (from an empty vector), or any
    of them that a filter keeps, are logged with MinSize and MaxSize 6,
    twice the aperture size. *)
Theorem harris_rows_log_size_six (overlap : cv.KeyPoint → cv.KeyPoint → float)
    (harrisNorm : list (list float)) (out kept : list cv.KeyPoint)
    (imgIndex : Z) (detectorType : string) :
  Harris.suppressed overlap harrisNorm [] = Ok out →
  kept ⊆ out →
  kept ≠ [] →
  ∃ meanSz,
    keypointStatsRow imgIndex detectorType kept
    = KeypointRow imgIndex detectorType (length kept) (float_of_Z 6) (float_of_Z 6) meanSz.
Proof.
  intros Hout Hsub Hne.
  apply rowLoop_grows in Hout as (replaced & added & -> & Hrep & Hadd & _).
  inversion Hrep; subst. cbn [app] in Hsub.
  apply keypointStatsRow_uniform; [exact Hne| |reflexivity|reflexivity].
  apply Forall_forall. intros kp Hkp. apply Hsub in Hkp.
  rewrite Forall_forall in Hadd.
  apply (cornerOf_shape 0 harrisNorm kp (Hadd kp Hkp)).
Qed.

(** X14.  The Shi-Tomasi branch makes one keypoint per corner, in the
    order of the corners and with the corner as its point; these
    keypoints, or any of them that a filter keeps, are logged with
    MinSize and MaxSize 4, the block size. *)
Theorem shi_tomasi_rows_log_size_four (corners : list cv.Point2f)
    (kept : list cv.KeyPoint) (imgIndex : Z) (detectorType : string) :
  kept ⊆ ShiTomasi.cornersToKeypoints corners [] →
  kept ≠ [] →
  cv.pt <$> ShiTomasi.cornersToKeypoints corners [] = corners
  ∧ ∃ meanSz,
      keypointStatsRow imgIndex detectorType kept
      = KeypointRow imgIndex detectorType (length kept) (float_of_Z 4) (float_of_Z 4) meanSz.
Proof.
  intros Hsub Hne. rewrite cornersToKeypoints_app in Hsub |- *. cbn [app] in *. split.
  - rewrite <- list_fmap_compose. clear. induction corners as [|c corners IH]; [reflexivity|].
    cbn [fmap list_fmap]. f_equal. exact IH.
  - apply keypointStatsRow_uniform; [exact Hne| |reflexivity|reflexivity].
    apply Forall_forall. intros kp Hkp. apply Hsub in Hkp.
    apply list_elem_of_fmap in Hkp as (c & -> & _). reflexivity.
Qed.

Lemma harris_suppression_upgrades_in_place_witness :
  ∃ replaced added,
    Harris.suppressed Toy.sameRow Toy.responses [] = Ok (replaced ++ added)
    ∧ replaced = []
    ∧ (length added ≤ 4)%nat.
Proof.
  destruct (harris_suppression_upgrades_in_place Toy.sameRow Toy.responses [])
    as (replaced & added & Hrun & Hrep & _ & Hlen & _).
  - unfold Toy.responses. cbn [map concat app].
    repeat (constructor; [vm_compute; reflexivity|]). constructor.
  - assert (Hcount : length (filter (λ v, strongPixel v = true) (concat Toy.responses))
                     = 4%nat) by (vm_compute; reflexivity).
    rewrite Hcount in Hlen.
    exists replaced, added. split; [exact Hrun|]. split; [|exact Hlen].
    inversion Hrep. reflexivity.
Defined.

Lemma harris_rows_log_size_six_witness :
  ∃ meanSz,
    keypointStatsRow 0 "HARRIS" [Harris.corner 2 0 130; Harris.corner 0 1 200]
    = KeypointRow 0 "HARRIS" 2 (float_of_Z 6) (float_of_Z 6) meanSz.
Proof.
  apply (harris_rows_log_size_six Toy.sameRow Toy.responses
           [Harris.corner 2 0 130; Harris.corner 0 1 200]
           [Harris.corner 2 0 130; Harris.corner 0 1 200] 0 "HARRIS").
  - vm_compute. reflexivity.
  - intros kp Hkp. exact Hkp.
  - discriminate.
Defined.

Lemma shi_tomasi_rows_log_size_four_witness :
  let corners := [ {| cv.x := float_of_Z 600; cv.y := float_of_Z 200 |};
                   {| cv.x := float_of_Z 610; cv.y := float_of_Z 220 |} ] in
  cv.pt <$> ShiTomasi.cornersToKeypoints corners [] = corners
  ∧ ∃ meanSz,
      keypointStatsRow 0 "SHITOMASI" (ShiTomasi.cornersToKeypoints corners [])
      = KeypointRow 0 "SHITOMASI" 2 (float_of_Z 4) (float_of_Z 4) meanSz.
Proof.
  intros corners.
  apply (shi_tomasi_rows_log_size_four corners (ShiTomasi.cornersToKeypoints corners [])
           0 "SHITOMASI").
  - intros kp Hkp. exact Hkp.
  - discriminate.
Defined.
